(** * RedBlackTree.h: a left-leaning red-black (2-3) tree with parent pointers

    The C++ class [util::RedBlackTree<KeyT, LessT>] keeps its nodes on the
    free store and links them with raw pointers in both directions.  The
    embedding below keeps that shape: a node is a record with the five data
    members of [Node], the free store is a finite map from addresses to
    nodes, and every member function is a computation over the tree object
    (free store, [m_root], [m_size]) that may fail.  Loops carry a step
    budget computed from the number of allocated nodes. *)

From Stdlib Require Import ZArith Lia.
From stdpp Require Import gmap list sorting.

Set Default Proof Using "Type".

(** ** Pointers, node records *)

Definition ptr := option positive.
Abbreviation nullptr := (@None positive).

(** [p == q] and [p != q] on pointers. *)
Definition ptr_eqb (p q : ptr) : bool := bool_decide (p = q).
Definition ptr_neqb (p q : ptr) : bool := negb (ptr_eqb p q).

(** [ByteT] is [std::uint8_t], [SizeT] is [std::size_t] (64 bits). *)
Definition ByteT (x : Z) : Z := (x mod 256)%Z.
Definition SIZE_MAX : Z := (2 ^ 64 - 1)%Z.
Definition SizeT (x : Z) : Z := (x mod 2 ^ 64)%Z.

Module Node.

Record t (KeyT : Type) := mk {
    m_children0 : ptr;
    m_children1 : ptr;
    m_parent : ptr;
    m_type : Z;
    m_key : KeyT
  }.
Arguments mk {KeyT}.
Arguments m_children0 {KeyT}.
Arguments m_children1 {KeyT}.
Arguments m_parent {KeyT}.
Arguments m_type {KeyT}.
Arguments m_key {KeyT}.

Definition RED_INDEX : Z := 0.
Definition LESS_INDEX : Z := 1.
Definition RED : Z := Z.shiftl 1 RED_INDEX.
Definition LESS : Z := Z.shiftl 1 LESS_INDEX.

Section Methods.
Context {KeyT : Type}.
Implicit Type n : t KeyT.

(** [Node( KeyT const & key )] *)
Definition ctor (key : KeyT) : t KeyT := mk nullptr nullptr nullptr 0 key.

(** [m_children[ ByteT( !left ) ]] *)
Definition getChild (left : bool) n : ptr :=
      if left then m_children0 n else m_children1 n.
Definition getLeftChild n : ptr := m_children0 n.
Definition getRightChild n : ptr := m_children1 n.
Definition getParent n : ptr := m_parent n.
Definition getKey n : KeyT := m_key n.

Definition setLeftChild (child : ptr) n :=
      mk child (m_children1 n) (m_parent n) (m_type n) (m_key n).
Definition setRightChild (child : ptr) n :=
      mk (m_children0 n) child (m_parent n) (m_type n) (m_key n).
Definition setChild (left : bool) (child : ptr) n :=
      if left then setLeftChild child n else setRightChild child n.
Definition setParent (parent : ptr) n :=
      mk (m_children0 n) (m_children1 n) parent (m_type n) (m_key n).
Definition set_type (ty : Z) n :=
      mk (m_children0 n) (m_children1 n) (m_parent n) ty (m_key n).

Definition isRed n : bool := (0 <? Z.land (m_type n) RED)%Z.
(** [m_type &= ~RED; m_type |= ( ByteT( isRed ) << RED_INDEX );] *)
Definition setRed (isRed : bool) n :=
      let ty := ByteT (Z.land (m_type n) (Z.lnot RED)) in
      set_type (ByteT (Z.lor ty (Z.shiftl (ByteT (Z.b2z isRed)) RED_INDEX))) n.
Definition isBlack n : bool := negb (isRed n).
Definition setBlack (isBlack : bool) n := setRed (negb isBlack) n.

Definition isLessThanParent n : bool := (0 <? Z.land (m_type n) LESS)%Z.
Definition setLessThanParent (isLess : bool) n :=
      let ty := ByteT (Z.land (m_type n) (Z.lnot LESS)) in
      set_type (ByteT (Z.lor ty (Z.shiftl (ByteT (Z.b2z isLess)) LESS_INDEX))) n.
Definition isGreaterThanParent n : bool := negb (isLessThanParent n).
Definition setGreaterThanParent (isGreater : bool) n :=
      setLessThanParent (negb isGreater) n.
End Methods.

End Node.

(** ** The tree object and the computations over it *)

Record RedBlackTree (KeyT : Type) := mkTree {
  heap : gmap positive (Node.t KeyT);
  m_root : ptr;
  m_size : Z
}.
Arguments mkTree {KeyT}.
Arguments heap {KeyT}.
Arguments m_root {KeyT}.
Arguments m_size {KeyT}.

Inductive error := BadPointer | AssertFailed | OutOfFuel | BadAlloc.

Inductive result (A : Type) := Ok (a : A) | Err (e : error).
Arguments Ok {A}.
Arguments Err {A}.

Definition M (KeyT A : Type) : Type :=
  RedBlackTree KeyT → result (A * RedBlackTree KeyT).

Section Monad.
Context {KeyT : Type}.
Local Abbreviation M := (M KeyT).

Definition ret {A} (a : A) : M A := λ s, Ok (a, s).
Definition bind {A B} (m : M A) (f : A → M B) : M B :=
    λ s, match m s with Ok (a, s') => f a s' | Err e => Err e end.
Definition fail {A} (e : error) : M A := λ _, Err e.

Definition assert (b : bool) : M unit :=
    if b then ret () else fail AssertFailed.
Definition when (b : bool) (m : M unit) : M unit :=
    if b then m else ret ().
Definition assertM (m : M bool) : M unit :=
    bind m assert.
(** Short-circuit [a && m] and [a || m] where [m] dereferences. *)
Definition andM (a : bool) (m : M bool) : M bool :=
    if a then m else ret false.
Definition orM (a : bool) (m : M bool) : M bool :=
    if a then ret true else m.

(** [p->f()] for a [const] member function [f]. *)
Definition call {A} (p : ptr) (f : Node.t KeyT → A) : M A :=
    λ s, match p with
         | Some a => match heap s !! a with
                     | Some n => Ok (f n, s)
                     | None => Err BadPointer
                     end
         | None => Err BadPointer
         end.

(** [p->f( ... )] for a member function that writes the node. *)
Definition call_mut (p : ptr) (f : Node.t KeyT → Node.t KeyT) : M unit :=
    λ s, match p with
         | Some a => match heap s !! a with
                     | Some n => Ok ((), mkTree (<[a := f n]> (heap s)) (m_root s) (m_size s))
                     | None => Err BadPointer
                     end
         | None => Err BadPointer
         end.

(** [new Node( key )]; the free store holds at most [SIZE_MAX] objects. *)
Definition new_Node (key : KeyT) : M ptr :=
    λ s, if bool_decide (Z.of_nat (size (heap s)) < SIZE_MAX)%Z then
           let a := fresh (dom (heap s)) in
           Ok (Some a, mkTree (<[a := Node.ctor key]> (heap s)) (m_root s) (m_size s))
         else Err BadAlloc.

(** [delete p] *)
Definition delete_Node (p : ptr) : M unit :=
    λ s, match p with
         | Some a => match heap s !! a with
                     | Some _ => Ok ((), mkTree (delete a (heap s)) (m_root s) (m_size s))
                     | None => Err BadPointer
                     end
         | None => Ok ((), s)
         end.

Definition get_root : M ptr := λ s, Ok (m_root s, s).
Definition set_root (p : ptr) : M unit :=
    λ s, Ok ((), mkTree (heap s) p (m_size s)).
Definition get_size : M Z := λ s, Ok (m_size s, s).
Definition set_size (n : Z) : M unit :=
    λ s, Ok ((), mkTree (heap s) (m_root s) n).

(** Step budget for one loop: one more than the number of live nodes. *)
Definition get_fuel : M nat := λ s, Ok (S (size (heap s)), s).
End Monad.

Notation "x <- m ;; f" := (bind m (λ x, f))
  (at level 100, m at next level, f at level 200, right associativity).
Notation "m ;; f" := (bind m (λ _, f))
  (at level 100, f at level 200, right associativity).
Notation "p ~> f" := (call p f) (at level 40, no associativity).
Notation "p <~ f" := (call_mut p f) (at level 40, no associativity).

(** ** Navigation: [Node::getPrevious], [Node::getNext], [find] *)

Section Tree.
Context {KeyT : Type} (less : KeyT → KeyT → bool).
Local Abbreviation M := (M KeyT).
Implicit Types (this node next nextNode nearest parent child left right : ptr).
Implicit Types (key : KeyT) (fuel : nat).

(** [while( node->m_children[ 1 ] != nullptr ) node = node->m_children[ 1 ];] *)
Fixpoint getPrevious_down fuel node : M ptr :=
    c <- node ~> Node.m_children1 ;;
    if ptr_neqb c nullptr then
      match fuel with
      | O => fail OutOfFuel
      | S fuel => getPrevious_down fuel c
      end
    else ret node.

(** [while( node->m_parent != nullptr ) { ... }  return this;] *)
Fixpoint getPrevious_up fuel this node : M ptr :=
    parent <- node ~> Node.getParent ;;
    if ptr_neqb parent nullptr then
      match fuel with
      | O => fail OutOfFuel
      | S fuel =>
          g <- node ~> Node.isGreaterThanParent ;;
          if g then ret parent else getPrevious_up fuel this parent
      end
    else ret this.

Definition getPrevious this : M ptr :=
    fuel <- get_fuel ;;
    c <- this ~> Node.m_children0 ;;
    if ptr_neqb c nullptr then getPrevious_down fuel c
    else getPrevious_up fuel this this.

Fixpoint getNext_down fuel node : M ptr :=
    c <- node ~> Node.m_children0 ;;
    if ptr_neqb c nullptr then
      match fuel with
      | O => fail OutOfFuel
      | S fuel => getNext_down fuel c
      end
    else ret node.

Fixpoint getNext_up fuel this node : M ptr :=
    parent <- node ~> Node.getParent ;;
    if ptr_neqb parent nullptr then
      match fuel with
      | O => fail OutOfFuel
      | S fuel =>
          l <- node ~> Node.isLessThanParent ;;
          if l then ret parent else getNext_up fuel this parent
      end
    else ret this.

Definition getNext this : M ptr :=
    fuel <- get_fuel ;;
    c <- this ~> Node.m_children1 ;;
    if ptr_neqb c nullptr then getNext_down fuel c
    else getNext_up fuel this this.

(** [Node * find( KeyT const & key )] *)
Fixpoint find_loop fuel key node : M ptr :=
    if ptr_neqb node nullptr then
      match fuel with
      | O => fail OutOfFuel
      | S fuel =>
          k <- node ~> Node.getKey ;;
          if less key k then
            c <- node ~> Node.getLeftChild ;; find_loop fuel key c
          else if less k key then
            c <- node ~> Node.getRightChild ;; find_loop fuel key c
          else ret node
      end
    else ret node.

Definition find key : M ptr :=
    fuel <- get_fuel ;;
    node <- get_root ;;
    find_loop fuel key node.

(** [bool find( KeyT const & key, Node * & nearest, bool & lessThan )];
      the two reference parameters are returned with the result. *)
Fixpoint find_nearest_loop fuel key nextNode nearest (lessThan : bool)
    : M (bool * ptr * bool) :=
    if ptr_neqb nextNode nullptr then
      match fuel with
      | O => fail OutOfFuel
      | S fuel =>
          let nearest := nextNode in
          k <- nextNode ~> Node.getKey ;;
          if less key k then
            c <- nextNode ~> Node.getLeftChild ;;
            find_nearest_loop fuel key c nearest true
          else if less k key then
            c <- nextNode ~> Node.getRightChild ;;
            find_nearest_loop fuel key c nearest false
          else ret (true, nearest, true)
      end
    else ret (false, nearest, lessThan).

Definition find_nearest key (lessThan : bool) : M (bool * ptr * bool) :=
    fuel <- get_fuel ;;
    nextNode <- get_root ;;
    find_nearest_loop fuel key nextNode nullptr lessThan.

Definition getSize : M Z := get_size.

(** [Node * getNextLargestParent( Node * node )] *)
Fixpoint getNextLargestParent_loop fuel node next : M ptr :=
    if ptr_neqb next nullptr then
      match fuel with
      | O => fail OutOfFuel
      | S fuel =>
          l <- node ~> Node.isLessThanParent ;;
          if l then ret next
          else
            let node := next in
            next <- node ~> Node.getParent ;;
            getNextLargestParent_loop fuel node next
      end
    else ret nullptr.

Definition getNextLargestParent node : M ptr :=
    assert (ptr_neqb node nullptr) ;;
    fuel <- get_fuel ;;
    next <- node ~> Node.getParent ;;
    getNextLargestParent_loop fuel node next.

(** [do { node = next; next = node->getLeftChild(); } while( next != nullptr );] *)
Fixpoint getNextLargestChild_loop fuel next : M ptr :=
    let node := next in
    next <- node ~> Node.getLeftChild ;;
    if ptr_neqb next nullptr then
      match fuel with
      | O => fail OutOfFuel
      | S fuel => getNextLargestChild_loop fuel next
      end
    else ret node.

Definition getNextLargestChild node : M ptr :=
    assert (ptr_neqb node nullptr) ;;
    fuel <- get_fuel ;;
    next <- node ~> Node.getRightChild ;;
    if ptr_eqb next nullptr then ret nullptr
    else getNextLargestChild_loop fuel next.

(** ** Pointer surgery shared by insertion and removal *)

Definition swap (first second : ptr) : M unit :=
    node1 <- first ~> Node.getLeftChild ;;
    node2 <- second ~> Node.getLeftChild ;;
    when (ptr_neqb node1 nullptr) (node1 <~ Node.setParent second) ;;
    when (ptr_neqb node2 nullptr) (node2 <~ Node.setParent first) ;;
    first <~ Node.setLeftChild node2 ;;
    second <~ Node.setLeftChild node1 ;;
    node1 <- first ~> Node.getRightChild ;;
    node2 <- second ~> Node.getRightChild ;;
    when (ptr_neqb node1 nullptr) (node1 <~ Node.setParent second) ;;
    when (ptr_neqb node2 nullptr) (node2 <~ Node.setParent first) ;;
    first <~ Node.setRightChild node2 ;;
    second <~ Node.setRightChild node1 ;;
    node1 <- first ~> Node.getParent ;;
    node2 <- second ~> Node.getParent ;;
    when (ptr_neqb node1 nullptr)
      (l <- first ~> Node.isLessThanParent ;; node1 <~ Node.setChild l second) ;;
    when (ptr_neqb node2 nullptr)
      (l <- second ~> Node.isLessThanParent ;; node2 <~ Node.setChild l first) ;;
    first <~ Node.setParent node2 ;;
    second <~ Node.setParent node1 ;;
    flag <- first ~> Node.isRed ;;
    r <- second ~> Node.isRed ;;
    first <~ Node.setRed r ;;
    second <~ Node.setRed flag ;;
    flag <- first ~> Node.isLessThanParent ;;
    l <- second ~> Node.isLessThanParent ;;
    first <~ Node.setLessThanParent l ;;
    second <~ Node.setLessThanParent flag.

Definition setChild parent child (lessThan : bool) : M unit :=
    assert (ptr_neqb parent nullptr) ;;
    when (ptr_neqb child nullptr)
      (child <~ Node.setParent parent ;;
       child <~ Node.setLessThanParent lessThan) ;;
    parent <~ Node.setChild lessThan child.

Definition setLeftChild parent child : M unit :=
    assert (ptr_neqb parent nullptr) ;;
    when (ptr_neqb child nullptr)
      (child <~ Node.setParent parent ;;
       child <~ Node.setLessThanParent true) ;;
    parent <~ Node.setLeftChild child.

Definition setRightChild parent child : M unit :=
    assert (ptr_neqb parent nullptr) ;;
    when (ptr_neqb child nullptr)
      (child <~ Node.setParent parent ;;
       child <~ Node.setGreaterThanParent true) ;;
    parent <~ Node.setRightChild child.

(** ** Insertion: the five split cases of [add( Node * )] *)

Definition addTwoLeft node : M ptr :=
    assert (ptr_neqb node nullptr) ;;
    assertM (node ~> Node.isBlack) ;;
    assertM (node ~> Node.isLessThanParent) ;;
    right <- node ~> Node.getParent ;;
    assert (ptr_neqb right nullptr) ;;
    assertM (c <- right ~> Node.getLeftChild ;; ret (ptr_eqb c nullptr)) ;;
    assertM (right ~> Node.isBlack) ;;
    right <~ Node.setLeftChild node ;;
    node <~ Node.setLessThanParent true ;;
    node <~ Node.setRed true ;;
    get_root.

Definition addTwoRight node : M ptr :=
    assert (ptr_neqb node nullptr) ;;
    assertM (node ~> Node.isBlack) ;;
    assertM (node ~> Node.isGreaterThanParent) ;;
    left <- node ~> Node.getParent ;;
    assert (ptr_neqb left nullptr) ;;
    assertM (c <- left ~> Node.getRightChild ;; ret (ptr_eqb c nullptr)) ;;
    assertM (left ~> Node.isBlack) ;;
    child <- node ~> Node.getLeftChild ;;
    left <~ Node.setRightChild child ;;
    when (ptr_neqb child nullptr)
      (child <~ Node.setParent left ;;
       child <~ Node.setGreaterThanParent true) ;;
    parent <- left ~> Node.getParent ;;
    lessThan <- left ~> Node.isLessThanParent ;;
    (if ptr_neqb parent nullptr then parent <~ Node.setChild lessThan node
     else set_root node) ;;
    node <~ Node.setParent parent ;;
    node <~ Node.setLessThanParent lessThan ;;
    node <~ Node.setLeftChild left ;;
    left <~ Node.setParent node ;;
    left <~ Node.setLessThanParent true ;;
    left <~ Node.setRed true ;;
    get_root.

Definition addThreeLeft node : M ptr :=
    assert (ptr_neqb node nullptr) ;;
    assertM (node ~> Node.isBlack) ;;
    assertM (node ~> Node.isLessThanParent) ;;
    middle <- node ~> Node.getParent ;;
    assert (ptr_neqb middle nullptr) ;;
    assertM (c <- middle ~> Node.getLeftChild ;; ret (ptr_eqb c nullptr)) ;;
    assertM (middle ~> Node.isLessThanParent) ;;
    assertM (middle ~> Node.isRed) ;;
    right <- middle ~> Node.getParent ;;
    assert (ptr_neqb right nullptr) ;;
    assertM (right ~> Node.isBlack) ;;
    parent <- right ~> Node.getParent ;;
    lessThan <- right ~> Node.isLessThanParent ;;
    (if ptr_neqb parent nullptr then parent <~ Node.setChild lessThan nullptr
     else set_root middle) ;;
    middle <~ Node.setParent parent ;;
    middle <~ Node.setLessThanParent lessThan ;;
    child <- middle ~> Node.getRightChild ;;
    when (ptr_neqb child nullptr)
      (child <~ Node.setParent right ;;
       child <~ Node.setLessThanParent true) ;;
    right <~ Node.setLeftChild child ;;
    right <~ Node.setParent middle ;;
    right <~ Node.setGreaterThanParent true ;;
    middle <~ Node.setRightChild right ;;
    middle <~ Node.setLeftChild node ;;
    middle <~ Node.setBlack true ;;
    ret middle.

Definition addThreeMiddle node : M ptr :=
    assert (ptr_neqb node nullptr) ;;
    assertM (node ~> Node.isBlack) ;;
    assertM (node ~> Node.isGreaterThanParent) ;;
    left <- node ~> Node.getParent ;;
    assert (ptr_neqb left nullptr) ;;
    assertM (c <- left ~> Node.getRightChild ;; ret (ptr_eqb c nullptr)) ;;
    assertM (left ~> Node.isLessThanParent) ;;
    assertM (left ~> Node.isRed) ;;
    right <- left ~> Node.getParent ;;
    assert (ptr_neqb right nullptr) ;;
    assertM (right ~> Node.isBlack) ;;
    parent <- right ~> Node.getParent ;;
    lessThan <- right ~> Node.isLessThanParent ;;
    (if ptr_neqb parent nullptr then parent <~ Node.setChild lessThan nullptr
     else set_root node) ;;
    node <~ Node.setParent parent ;;
    node <~ Node.setLessThanParent lessThan ;;
    child <- node ~> Node.getLeftChild ;;
    when (ptr_neqb child nullptr)
      (child <~ Node.setParent left ;;
       child <~ Node.setGreaterThanParent true) ;;
    left <~ Node.setRightChild child ;;
    child <- node ~> Node.getRightChild ;;
    when (ptr_neqb child nullptr)
      (child <~ Node.setParent right ;;
       child <~ Node.setLessThanParent true) ;;
    right <~ Node.setLeftChild child ;;
    node <~ Node.setLeftChild left ;;
    node <~ Node.setRightChild right ;;
    left <~ Node.setParent node ;;
    right <~ Node.setParent node ;;
    left <~ Node.setLessThanParent true ;;
    right <~ Node.setGreaterThanParent true ;;
    left <~ Node.setBlack true ;;
    ret node.

Definition addThreeRight node : M ptr :=
    assert (ptr_neqb node nullptr) ;;
    assertM (node ~> Node.isBlack) ;;
    assertM (node ~> Node.isGreaterThanParent) ;;
    middle <- node ~> Node.getParent ;;
    assert (ptr_neqb middle nullptr) ;;
    assertM (middle ~> Node.isBlack) ;;
    assertM (c <- middle ~> Node.getRightChild ;; ret (ptr_eqb c nullptr)) ;;
    left <- middle ~> Node.getLeftChild ;;
    assert (ptr_neqb left nullptr) ;;
    assertM (left ~> Node.isRed) ;;
    assertM (left ~> Node.isLessThanParent) ;;
    left <~ Node.setBlack true ;;
    middle <~ Node.setRightChild node ;;
    parent <- middle ~> Node.getParent ;;
    lessThan <- middle ~> Node.isLessThanParent ;;
    (if ptr_neqb parent nullptr then parent <~ Node.setChild lessThan nullptr
     else set_root middle) ;;
    ret middle.

(** [Node * add( Node * node )] *)
Definition add_node node : M ptr :=
    target <- node ~> Node.getParent ;;
    assert (ptr_neqb target nullptr) ;;
    tb <- target ~> Node.isBlack ;;
    if tb then
      l <- node ~> Node.isLessThanParent ;;
      if l then addTwoLeft node
      else
        left <- target ~> Node.getLeftChild ;;
        b <- orM (ptr_eqb left nullptr) (left ~> Node.isBlack) ;;
        if b then addTwoRight node else addThreeRight node
    else
      l <- node ~> Node.isLessThanParent ;;
      if l then addThreeLeft node else addThreeMiddle node.

(** [while( freeNode != m_root ) freeNode = add( freeNode );] *)
Fixpoint add_loop fuel (freeNode : ptr) : M unit :=
    root <- get_root ;;
    if ptr_neqb freeNode root then
      match fuel with
      | O => fail OutOfFuel
      | S fuel => freeNode <- add_node freeNode ;; add_loop fuel freeNode
      end
    else ret ().

(** [bool add( KeyT const & key, Node * & node )] *)
Definition add_key_node key : M (bool * ptr) :=
    root <- get_root ;;
    if ptr_eqb root nullptr then
      root <- new_Node key ;;
      set_root root ;;
      set_size 1 ;;
      node <- get_root ;;
      ret (true, node)
    else
      r <- find_nearest key false ;;
      let '(found, nearest, lessThan) := r in
      if found then ret (false, nearest)
      else
        node <- new_Node key ;;
        node <~ Node.setParent nearest ;;
        node <~ Node.setLessThanParent lessThan ;;
        n <- get_size ;;
        set_size (SizeT (n + 1)) ;;
        fuel <- get_fuel ;;
        add_loop fuel node ;;
        ret (true, node).

(** [Node * add( KeyT const & key )] *)
Definition add key : M ptr :=
    r <- add_key_node key ;;
    ret (snd r).

(** [for( auto & key: keys ) { add( key ); }], the body of
      [RedBlackTree( std::initializer_list< KeyT > keys )]; the constructor
      from a pair of iterators runs the same loop. *)
Fixpoint add_keys (keys : list KeyT) : M unit :=
    match keys with
    | [] => ret ()
    | key :: keys => add key ;; add_keys keys
    end.

(** ** Removal: the merge and borrow cases of [rem( Node * )] *)

Definition remTwoLeft_Two node : M ptr :=
    a <- node ~> Node.getParent ;;
    assertM (andM (ptr_neqb a nullptr) (a ~> Node.isBlack)) ;;
    b <- a ~> Node.getRightChild ;;
    assertM (andM (ptr_neqb b nullptr) (b ~> Node.isBlack)) ;;
    x <- a ~> Node.getParent ;;
    xLess <- a ~> Node.isLessThanParent ;;
    c <- node ~> Node.getLeftChild ;; setLeftChild a c ;;
    c <- b ~> Node.getLeftChild ;; setRightChild a c ;;
    setLeftChild b a ;;
    a <~ Node.setRed true ;;
    if ptr_neqb x nullptr then
      node <~ Node.setLeftChild b ;;
      node <~ Node.setParent x ;;
      node <~ Node.setLessThanParent xLess ;;
      ret node
    else
      b <~ Node.setParent nullptr ;;
      set_root b ;;
      delete_Node node ;;
      get_root.

Definition remTwoLeft_Three node : M ptr :=
    a <- node ~> Node.getParent ;;
    assertM (andM (ptr_neqb a nullptr) (a ~> Node.isBlack)) ;;
    c <- a ~> Node.getRightChild ;;
    assertM (andM (ptr_neqb c nullptr) (c ~> Node.isBlack)) ;;
    b <- c ~> Node.getLeftChild ;;
    assertM (andM (ptr_neqb b nullptr) (b ~> Node.isRed)) ;;
    x <- a ~> Node.getParent ;;
    xLess <- a ~> Node.isLessThanParent ;;
    t <- node ~> Node.getLeftChild ;; setLeftChild a t ;;
    t <- b ~> Node.getLeftChild ;; setRightChild a t ;;
    t <- b ~> Node.getRightChild ;; setLeftChild c t ;;
    setLeftChild b a ;;
    setRightChild b c ;;
    b <~ Node.setBlack true ;;
    (if ptr_neqb x nullptr then setChild x b xLess
     else b <~ Node.setParent nullptr ;; set_root b) ;;
    delete_Node node ;;
    get_root.

Definition remTwoLeft node : M ptr :=
    parent <- node ~> Node.getParent ;;
    sibling <- parent ~> Node.getRightChild ;;
    assert (ptr_neqb sibling nullptr) ;;
    nephew <- sibling ~> Node.getLeftChild ;;
    r <- andM (ptr_neqb nephew nullptr) (nephew ~> Node.isRed) ;;
    if r then remTwoLeft_Three node else remTwoLeft_Two node.

Definition remTwoRight_Two node : M ptr :=
    a <- node ~> Node.getParent ;;
    assertM (andM (ptr_neqb a nullptr) (a ~> Node.isBlack)) ;;
    b <- a ~> Node.getLeftChild ;;
    assertM (andM (ptr_neqb b nullptr) (b ~> Node.isBlack)) ;;
    x <- a ~> Node.getParent ;;
    xLess <- a ~> Node.isLessThanParent ;;
    t <- node ~> Node.getLeftChild ;; setRightChild a t ;;
    b <~ Node.setRed true ;;
    if ptr_neqb x nullptr then
      node <~ Node.setLeftChild a ;;
      node <~ Node.setParent x ;;
      node <~ Node.setLessThanParent xLess ;;
      ret node
    else
      a <~ Node.setParent nullptr ;;
      set_root a ;;
      delete_Node node ;;
      get_root.

Definition remTwoRight_Three node : M ptr :=
    a <- node ~> Node.getParent ;;
    assertM (andM (ptr_neqb a nullptr) (a ~> Node.isBlack)) ;;
    c <- a ~> Node.getLeftChild ;;
    assertM (andM (ptr_neqb c nullptr) (c ~> Node.isBlack)) ;;
    b <- c ~> Node.getLeftChild ;;
    assertM (andM (ptr_neqb b nullptr) (b ~> Node.isRed)) ;;
    x <- a ~> Node.getParent ;;
    xLess <- a ~> Node.isLessThanParent ;;
    t <- node ~> Node.getLeftChild ;; setRightChild a t ;;
    t <- c ~> Node.getRightChild ;; setLeftChild a t ;;
    setRightChild c a ;;
    b <~ Node.setBlack true ;;
    (if ptr_neqb x nullptr then setChild x c xLess
     else c <~ Node.setParent nullptr ;; set_root c) ;;
    delete_Node node ;;
    get_root.

Definition remTwoRight node : M ptr :=
    parent <- node ~> Node.getParent ;;
    sibling <- parent ~> Node.getLeftChild ;;
    assert (ptr_neqb sibling nullptr) ;;
    nephew <- sibling ~> Node.getLeftChild ;;
    r <- andM (ptr_neqb nephew nullptr) (nephew ~> Node.isRed) ;;
    if r then remTwoRight_Three node else remTwoRight_Two node.

Definition remThreeLeft_Two_X node : M ptr :=
    a <- node ~> Node.getParent ;;
    assertM (andM (ptr_neqb a nullptr) (a ~> Node.isRed)) ;;
    b <- a ~> Node.getParent ;;
    assertM (andM (ptr_neqb b nullptr) (b ~> Node.isBlack)) ;;
    c <- a ~> Node.getRightChild ;;
    assertM (andM (ptr_neqb c nullptr) (c ~> Node.isBlack)) ;;
    t <- node ~> Node.getLeftChild ;; setLeftChild a t ;;
    t <- c ~> Node.getLeftChild ;; setRightChild a t ;;
    setLeftChild c a ;;
    setLeftChild b c ;;
    delete_Node node ;;
    get_root.

Definition remThreeLeft_Three_X node : M ptr :=
    a <- node ~> Node.getParent ;;
    assertM (andM (ptr_neqb a nullptr) (a ~> Node.isRed)) ;;
    b <- a ~> Node.getParent ;;
    assertM (andM (ptr_neqb b nullptr) (b ~> Node.isBlack)) ;;
    d <- a ~> Node.getRightChild ;;
    assertM (andM (ptr_neqb d nullptr) (d ~> Node.isBlack)) ;;
    c <- d ~> Node.getLeftChild ;;
    assertM (andM (ptr_neqb c nullptr) (c ~> Node.isRed)) ;;
    t <- node ~> Node.getLeftChild ;; setLeftChild a t ;;
    t <- c ~> Node.getLeftChild ;; setRightChild a t ;;
    t <- c ~> Node.getRightChild ;; setLeftChild d t ;;
    setLeftChild c a ;;
    setRightChild c d ;;
    setLeftChild b c ;;
    a <~ Node.setBlack true ;;
    delete_Node node ;;
    get_root.

Definition remThreeLeft node : M ptr :=
    a <- node ~> Node.getParent ;;
    assertM (andM (ptr_neqb a nullptr) (a ~> Node.isRed)) ;;
    d <- a ~> Node.getRightChild ;;
    assertM (andM (ptr_neqb d nullptr) (d ~> Node.isBlack)) ;;
    c <- d ~> Node.getLeftChild ;;
    r <- andM (ptr_neqb c nullptr) (c ~> Node.isRed) ;;
    if r then remThreeLeft_Three_X node else remThreeLeft_Two_X node.

Definition remThreeMiddle_Two_X node : M ptr :=
    a <- node ~> Node.getParent ;;
    assertM (andM (ptr_neqb a nullptr) (a ~> Node.isRed)) ;;
    b <- a ~> Node.getParent ;;
    assertM (andM (ptr_neqb b nullptr) (b ~> Node.isBlack)) ;;
    c <- a ~> Node.getLeftChild ;;
    assertM (andM (ptr_neqb c nullptr) (c ~> Node.isBlack)) ;;
    t <- node ~> Node.getLeftChild ;; setRightChild a t ;;
    a <~ Node.setBlack true ;;
    c <~ Node.setRed true ;;
    delete_Node node ;;
    get_root.

Definition remThreeMiddle_Three_X node : M ptr :=
    a <- node ~> Node.getParent ;;
    assertM (andM (ptr_neqb a nullptr) (a ~> Node.isRed)) ;;
    b <- a ~> Node.getParent ;;
    assertM (andM (ptr_neqb b nullptr) (b ~> Node.isBlack)) ;;
    d <- a ~> Node.getLeftChild ;;
    assertM (andM (ptr_neqb d nullptr) (d ~> Node.isBlack)) ;;
    c <- d ~> Node.getLeftChild ;;
    assertM (andM (ptr_neqb c nullptr) (c ~> Node.isRed)) ;;
    t <- d ~> Node.getRightChild ;; setLeftChild a t ;;
    t <- node ~> Node.getLeftChild ;; setRightChild a t ;;
    setRightChild d a ;;
    setLeftChild b d ;;
    a <~ Node.setBlack true ;;
    c <~ Node.setBlack true ;;
    d <~ Node.setRed true ;;
    delete_Node node ;;
    get_root.

Definition remThreeMiddle node : M ptr :=
    a <- node ~> Node.getParent ;;
    assertM (andM (ptr_neqb a nullptr) (a ~> Node.isRed)) ;;
    d <- a ~> Node.getLeftChild ;;
    assertM (andM (ptr_neqb d nullptr) (d ~> Node.isBlack)) ;;
    c <- d ~> Node.getLeftChild ;;
    r <- andM (ptr_neqb c nullptr) (c ~> Node.isRed) ;;
    if r then remThreeMiddle_Three_X node else remThreeMiddle_Two_X node.

Definition remThreeRight_X_Two node : M ptr :=
    b <- node ~> Node.getParent ;;
    assertM (andM (ptr_neqb b nullptr) (b ~> Node.isBlack)) ;;
    a <- b ~> Node.getLeftChild ;;
    assertM (andM (ptr_neqb a nullptr) (a ~> Node.isRed)) ;;
    c <- a ~> Node.getRightChild ;;
    assertM (andM (ptr_neqb c nullptr) (c ~> Node.isBlack)) ;;
    assertM (cl <- c ~> Node.getLeftChild ;;
             orM (ptr_eqb cl nullptr) (cl ~> Node.isBlack)) ;;
    x <- b ~> Node.getParent ;;
    xLess <- b ~> Node.isLessThanParent ;;
    setLeftChild b c ;;
    t <- node ~> Node.getLeftChild ;; setRightChild b t ;;
    setRightChild a b ;;
    a <~ Node.setBlack true ;;
    c <~ Node.setRed true ;;
    (if ptr_neqb x nullptr then setChild x a xLess
     else a <~ Node.setParent nullptr ;; set_root a) ;;
    delete_Node node ;;
    get_root.

Definition remThreeRight_X_Three node : M ptr :=
    b <- node ~> Node.getParent ;;
    assertM (andM (ptr_neqb b nullptr) (b ~> Node.isBlack)) ;;
    a <- b ~> Node.getLeftChild ;;
    assertM (andM (ptr_neqb a nullptr) (a ~> Node.isRed)) ;;
    d <- a ~> Node.getRightChild ;;
    assertM (andM (ptr_neqb d nullptr) (d ~> Node.isBlack)) ;;
    c <- d ~> Node.getLeftChild ;;
    assertM (andM (ptr_neqb c nullptr) (c ~> Node.isRed)) ;;
    x <- b ~> Node.getParent ;;
    xLess <- b ~> Node.isLessThanParent ;;
    t <- d ~> Node.getRightChild ;; setLeftChild b t ;;
    t <- node ~> Node.getLeftChild ;; setRightChild b t ;;
    setRightChild a c ;;
    setLeftChild d a ;;
    setRightChild d b ;;
    c <~ Node.setBlack true ;;
    (if ptr_neqb x nullptr then setChild x d xLess
     else d <~ Node.setParent nullptr ;; set_root d) ;;
    delete_Node node ;;
    get_root.

Definition remThreeRight node : M ptr :=
    b <- node ~> Node.getParent ;;
    assertM (andM (ptr_neqb b nullptr) (b ~> Node.isBlack)) ;;
    a <- b ~> Node.getLeftChild ;;
    assertM (andM (ptr_neqb a nullptr) (a ~> Node.isRed)) ;;
    f <- a ~> Node.getRightChild ;;
    assertM (andM (ptr_neqb f nullptr) (f ~> Node.isBlack)) ;;
    e <- f ~> Node.getLeftChild ;;
    r <- andM (ptr_neqb e nullptr) (e ~> Node.isRed) ;;
    if r then remThreeRight_X_Three node else remThreeRight_X_Two node.

(** [Node * rem( Node * node )] *)
Definition rem node : M ptr :=
    parent <- node ~> Node.getParent ;;
    assert (ptr_neqb parent nullptr) ;;
    pb <- parent ~> Node.isBlack ;;
    if pb then
      l <- node ~> Node.isLessThanParent ;;
      if l then remTwoLeft node
      else
        leftChild <- parent ~> Node.getLeftChild ;;
        r <- andM (ptr_neqb leftChild nullptr) (leftChild ~> Node.isRed) ;;
        if r then remThreeRight node else remTwoRight node
    else
      l <- node ~> Node.isLessThanParent ;;
      if l then remThreeLeft node else remThreeMiddle node.

(** [while( node != m_root ) node = rem( node );] *)
Fixpoint rem_loop fuel node : M unit :=
    root <- get_root ;;
    if ptr_neqb node root then
      match fuel with
      | O => fail OutOfFuel
      | S fuel => node <- rem node ;; rem_loop fuel node
      end
    else ret ().

(** The second half of [remove( Node *, Node * & )], from the comment
      "Node is a leaf participant" on: [node] has no right subtree any more. *)
Definition remove_leaf node next : M (bool * ptr) :=
    parent <- node ~> Node.getParent ;;
    left <- node ~> Node.getLeftChild ;;
    if ptr_neqb parent nullptr then
      l <- node ~> Node.isLessThanParent ;;
      next <- (if l then ret parent else getNextLargestParent parent) ;;
      b <- node ~> Node.isBlack ;;
      (if b then
         r <- andM (ptr_neqb left nullptr) (left ~> Node.isRed) ;;
         if r then
           assertM (c <- left ~> Node.getLeftChild ;; ret (ptr_eqb c nullptr)) ;;
           l <- node ~> Node.isLessThanParent ;;
           setChild parent left l ;;
           left <~ Node.setBlack true ;;
           delete_Node node
         else
           root <- get_root ;;
           assert (ptr_neqb node root) ;;
           fuel <- get_fuel ;;
           rem_loop fuel node
       else
         assert (ptr_eqb left nullptr) ;;
         parent <~ Node.setLeftChild nullptr ;;
         delete_Node node) ;;
      ret (true, next)
    else
      assertM (node ~> Node.isBlack) ;;
      r <- andM (ptr_neqb left nullptr) (left ~> Node.isRed) ;;
      when r
        (n <- get_size ;;
         assert (n =? 1)%Z ;;
         left <~ Node.setParent nullptr ;;
         left <~ Node.setBlack true) ;;
      set_root left ;;
      delete_Node node ;;
      ret (true, next).

(** [bool remove( Node * node, Node * & next )]; [next] is returned with
      the result. *)
Definition remove_node_next node : M (bool * ptr) :=
    assert (ptr_neqb node nullptr) ;;
    n <- get_size ;;
    set_size (SizeT (n - 1)) ;;
    next <- getNextLargestChild node ;;
    when (ptr_neqb next nullptr)
      (swap node next ;;
       root <- get_root ;;
       when (ptr_eqb node root) (set_root next)) ;;
    remove_leaf node next.

(** [bool remove( KeyT const & key, Node * & next )] *)
Definition remove_key_next key next : M (bool * ptr) :=
    node <- find key ;;
    if ptr_eqb node nullptr then ret (false, next)
    else remove_node_next node.

(** [bool remove( KeyT const & key )] *)
Definition remove key : M bool :=
    r <- remove_key_next key nullptr ;;
    ret (fst r).

(** [bool remove( Node * node )] *)
Definition remove_node node : M bool :=
    r <- remove_node_next node ;;
    ret (fst r).

(** ** The validator *)

(** One pass of the body of the second loop of [validate]; [false] stands
      for its [return false]. *)
Definition validate_node node : M bool :=
    parent <- node ~> Node.getParent ;;
    left <- node ~> Node.getLeftChild ;;
    right <- node ~> Node.getRightChild ;;
    lessThan <- node ~> Node.isLessThanParent ;;
    black <- node ~> Node.isBlack ;;
    ok <- (if ptr_neqb parent nullptr then
             k <- node ~> Node.getKey ;;
             pk <- parent ~> Node.getKey ;;
             if lessThan then ret (less k pk) else ret (negb (less k pk))
           else ret true) ;;
    if negb ok then ret false else
    ok <- (if negb black then
             if ptr_eqb parent nullptr then ret false else
             pb <- parent ~> Node.isBlack ;;
             if negb pb then ret false else
             if negb lessThan then ret false else
             k <- node ~> Node.getKey ;;
             pk <- parent ~> Node.getKey ;;
             ret (less k pk)
           else ret true) ;;
    if negb ok then ret false else
    ok <- (if ptr_neqb left nullptr then
             lr <- left ~> Node.isRed ;;
             if lr then
               if ptr_neqb right nullptr then
                 ll <- left ~> Node.getLeftChild ;;
                 if ptr_eqb ll nullptr then ret false else
                 lr <- left ~> Node.getRightChild ;;
                 if ptr_eqb lr nullptr then ret false else ret true
               else ret true
             else if ptr_eqb right nullptr then ret false else ret true
           else ret true) ;;
    if negb ok then ret false else
    if ptr_neqb right nullptr && ptr_eqb left nullptr then ret false
    else ret true.

(** [while( node != next ) { node = next; next = node->getPrevious(); }] *)
Fixpoint validate_first fuel node next : M ptr :=
    if ptr_neqb node next then
      match fuel with
      | O => fail OutOfFuel
      | S fuel =>
          let node := next in
          next <- getPrevious node ;;
          validate_first fuel node next
      end
    else ret node.

Fixpoint validate_loop fuel node next : M bool :=
    if ptr_neqb node next then
      match fuel with
      | O => fail OutOfFuel
      | S fuel =>
          ok <- validate_node node ;;
          if ok then
            let node := next in
            next <- getNext node ;;
            validate_loop fuel node next
          else ret false
      end
    else ret true.

(** [bool validate() const] *)
Definition validate : M bool :=
    node <- get_root ;;
    if ptr_neqb node nullptr then
      b <- node ~> Node.isBlack ;;
      if negb b then ret false else
      next <- getPrevious node ;;
      fuel <- get_fuel ;;
      node <- validate_first fuel node next ;;
      next <- getNext node ;;
      validate_loop fuel node next
    else ret true.

(** ** In-order traversal by repeated [getNext], as a caller iterates:
      start at the smallest node and stop when [getNext] returns the node
      itself. *)

Fixpoint successor_walk fuel node : M (list ptr) :=
    next <- getNext node ;;
    if ptr_neqb node next then
      match fuel with
      | O => fail OutOfFuel
      | S fuel => l <- successor_walk fuel next ;; ret (node :: l)
      end
    else ret [node].

Definition inorder_walk : M (list ptr) :=
    node <- get_root ;;
    if ptr_neqb node nullptr then
      next <- getPrevious node ;;
      fuel <- get_fuel ;;
      node <- validate_first fuel node next ;;
      successor_walk fuel node
    else ret [].

Fixpoint keys_of (l : list ptr) : M (list KeyT) :=
    match l with
    | [] => ret []
    | p :: l => k <- p ~> Node.getKey ;; ks <- keys_of l ;; ret (k :: ks)
    end.

Definition inorder_keys_walk : M (list KeyT) :=
    l <- inorder_walk ;; keys_of l.

End Tree.

(** [RedBlackTree()] *)
Definition empty_tree {KeyT : Type} : RedBlackTree KeyT := mkTree ∅ nullptr 0.

(** [RedBlackTree( std::initializer_list< KeyT > keys )]: the default
    constructor, then the loop. *)
Definition from_list {KeyT : Type} (less : KeyT → KeyT → bool) (keys : list KeyT)
  : result (unit * RedBlackTree KeyT) :=
  add_keys less keys empty_tree.


(** ** Concrete trees used by the scenario and by the counterexamples *)

Module Scenario.
Definition exec {A} (m : M Z A) (s : RedBlackTree Z) : RedBlackTree Z :=
    match m s with Ok (_, s') => s' | Err _ => s end.

Fixpoint add_all (keys : list Z) : M Z unit :=
    match keys with
    | [] => ret ()
    | key :: keys => add Z.ltb key ;; add_all keys
    end.

(** The tree after inserting 10, 20, 5, 15, 25, 3, 8, and after removing 10. *)
Definition tree7 : RedBlackTree Z := exec (add_all [10; 20; 5; 15; 25; 3; 8]%Z) empty_tree.
Definition tree6 : RedBlackTree Z := exec (remove Z.ltb 10%Z) tree7.

Definition root_is_black : M Z bool :=
    root <- get_root ;; root ~> Node.isBlack.

(** Key of the node that [remove( key, next )] leaves in [next]. *)
Definition remove_next_key (key : Z) : M Z Z :=
    r <- remove_key_next Z.ltb key nullptr ;; snd r ~> Node.getKey.

(** Key of the in-order successor of the node holding [key]. *)
Definition successor_key (key : Z) : M Z Z :=
    node <- find Z.ltb key ;; next <- getNext node ;; next ~> Node.getKey.

(** A black root 10 whose red left child 5 has both children and whose
      right child 20 is a leaf: the right child has no left child. *)
Definition lopsided : RedBlackTree Z :=
    mkTree (list_to_map
      [(1%positive, Node.mk (Some 2%positive) (Some 3%positive) nullptr 0 10%Z);
       (2%positive, Node.mk (Some 4%positive) (Some 5%positive) (Some 1%positive) 3 5%Z);
       (3%positive, Node.mk nullptr nullptr (Some 1%positive) 0 20%Z);
       (4%positive, Node.mk nullptr nullptr (Some 2%positive) 2 3%Z);
       (5%positive, Node.mk nullptr nullptr (Some 2%positive) 0 7%Z)])
      (Some 1%positive) 5.

(** A black root 10 whose red left child 5 has no children and whose
      right child 20 is a leaf. *)
Definition incomplete : RedBlackTree Z :=
    mkTree (list_to_map
      [(1%positive, Node.mk (Some 2%positive) (Some 3%positive) nullptr 0 10%Z);
       (2%positive, Node.mk nullptr nullptr (Some 1%positive) 3 5%Z);
       (3%positive, Node.mk nullptr nullptr (Some 1%positive) 0 20%Z)])
      (Some 1%positive) 3.

End Scenario.

(** Some node has a RED left child and a right child whose own left child
    is null (the situation invariant 3 of the specification forbids). *)
Definition right_child_lacks_left {KeyT} (s : RedBlackTree KeyT) : Prop :=
  ∃ p n l nl r nr,
    heap s !! p = Some n ∧
    Node.getLeftChild n = Some l ∧ heap s !! l = Some nl ∧ Node.isRed nl = true ∧
    Node.getRightChild n = Some r ∧ heap s !! r = Some nr ∧
    Node.getLeftChild nr = nullptr.

(** ** The tree a heap represents

    A [tree] is the binary tree the pointers draw, each node with its
    colour, its address and its key.  [agree h parent less t] says that the
    free store [h] stores [t] below a parent pointer [parent], every node
    with exactly the five members the tree prescribes. *)

Inductive tree (KeyT : Type) : Type :=
| E
| T (red : bool) (l : tree KeyT) (i : positive) (k : KeyT) (r : tree KeyT).
Arguments E {KeyT}.
Arguments T {KeyT}.

(** One level of the path from a hole up to the root: the hole is the left
    child ([FL]) or the right child ([FR]) of node [i]. *)
Inductive frame (KeyT : Type) : Type :=
| FL (red : bool) (i : positive) (k : KeyT) (r : tree KeyT)
| FR (red : bool) (l : tree KeyT) (i : positive) (k : KeyT).
Arguments FL {KeyT}.
Arguments FR {KeyT}.

(** The tree that [Scenario.incomplete] stores. *)
Definition incomplete_tree : tree Z :=
  T false (T true E 2%positive 5%Z E) 1%positive 10%Z (T false E 3%positive 20%Z E).

(** [m_type] of a node with the given colour and relation bit. *)
Definition ty (red less : bool) : Z :=
  Z.lor (Z.shiftl (Z.b2z red) Node.RED_INDEX) (Z.shiftl (Z.b2z less) Node.LESS_INDEX).

Section Abstract.
Context {KeyT : Type}.
Implicit Types (h : gmap positive (Node.t KeyT)) (t l r : tree KeyT).
Implicit Types (C : list (frame KeyT)) (p parent : ptr) (less : bool).

Definition root_ptr t : ptr :=
  match t with E => nullptr | T _ _ i _ _ => Some i end.

Definition is_red t : bool :=
  match t with T true _ _ _ _ => true | _ => false end.

(** In-order lists of the addresses and of the keys. *)
Fixpoint nodes t : list positive :=
  match t with
  | E => []
  | T _ l i _ r => nodes l ++ i :: nodes r
  end.

Fixpoint keys t : list KeyT :=
  match t with
  | E => []
  | T _ l _ k r => keys l ++ k :: keys r
  end.

Fixpoint height t : nat :=
  match t with
  | E => 0
  | T _ l _ _ r => S (height l `max` height r)
  end.

Fixpoint agree h parent less t : Prop :=
  match t with
  | E => True
  | T red l i k r =>
      h !! i = Some (Node.mk (root_ptr l) (root_ptr r) parent (ty red less) k) ∧
      agree h (Some i) true l ∧ agree h (Some i) false r
  end.

(** Effect on the free store of
    [if( child != nullptr ) { child->setParent( parent ); child->setLessThanParent( less ); }] *)
Definition reparent (child parent : ptr) (less : bool) h : gmap positive (Node.t KeyT) :=
  match child with
  | Some c =>
      match h !! c with
      | Some n => <[c := Node.setLessThanParent less (Node.setParent parent n)]> h
      | None => h
      end
  | None => h
  end.

(** A pointer that is null or points to a live node. *)
Definition valid_ptr h (p : ptr) : Prop :=
  match p with Some c => is_Some (h !! c) | None => True end.

(** The key stored at an address. *)
Definition key_at h (a : positive) : option KeyT := Node.m_key <$> h !! a.

(** Contexts: the frames from a hole to the root, innermost first. *)

Definition frame_id (f : frame KeyT) : positive :=
  match f with FL _ i _ _ => i | FR _ _ i _ => i end.

Fixpoint plug C t : tree KeyT :=
  match C with
  | [] => t
  | FL red i k r :: C => plug C (T red t i k r)
  | FR red l i k :: C => plug C (T red l i k t)
  end.

(** The parent pointer of the node in the hole; [parent0] is the parent
    pointer of the outermost node of the context. *)
Definition hole_parent (parent0 : ptr) C : ptr :=
  match C with [] => parent0 | f :: _ => Some (frame_id f) end.

(** The relation bit of the node in the hole; [less0] is the (unused) bit
    of the root. *)
Definition hole_side (less0 : bool) C : bool :=
  match C with [] => less0 | FL _ _ _ _ :: _ => true | FR _ _ _ _ :: _ => false end.

(** [agree_ctx h parent0 less0 C v]: [h] stores the frames of [C], the
    child slot at the hole holding the pointer [v]; the outermost node has
    parent pointer [parent0] and relation bit [less0]. *)
Fixpoint agree_ctx h (parent0 : ptr) (less0 : bool) C (v : ptr) : Prop :=
  match C with
  | [] => True
  | FL red i k r :: C =>
      h !! i = Some (Node.mk v (root_ptr r) (hole_parent parent0 C)
                       (ty red (hole_side less0 C)) k) ∧
      agree h (Some i) false r ∧ agree_ctx h parent0 less0 C (Some i)
  | FR red l i k :: C =>
      h !! i = Some (Node.mk (root_ptr l) v (hole_parent parent0 C)
                       (ty red (hole_side less0 C)) k) ∧
      agree h (Some i) true l ∧ agree_ctx h parent0 less0 C (Some i)
  end.

(** Root pointer of [plug C t] when [t] has root pointer [v]. *)
Fixpoint ctx_root C (v : ptr) : ptr :=
  match C with
  | [] => v
  | f :: C => ctx_root C (Some (frame_id f))
  end.

(** The in-order addresses and keys to the left and to the right of the
    hole. *)
Fixpoint ctx_before C : list positive :=
  match C with
  | [] => []
  | FL _ _ _ _ :: C => ctx_before C
  | FR _ l i _ :: C => ctx_before C ++ nodes l ++ [i]
  end.

Fixpoint ctx_after C : list positive :=
  match C with
  | [] => []
  | FL _ i _ r :: C => i :: nodes r ++ ctx_after C
  | FR _ _ _ _ :: C => ctx_after C
  end.

Fixpoint keys_before C : list KeyT :=
  match C with
  | [] => []
  | FL _ _ _ _ :: C => keys_before C
  | FR _ l _ k :: C => keys_before C ++ keys l ++ [k]
  end.

Fixpoint keys_after C : list KeyT :=
  match C with
  | [] => []
  | FL _ _ k r :: C => k :: keys r ++ keys_after C
  | FR _ _ _ _ :: C => keys_after C
  end.

(** ** Balance: the 2-3 tree read off the colours

    [bal t n]: [t] is empty or has a BLACK root, every RED node is the left
    child of a BLACK node and has no RED child, and every path from the
    root of [t] to a null pointer meets [n] BLACK nodes. *)
Inductive bal : tree KeyT → nat → Prop :=
| bal_E : bal E 0
| bal_two l i k r n :
    bal l n → bal r n → bal (T false l i k r) (S n)
| bal_three ll j kj lr i k r n :
    bal ll n → bal lr n → bal r n →
    bal (T false (T true ll j kj lr) i k r) (S n).

(** [bal_ctx C n m]: a hole of [C] filled with a balanced tree of black
    height [n] gives a balanced tree of black height [m]. *)
Inductive bal_ctx : list (frame KeyT) → nat → nat → Prop :=
| bal_ctx_nil n : bal_ctx [] n n
| bal_ctx_two_l i k r C n m :
    bal r n → bal_ctx C (S n) m → bal_ctx (FL false i k r :: C) n m
| bal_ctx_two_r l i k C n m :
    bal l n → bal_ctx C (S n) m → bal_ctx (FR false l i k :: C) n m
| bal_ctx_three_l j kj lr i k r C n m :
    bal lr n → bal r n → bal_ctx C (S n) m →
    bal_ctx (FL true j kj lr :: FL false i k r :: C) n m
| bal_ctx_three_m ll j kj i k r C n m :
    bal ll n → bal r n → bal_ctx C (S n) m →
    bal_ctx (FR true ll j kj :: FL false i k r :: C) n m
| bal_ctx_three_r ll j kj lr i k C n m :
    bal ll n → bal lr n → bal_ctx C (S n) m →
    bal_ctx (FR false (T true ll j kj lr) i k :: C) n m.

(** ** The tree object while a walk is under way

    [Walk s less0 C v F]: the free store of [s] stores the frames of [C],
    with [v] in the child slot at the hole, and the tree [F] whose root
    already points back to the parent of the hole. *)
Record Walk (s : RedBlackTree KeyT) (less0 : bool) (C : list (frame KeyT))
    (v : ptr) (F : tree KeyT) : Prop := {
  walk_ctx : agree_ctx (heap s) nullptr less0 C v;
  walk_sub : agree (heap s) (hole_parent nullptr C) (hole_side less0 C) F;
  walk_root : m_root s = ctx_root C (root_ptr F);
  walk_nodup : NoDup (ctx_before C ++ nodes F ++ ctx_after C);
  walk_dom : dom (heap s) = list_to_set (ctx_before C ++ nodes F ++ ctx_after C)
}.

(** ** The walk of [add], on trees

    One call of [add( Node * )]: the free node [F] above the hole of [C]
    either is attached ([true]) or a new free node travels further up
    ([false]). *)
Definition add_step (C : list (frame KeyT)) (F : tree KeyT)
  : option (list (frame KeyT) * tree KeyT * bool) :=
  match F with
  | T false Fl f kf Fr =>
      match C with
      | FL false i k r :: C => Some (C, T false (T true Fl f kf Fr) i k r, true)
      | FR false l i k :: C =>
          match l with
          | T true ll j kj lr => Some (C, T false (T false ll j kj lr) i k F, false)
          | _ => Some (C, T false (T true l i k Fl) f kf Fr, true)
          end
      | FL true j kj lr :: FL false i k r :: C =>
          Some (C, T false F j kj (T false lr i k r), false)
      | FR true ll j kj :: FL false i k r :: C =>
          Some (C, T false (T false ll j kj Fl) f kf (T false Fr i k r), false)
      | _ => None
      end
  | _ => None
  end.

(** The whole walk of [add]: from the free node [F] above the hole of [C]
    to the final tree. *)
Inductive add_walk : list (frame KeyT) → tree KeyT → tree KeyT → Prop :=
| add_walk_root F : add_walk [] F F
| add_walk_done f C F C' F' :
    add_step (f :: C) F = Some (C', F', true) →
    add_walk (f :: C) F (plug C' F')
| add_walk_more f C F C' F' t :
    add_step (f :: C) F = Some (C', F', false) →
    add_walk C' F' t → add_walk (f :: C) F t.

(** Balance of a tree cut at a hole: the subtree in the hole is balanced
    and black-rooted, or it is the RED left child of a 3-node. *)
Definition bal_zip (C : list (frame KeyT)) (t : tree KeyT) (m : nat) : Prop :=
  (∃ n, bal t n ∧ bal_ctx C n m) ∨
  (∃ ll j kj lr i k r C' n,
      t = T true ll j kj lr ∧ C = FL false i k r :: C' ∧
      bal ll n ∧ bal lr n ∧ bal r n ∧ bal_ctx C' (S n) m).

(** ** The walk of [remove]

    [RWalk s less0 C v node D]: the node [node] that is being removed hangs
    above the hole of [C], its left child is the subtree [D], which is one
    BLACK node short; the child slot at the hole holds [v], and the root of
    [D] may point back to any parent. *)
Record RWalk (s : RedBlackTree KeyT) (less0 : bool) (C : list (frame KeyT))
    (v : ptr) (node : positive) (D : tree KeyT) : Prop := {
  rwalk_ctx : agree_ctx (heap s) nullptr less0 C v;
  rwalk_node : ∃ nr c k,
    heap s !! node = Some (Node.mk (root_ptr D) nr (hole_parent nullptr C)
                             (ty c (hole_side less0 C)) k);
  rwalk_sub : ∃ parent b, agree (heap s) parent b D;
  rwalk_root : m_root s = ctx_root C (Some node);
  rwalk_nodup : NoDup (node :: ctx_before C ++ nodes D ++ ctx_after C);
  rwalk_dom :
    dom (heap s) = list_to_set (node :: ctx_before C ++ nodes D ++ ctx_after C)
}.

(** One call of [rem( Node * )]: the subtree [D] below the removed node
    and the frames around it are rearranged; the result is complete
    ([true]) or again one BLACK node short ([false]). *)
Definition rem_step (C : list (frame KeyT)) (D : tree KeyT)
  : option (list (frame KeyT) * tree KeyT * bool) :=
  match C with
  | FL false a ka R :: C =>
      match R with
      | T false (T true bl b kb br) c kc cr =>
          Some (C, T false (T false D a ka bl) b kb (T false br c kc cr), true)
      | T false sl b kb sr =>
          Some (C, T false (T true D a ka sl) b kb sr,
                match C with [] => true | _ => false end)
      | _ => None
      end
  | FR false L b kb :: C =>
      match L with
      | T true al a ka (T false (T true cl c kc cr) d kd dr) =>
          Some (C, T false (T true al a ka (T false cl c kc cr)) d kd
                     (T false dr b kb D), true)
      | T true al a ka (T false cl c kc cr) =>
          Some (C, T false al a ka (T false (T true cl c kc cr) b kb D), true)
      | T false (T true bl x kx br) c kc cr =>
          Some (C, T false (T false bl x kx br) c kc (T false cr b kb D), true)
      | T false bl x kx br =>
          Some (C, T false (T true bl x kx br) b kb D,
                match C with [] => true | _ => false end)
      | _ => None
      end
  | FL true a ka R :: FL false b kb Br :: C =>
      match R with
      | T false (T true cl c kc cr) d kd dr =>
          Some (C, T false (T true (T false D a ka cl) c kc (T false cr d kd dr))
                     b kb Br, true)
      | T false cl c kc cr =>
          Some (C, T false (T false (T true D a ka cl) c kc cr) b kb Br, true)
      | _ => None
      end
  | FR true L a ka :: FL false b kb Br :: C =>
      match L with
      | T false (T true cl c kc cr) d kd dr =>
          Some (C, T false (T true (T false cl c kc cr) d kd (T false dr a ka D))
                     b kb Br, true)
      | T false cl c kc cr =>
          Some (C, T false (T false (T true cl c kc cr) a ka D) b kb Br, true)
      | _ => None
      end
  | _ => None
  end.

(** The whole walk of [remove]. *)
Inductive rem_walk : list (frame KeyT) → tree KeyT → tree KeyT → Prop :=
| rem_walk_done C D C' D' :
    rem_step C D = Some (C', D', true) → rem_walk C D (plug C' D')
| rem_walk_more C D C' D' t :
    rem_step C D = Some (C', D', false) →
    rem_walk C' D' t → rem_walk C D t.

(** ** A tree object that stores a tree *)

Record Rep (s : RedBlackTree KeyT) (less0 : bool) (t : tree KeyT) : Prop := {
  rep_agree : agree (heap s) nullptr less0 t;
  rep_root : m_root s = root_ptr t;
  rep_nodup : NoDup (nodes t);
  rep_dom : dom (heap s) = list_to_set (nodes t);
  rep_size : m_size s = Z.of_nat (size (heap s));
  rep_bound : (Z.of_nat (size (heap s)) ≤ SIZE_MAX)%Z
}.

(** A tree object whose live nodes are exactly the nodes of a tree below
    [m_root], each with the members the tree prescribes; [m_size] may hold
    anything. *)
Record TreeShape (s : RedBlackTree KeyT) (less0 : bool) (t : tree KeyT) : Prop := {
  shape_agree : agree (heap s) nullptr less0 t;
  shape_root : m_root s = root_ptr t;
  shape_nodup : NoDup (nodes t);
  shape_dom : dom (heap s) = list_to_set (nodes t)
}.

End Abstract.

Section Ordered.
Context {KeyT : Type} (less : KeyT → KeyT → bool).

(** The comparator is a strict total order. *)
Record StrictTotal : Prop := {
  less_irrefl : ∀ a, less a a = false;
  less_trans : ∀ a b c, less a b = true → less b c = true → less a c = true;
  less_total : ∀ a b, less a b = false → less b a = false → a = b
}.

Definition bst (t : tree KeyT) : Prop :=
  StronglySorted (λ a b, less a b = true) (keys t).

(** The search path of [find]: the subtree the loop stops at and the
    frames above it. *)
Fixpoint descend (key : KeyT) (t : tree KeyT) (C : list (frame KeyT))
  : list (frame KeyT) * tree KeyT :=
  match t with
  | E => (C, E)
  | T c l i k r =>
      if less key k then descend key l (FL c i k r :: C)
      else if less k key then descend key r (FR c l i k :: C)
      else (C, t)
  end.

(** [key] lies between the keys to the left and the keys to the right of
    the hole of [C]. *)
Definition in_range (key : KeyT) (C : list (frame KeyT)) : Prop :=
  Forall (λ x, less x key = true) (keys_before C) ∧
  Forall (λ x, less key x = true) (keys_after C).

(** What the body of the second loop of [validate] answers at node [p]. *)
Definition node_ok (s : RedBlackTree KeyT) (p : positive) : bool :=
  match validate_node less (Some p) s with
  | Ok (b, _) => b
  | Err _ => false
  end.

(** A node whose RED left child lacks one of its own children, next to a
    right child: what [validate] checks where the specification states
    invariant 3. *)
Definition red_child_incomplete (s : RedBlackTree KeyT) : Prop :=
  ∃ p n l nl r,
    heap s !! p = Some n ∧
    Node.getLeftChild n = Some l ∧ heap s !! l = Some nl ∧ Node.isRed nl = true ∧
    Node.getRightChild n = Some r ∧
    (Node.getLeftChild nl = nullptr ∨ Node.getRightChild nl = nullptr).

(** ** The invariants the specification lists *)

(** Invariant 1: the root, if present, is BLACK. *)
Definition root_black (s : RedBlackTree KeyT) : Prop :=
  ∀ r, m_root s = Some r → ∃ n, heap s !! r = Some n ∧ Node.isBlack n = true.

(** Invariant 2: a RED node is the LESS_THAN_PARENT child of a BLACK
    parent. *)
Definition red_leans_left (s : RedBlackTree KeyT) : Prop :=
  ∀ p n, heap s !! p = Some n → Node.isRed n = true →
    Node.isLessThanParent n = true ∧
    ∃ q nq, Node.getParent n = Some q ∧ heap s !! q = Some nq ∧
            Node.isBlack nq = true ∧ Node.getLeftChild nq = Some p.

(** Invariant 5: the relation bit of a node with a parent agrees with the
    order of the two keys. *)
Definition relation_ordered (s : RedBlackTree KeyT) : Prop :=
  ∀ p n q nq, heap s !! p = Some n → Node.getParent n = Some q →
    heap s !! q = Some nq →
    if Node.isLessThanParent n then less (Node.getKey n) (Node.getKey nq) = true
    else less (Node.getKey nq) (Node.getKey n) = true.

(** Invariant 6: [m_size] is the number of live nodes. *)
Definition size_counts (s : RedBlackTree KeyT) : Prop :=
  m_size s = Z.of_nat (size (heap s)).

(** A node with a left child and no right child has a RED left child. *)
Definition lone_child_red (s : RedBlackTree KeyT) : Prop :=
  ∀ p n l, heap s !! p = Some n → Node.getLeftChild n = Some l →
    Node.getRightChild n = nullptr →
    ∃ nl, heap s !! l = Some nl ∧ Node.isRed nl = true.

(** Keys held by the live nodes, and their neighbours in the order. *)
Definition holds_key (s : RedBlackTree KeyT) (k : KeyT) : Prop :=
  ∃ p, key_at (heap s) p = Some k.

Definition no_key_above (s : RedBlackTree KeyT) (k : KeyT) : Prop :=
  ∀ k', holds_key s k' → less k k' = false.

Definition no_key_below (s : RedBlackTree KeyT) (k : KeyT) : Prop :=
  ∀ k', holds_key s k' → less k' k = false.

(** [kq] is the smallest key of [s] strictly greater than [k]. *)
Definition least_key_above (s : RedBlackTree KeyT) (k kq : KeyT) : Prop :=
  holds_key s kq ∧ less k kq = true ∧
  ∀ k', holds_key s k' → less k k' = true → less k' kq = false.

(** [kq] is the largest key of [s] strictly smaller than [k]. *)
Definition greatest_key_below (s : RedBlackTree KeyT) (k kq : KeyT) : Prop :=
  holds_key s kq ∧ less kq k = true ∧
  ∀ k', holds_key s k' → less k' k = true → less kq k' = false.

(** The invariant of the container: the tree object stores a balanced
    search tree. *)
Definition Inv (s : RedBlackTree KeyT) : Prop :=
  ∃ less0 t n, Rep s less0 t ∧ bal t n ∧ bst t.

(** Tree objects reachable from the empty tree through the public
    mutating members. *)
Inductive reachable : RedBlackTree KeyT → Prop :=
| reach_empty : reachable empty_tree
| reach_add s key r s' :
    reachable s → add_key_node less key s = Ok (r, s') → reachable s'
| reach_remove s key next r s' :
    reachable s → remove_key_next less key next s = Ok (r, s') → reachable s'
| reach_remove_node s node r s' :
    reachable s → is_Some (heap s !! node) →
    remove_node_next (Some node) s = Ok (r, s') → reachable s'.

(** ** Further properties of the stored tree *)

(** The pointers of a node and of its neighbours agree: a child points
    back to its parent and carries the relation bit of its side, a parent
    holds the node in the slot the relation bit names, and a node without
    parent is the root. *)
Definition links_consistent (s : RedBlackTree KeyT) : Prop :=
  ∀ p n, heap s !! p = Some n →
    (∀ c, Node.getLeftChild n = Some c →
       ∃ nc, heap s !! c = Some nc ∧ Node.getParent nc = Some p ∧
             Node.isLessThanParent nc = true) ∧
    (∀ c, Node.getRightChild n = Some c →
       ∃ nc, heap s !! c = Some nc ∧ Node.getParent nc = Some p ∧
             Node.isGreaterThanParent nc = true) ∧
    (∀ q, Node.getParent n = Some q →
       ∃ nq, heap s !! q = Some nq ∧
             Node.getChild (Node.isLessThanParent n) nq = Some p) ∧
    (Node.getParent n = nullptr → m_root s = Some p).

(** A node with a right child has a left child. *)
Definition right_needs_left (s : RedBlackTree KeyT) : Prop :=
  ∀ p n, heap s !! p = Some n →
    Node.getRightChild n ≠ nullptr → Node.getLeftChild n ≠ nullptr.

(** No two live nodes hold the same key. *)
Definition keys_distinct (s : RedBlackTree KeyT) : Prop :=
  ∀ p q k, key_at (heap s) p = Some k → key_at (heap s) q = Some k → p = q.

(** The pointer [remove( node, next )] leaves in [next] when [q] is what
    [getNext] returns at the node it starts from: the node [q], or null
    when [getNext] returned its own node. *)
Definition next_or_null (p : positive) (q : ptr) : ptr :=
  if ptr_eqb q (Some p) then nullptr else q.

(** The public mutating members return: [add] unless the free store is
    exhausted, [remove] always, [remove( Node * )] on a live node. *)
Definition mutators_return (s : RedBlackTree KeyT) : Prop :=
  (∀ key, (Z.of_nat (size (heap s)) < SIZE_MAX)%Z →
     ∃ res s', add_key_node less key s = Ok (res, s')) ∧
  (∀ key next, ∃ res s', remove_key_next less key next s = Ok (res, s')) ∧
  (∀ node, is_Some (heap s !! node) →
     ∃ res s', remove_node_next (Some node) s = Ok (res, s')).

End Ordered.


(** * Part II: lemmas *)

(** ** The type byte *)

Section NodeBits.
Context {KeyT : Type}.
Implicit Types (l r p : ptr) (k : KeyT) (c b x : bool).

Lemma isRed_mk l r p c b k : Node.isRed (Node.mk l r p (ty c b) k) = c.
Proof. by destruct c, b. Qed.
Lemma isBlack_mk l r p c b k : Node.isBlack (Node.mk l r p (ty c b) k) = negb c.
Proof. by destruct c, b. Qed.
Lemma isLess_mk l r p c b k : Node.isLessThanParent (Node.mk l r p (ty c b) k) = b.
Proof. by destruct c, b. Qed.
Lemma isGreater_mk l r p c b k :
  Node.isGreaterThanParent (Node.mk l r p (ty c b) k) = negb b.
Proof. by destruct c, b. Qed.
Lemma setRed_mk x l r p c b k :
  Node.setRed x (Node.mk l r p (ty c b) k) = Node.mk l r p (ty x b) k.
Proof. by destruct x, c, b. Qed.
Lemma setBlack_mk x l r p c b k :
  Node.setBlack x (Node.mk l r p (ty c b) k) = Node.mk l r p (ty (negb x) b) k.
Proof. by destruct x, c, b. Qed.
Lemma setLess_mk x l r p c b k :
  Node.setLessThanParent x (Node.mk l r p (ty c b) k) = Node.mk l r p (ty c x) k.
Proof. by destruct x, c, b. Qed.
Lemma setGreater_mk x l r p c b k :
  Node.setGreaterThanParent x (Node.mk l r p (ty c b) k) = Node.mk l r p (ty c (negb x)) k.
Proof. by destruct x, c, b. Qed.
Lemma setParent_mk (q : ptr) l r p (t : Z) k :
  Node.setParent q (Node.mk l r p t k) = Node.mk l r q t k.
Proof. done. Qed.
Lemma setLeftChild_mk (q : ptr) l r p (t : Z) k :
  Node.setLeftChild q (Node.mk l r p t k) = Node.mk q r p t k.
Proof. done. Qed.
Lemma setRightChild_mk (q : ptr) l r p (t : Z) k :
  Node.setRightChild q (Node.mk l r p t k) = Node.mk l q p t k.
Proof. done. Qed.
Lemma setChild_true_mk (q : ptr) l r p (t : Z) k :
  Node.setChild true q (Node.mk l r p t k) = Node.mk q r p t k.
Proof. done. Qed.
Lemma setChild_false_mk (q : ptr) l r p (t : Z) k :
  Node.setChild false q (Node.mk l r p t k) = Node.mk l q p t k.
Proof. done. Qed.
Lemma getParent_mk l r p (t : Z) k : Node.getParent (Node.mk l r p t k) = p.
Proof. done. Qed.
Lemma getLeftChild_mk l r p (t : Z) k : Node.getLeftChild (Node.mk l r p t k) = l.
Proof. done. Qed.
Lemma getRightChild_mk l r p (t : Z) k : Node.getRightChild (Node.mk l r p t k) = r.
Proof. done. Qed.
Lemma getChild_true_mk l r p (t : Z) k : Node.getChild true (Node.mk l r p t k) = l.
Proof. done. Qed.
Lemma getChild_false_mk l r p (t : Z) k : Node.getChild false (Node.mk l r p t k) = r.
Proof. done. Qed.
Lemma getKey_mk l r p (t : Z) k : Node.getKey (Node.mk l r p t k) = k.
Proof. done. Qed.
Lemma ctor_mk k : Node.ctor k = Node.mk nullptr nullptr nullptr (ty false false) k.
Proof. done. Qed.
Lemma ty_inj c b c' b' : ty c b = ty c' b' → c = c' ∧ b = b'.
Proof. by destruct c, b, c', b'. Qed.

Lemma ptr_eqb_refl p : ptr_eqb p p = true.
Proof. unfold ptr_eqb. by rewrite bool_decide_eq_true. Qed.
Lemma ptr_eqb_Some_None a : ptr_eqb (Some a) nullptr = false.
Proof. done. Qed.
Lemma ptr_eqb_None_Some a : ptr_eqb nullptr (Some a) = false.
Proof. done. Qed.
Lemma ptr_eqb_ne a a' : a ≠ a' → ptr_eqb (Some a) (Some a') = false.
Proof. intros. unfold ptr_eqb. rewrite bool_decide_eq_false. congruence. Qed.
Lemma ptr_neqb_refl p : ptr_neqb p p = false.
Proof. unfold ptr_neqb. by rewrite ptr_eqb_refl. Qed.
Lemma ptr_neqb_Some_None a : ptr_neqb (Some a) nullptr = true.
Proof. done. Qed.
Lemma ptr_neqb_None_Some a : ptr_neqb nullptr (Some a) = true.
Proof. done. Qed.
Lemma ptr_neqb_ne a a' : a ≠ a' → ptr_neqb (Some a) (Some a') = true.
Proof. intros. unfold ptr_neqb. by rewrite ptr_eqb_ne. Qed.
End NodeBits.

Global Opaque ty.
Global Arguments Node.isRed : simpl never.
Global Arguments Node.isBlack : simpl never.
Global Arguments Node.isLessThanParent : simpl never.
Global Arguments Node.isGreaterThanParent : simpl never.
Global Arguments Node.setRed : simpl never.
Global Arguments Node.setBlack : simpl never.
Global Arguments Node.setLessThanParent : simpl never.
Global Arguments Node.setGreaterThanParent : simpl never.
Global Arguments ptr_eqb : simpl never.
Global Arguments ptr_neqb : simpl never.

Create HintDb node discriminated.
#[global] Hint Rewrite @setParent_mk @setLeftChild_mk @setRightChild_mk
  @setChild_true_mk @setChild_false_mk @getParent_mk @getLeftChild_mk
  @getRightChild_mk @getChild_true_mk @getChild_false_mk @getKey_mk : node.
#[global] Hint Rewrite @isRed_mk @isBlack_mk @isLess_mk @isGreater_mk
  @setRed_mk @setBlack_mk @setLess_mk @setGreater_mk
  @ptr_eqb_refl @ptr_neqb_refl @ptr_eqb_Some_None @ptr_eqb_None_Some
  @ptr_neqb_Some_None @ptr_neqb_None_Some @ctor_mk : node.

(** Normal form of node records and of pointer tests. *)
Ltac norm :=
  autorewrite with node;
  cbn [Node.m_children0 Node.m_children1 Node.m_parent Node.m_type Node.m_key
       heap m_root m_size negb andb orb fst snd];
  rewrite ?insert_insert_eq.

(** ** Running a computation *)

Section Exec.
Context {KeyT : Type}.
Implicit Types (h : gmap positive (Node.t KeyT)) (root p : ptr) (z : Z).

Lemma bind_Ok {A B} (m : M KeyT A) (f : A → M KeyT B) s x s1 R :
  m s = Ok (x, s1) → f x s1 = R → bind m f s = R.
Proof. unfold bind. by intros -> ->. Qed.

Lemma call_Ok {A} (f : Node.t KeyT → A) a h root z n :
  h !! a = Some n → call (Some a) f (mkTree h root z) = Ok (f n, mkTree h root z).
Proof. unfold call. simpl. by intros ->. Qed.

Lemma call_mut_Ok (f : Node.t KeyT → Node.t KeyT) a h root z n :
  h !! a = Some n →
  call_mut (Some a) f (mkTree h root z) = Ok ((), mkTree (<[a := f n]> h) root z).
Proof. unfold call_mut. simpl. by intros ->. Qed.

Lemma new_Node_Ok key h root z :
  (Z.of_nat (size h) < SIZE_MAX)%Z →
  new_Node key (mkTree h root z)
  = Ok (Some (fresh (dom h)),
        mkTree (<[fresh (dom h) := Node.ctor key]> h) root z).
Proof. intros H. unfold new_Node. cbn [heap]. by rewrite bool_decide_eq_true_2. Qed.

Lemma new_Node_full key h root z :
  ¬ (Z.of_nat (size h) < SIZE_MAX)%Z → new_Node key (mkTree h root z) = Err BadAlloc.
Proof. intros H. unfold new_Node. cbn [heap]. by rewrite bool_decide_eq_false_2. Qed.

Lemma delete_Ok a h root z n :
  h !! a = Some n →
  delete_Node (Some a) (mkTree h root z) = Ok ((), mkTree (delete a h) root z).
Proof. unfold delete_Node. simpl. by intros ->. Qed.

Lemma reparent_Ok child parent b h root z :
  valid_ptr h child →
  when (ptr_neqb child nullptr)
    (child <~ Node.setParent parent ;; child <~ Node.setLessThanParent b)
    (mkTree h root z)
  = Ok ((), mkTree (reparent child parent b h) root z).
Proof.
  destruct child as [c|]; simpl; [|done].
  intros [n Hn]. unfold bind, call_mut. simpl. rewrite Hn. simpl.
  rewrite lookup_insert_eq, insert_insert_eq. done.
Qed.

Lemma reparent_greater_Ok child parent h root z :
  valid_ptr h child →
  when (ptr_neqb child nullptr)
    (child <~ Node.setParent parent ;; child <~ Node.setGreaterThanParent true)
    (mkTree h root z)
  = Ok ((), mkTree (reparent child parent false h) root z).
Proof. apply reparent_Ok. Qed.

Lemma reparent_Some c parent b h n :
  h !! c = Some n →
  reparent (Some c) parent b h
  = <[c := Node.setLessThanParent b (Node.setParent parent n)]> h.
Proof. unfold reparent. by intros ->. Qed.

Lemma reparent_None parent b h : reparent nullptr parent b h = h.
Proof. done. Qed.

Lemma lookup_reparent_ne child parent b h a :
  child ≠ Some a → reparent child parent b h !! a = h !! a.
Proof.
  destruct child as [c|]; [|done]. intros Hne. unfold reparent.
  destruct (h !! c); [|done]. rewrite lookup_insert_ne; [done|congruence].
Qed.

Lemma dom_reparent child parent b h : dom (reparent child parent b h) = dom h.
Proof.
  destruct child as [c|]; [|done]. unfold reparent.
  destruct (h !! c) eqn:Hc; [|done].
  apply dom_insert_lookup_L. eauto.
Qed.

Lemma valid_ptr_insert h p a n : valid_ptr h p → valid_ptr (<[a := n]> h) p.
Proof.
  destruct p as [c|]; [|done]. simpl. intros [m Hm].
  destruct (decide (a = c)) as [->|]; [rewrite lookup_insert_eq|rewrite lookup_insert_ne by done]; eauto.
Qed.

Lemma valid_ptr_reparent h p child parent b :
  valid_ptr h p → valid_ptr (reparent child parent b h) p.
Proof.
  destruct child as [c|]; [|done]. unfold reparent.
  destruct (h !! c); [|done]. apply valid_ptr_insert.
Qed.

Lemma valid_ptr_Some h a n : h !! a = Some n → valid_ptr h (Some a).
Proof. simpl. eauto. Qed.

End Exec.

(** ** Distinct addresses

    The in-order list of a tree has no duplicates.  A list expression is
    cut into atoms (single addresses and the node lists of subtrees); two
    atoms at different positions are disjoint. *)

Section Atoms.
Implicit Types (L : list (list positive)) (A B : list positive).

Lemma atoms_disj L i j A B :
  NoDup (concat L) → L !! i = Some A → L !! j = Some B → i ≠ j →
  ∀ z, z ∈ A → z ∉ B.
Proof.
  revert i j. induction L as [|X L IH]; intros i j Hnd Hi Hj Hne z HA HB; [done|].
  simpl in Hnd. apply NoDup_app in Hnd as (HX & Hdis & HL).
  destruct i as [|i], j as [|j]; simpl in *; simplify_eq.
  - apply (Hdis z HA). apply list_elem_of_lookup_2 in Hj.
    apply list_elem_of_In, in_concat. exists B.
    split; by apply list_elem_of_In.
  - apply (Hdis z HB). apply list_elem_of_lookup_2 in Hi.
    apply list_elem_of_In, in_concat. exists A.
    split; by apply list_elem_of_In.
  - eapply (IH i j); eauto.
Qed.

Lemma atoms_ne L i j x y :
  NoDup (concat L) → L !! i = Some [x] → L !! j = Some [y] → i ≠ j → x ≠ y.
Proof.
  intros Hnd Hi Hj Hne ->.
  apply (atoms_disj L i j [y] [y] Hnd Hi Hj Hne y); apply list_elem_of_here.
Qed.

Lemma atoms_notin L i j x B :
  NoDup (concat L) → L !! i = Some [x] → L !! j = Some B → i ≠ j → x ∉ B.
Proof.
  intros Hnd Hi Hj Hne.
  apply (atoms_disj L i j [x] B Hnd Hi Hj Hne x), list_elem_of_here.
Qed.

Lemma atoms_disjoint L i j A B :
  NoDup (concat L) → L !! i = Some A → L !! j = Some B → i ≠ j → A ## B.
Proof.
  intros Hnd Hi Hj Hne z HA HB. by apply (atoms_disj L i j A B Hnd Hi Hj Hne z).
Qed.

Lemma atoms_nodup L i A : NoDup (concat L) → L !! i = Some A → NoDup A.
Proof.
  revert i. induction L as [|X L IH]; intros i Hnd Hi; [done|].
  simpl in Hnd. apply NoDup_app in Hnd as (HX & Hdis & HL).
  destruct i; simpl in *; simplify_eq; eauto.
Qed.
End Atoms.

(** [flat e acc]: the atoms of the list expression [e], followed by [acc]. *)
Ltac flat e acc :=
  lazymatch e with
  | ?a ++ ?b => let acc' := flat b acc in flat a acc'
  | ?x :: ?l => let acc' := flat l acc in constr:([x] :: acc')
  | [] => acc
  | ?l => constr:(l :: acc)
  end.

Ltac list_norm := repeat (rewrite <- ?app_assoc, ?app_nil_r; simpl).

(** Turn [H : NoDup e] into [H : NoDup (concat atoms)]. *)
Ltac atomize H :=
  lazymatch type of H with
  | NoDup ?e =>
      let L := flat e (@nil (list positive)) in
      let H' := fresh "Hat" in
      assert (H' : NoDup (concat L))
        by (revert H; simpl; list_norm; exact (λ x, x));
      clear H
  end.

Ltac index_of a L :=
  lazymatch L with
  | a :: _ => constr:(O)
  | _ :: ?L' => let n := index_of a L' in constr:(S n)
  end.

(** Distinctness side conditions, from the atomized hypothesis. *)
Ltac sets :=
  lazymatch goal with
  | H : NoDup (concat ?L) |- ?x ≠ ?y =>
      let i := index_of ([x]) L in
      let j := index_of ([y]) L in
      exact (atoms_ne L i j x y H eq_refl eq_refl ltac:(discriminate))
  | H : NoDup (concat ?L) |- ?x ∉ ?B =>
      let i := index_of ([x]) L in
      let j := index_of B L in
      exact (atoms_notin L i j x B H eq_refl eq_refl ltac:(discriminate))
  | H : NoDup (concat ?L) |- ?A ## ?B =>
      let i := index_of A L in
      let j := index_of B L in
      exact (atoms_disjoint L i j A B H eq_refl eq_refl ltac:(discriminate))
  | H : NoDup (concat ?L) |- NoDup ?A =>
      let i := index_of A L in
      exact (atoms_nodup L i A H eq_refl)
  end.

(** ** Frame lemmas for [agree] and [agree_ctx] *)

Section Agree.
Context {KeyT : Type}.
Implicit Types (h : gmap positive (Node.t KeyT)) (t l r D : tree KeyT).
Implicit Types (C : list (frame KeyT)) (p parent child v : ptr) (b : bool).

Lemma root_in_nodes t i : root_ptr t = Some i → i ∈ nodes t.
Proof. destruct t; simpl; [done|]. intros [= ->]. set_solver. Qed.

Lemma root_ptr_ne t a : a ∉ nodes t → root_ptr t ≠ Some a.
Proof. intros Hn Hr. by apply Hn, root_in_nodes. Qed.

Lemma agree_valid h parent b t : agree h parent b t → valid_ptr h (root_ptr t).
Proof. destruct t; simpl; [done|]. intros (-> & _). eauto. Qed.

Lemma agree_ext h h' parent b t :
  (∀ i, i ∈ nodes t → h' !! i = h !! i) → agree h parent b t → agree h' parent b t.
Proof.
  revert parent b. induction t as [|c l IHl i k r IHr]; simpl; [done|].
  intros parent b Hext (Hi & Hl & Hr). split_and!.
  - rewrite Hext; [done|set_solver].
  - apply IHl; [|done]. intros; apply Hext. set_solver.
  - apply IHr; [|done]. intros; apply Hext. set_solver.
Qed.

Lemma agree_insert_ne h parent b t a n :
  a ∉ nodes t → agree h parent b t → agree (<[a := n]> h) parent b t.
Proof.
  intros Ha. apply agree_ext. intros i Hi.
  rewrite lookup_insert_ne; [done|]. intros ->. done.
Qed.

Lemma agree_delete_ne h parent b t a :
  a ∉ nodes t → agree h parent b t → agree (delete a h) parent b t.
Proof.
  intros Ha. apply agree_ext. intros i Hi.
  rewrite lookup_delete_ne; [done|]. intros ->. done.
Qed.

Lemma agree_reparent_ne h parent b t D parent' b' :
  nodes D ## nodes t →
  agree h parent b t → agree (reparent (root_ptr D) parent' b' h) parent b t.
Proof.
  intros Hd. apply agree_ext. intros i Hi.
  apply lookup_reparent_ne. intros Hc%root_in_nodes. by eapply Hd.
Qed.

Lemma agree_reparent_eq h parent b t parent' b' :
  NoDup (nodes t) → agree h parent b t →
  agree (reparent (root_ptr t) parent' b' h) parent' b' t.
Proof.
  destruct t as [|c l i k r]; simpl; [done|].
  intros Hnd (Hi & Hl & Hr). unfold reparent. rewrite Hi.
  rewrite lookup_insert_eq. norm.
  apply NoDup_app in Hnd as (_ & Hd & [Hir _]%NoDup_cons).
  split_and!; [done|..]; apply agree_insert_ne; try done.
  intros Hil. apply (Hd i Hil). left.
Qed.

Lemma lookup_reparent_tree h D parent b a :
  a ∉ nodes D → reparent (root_ptr D) parent b h !! a = h !! a.
Proof. intros Ha. apply lookup_reparent_ne. by apply root_ptr_ne. Qed.

(** [if( node1 != nullptr ) node1->setParent( ... )] on the root of a
    subtree. *)
Lemma root_setParent_Ok h root z (p p' : ptr) b t :
  agree h p b t →
  when (ptr_neqb (root_ptr t) nullptr) (root_ptr t <~ Node.setParent p') (mkTree h root z)
  = Ok ((), mkTree (reparent (root_ptr t) p' b h) root z).
Proof.
  destruct t as [|c l i k r]; simpl; [done|]. intros (Hi & _).
  unfold when, call_mut, reparent. simpl. rewrite Hi. by norm.
Qed.

Lemma root_red_Ok h parent b t root z :
  agree h parent b t →
  andM (ptr_neqb (root_ptr t) nullptr) (root_ptr t ~> Node.isRed) (mkTree h root z)
  = Ok (is_red t, mkTree h root z).
Proof.
  destruct t as [|c l i k r]; simpl; [done|]. intros (Hi & _).
  unfold call. simpl. rewrite Hi. norm. by destruct c.
Qed.

Lemma root_black_Ok h parent b t root z :
  agree h parent b t →
  orM (ptr_eqb (root_ptr t) nullptr) (root_ptr t ~> Node.isBlack) (mkTree h root z)
  = Ok (negb (is_red t), mkTree h root z).
Proof.
  destruct t as [|c l i k r]; simpl; [done|]. intros (Hi & _).
  unfold call. simpl. rewrite Hi. norm. by destruct c.
Qed.

(** Contexts *)

Lemma agree_ctx_ext h h' p0 b0 C v :
  (∀ i, i ∈ ctx_before C ++ ctx_after C → h' !! i = h !! i) →
  agree_ctx h p0 b0 C v → agree_ctx h' p0 b0 C v.
Proof.
  revert v. induction C as [|[c i k r|c l i k] C IH]; simpl; [done|..];
    intros v Hext (Hi & Hs & HC); split_and!.
  - rewrite Hext; [done|set_solver].
  - eapply agree_ext; [|done]. intros; apply Hext; set_solver.
  - apply IH; [|done]. intros; apply Hext; set_solver.
  - rewrite Hext; [done|set_solver].
  - eapply agree_ext; [|done]. intros; apply Hext; set_solver.
  - apply IH; [|done]. intros; apply Hext; set_solver.
Qed.

Lemma agree_ctx_insert_ne h p0 b0 C v a n :
  a ∉ ctx_before C → a ∉ ctx_after C →
  agree_ctx h p0 b0 C v → agree_ctx (<[a := n]> h) p0 b0 C v.
Proof.
  intros Ha Hb. apply agree_ctx_ext. intros i [Hi|Hi]%elem_of_app;
    (rewrite lookup_insert_ne; [done|]); by intros ->.
Qed.

Lemma agree_ctx_delete_ne h p0 b0 C v a :
  a ∉ ctx_before C → a ∉ ctx_after C →
  agree_ctx h p0 b0 C v → agree_ctx (delete a h) p0 b0 C v.
Proof.
  intros Ha Hb. apply agree_ctx_ext. intros i [Hi|Hi]%elem_of_app;
    (rewrite lookup_delete_ne; [done|]); by intros ->.
Qed.

Lemma agree_ctx_reparent_ne h p0 b0 C v D parent' b' :
  nodes D ## ctx_before C → nodes D ## ctx_after C →
  agree_ctx h p0 b0 C v → agree_ctx (reparent (root_ptr D) parent' b' h) p0 b0 C v.
Proof.
  intros Ha Hb. apply agree_ctx_ext. intros i [Hi|Hi]%elem_of_app;
    apply lookup_reparent_ne; intros Hc%root_in_nodes.
  - by eapply Ha.
  - by eapply Hb.
Qed.

End Agree.

(** ** Tactics for running the pointer code on a symbolic free store *)

Ltac lk :=
  repeat first
    [ apply lookup_insert_eq
    | rewrite lookup_insert_ne by sets
    | rewrite lookup_reparent_tree by sets
    | rewrite lookup_delete_ne by sets ];
  first [ eassumption | reflexivity ].

Ltac vp :=
  repeat first [ apply valid_ptr_insert | apply valid_ptr_reparent ];
  lazymatch goal with
  | |- valid_ptr _ nullptr => exact I
  | |- valid_ptr _ (Some _) => eapply valid_ptr_Some; lk
  | |- valid_ptr _ (root_ptr _) => eapply agree_valid; eassumption
  end.

Ltac prim :=
  lazymatch goal with
  | |- ret _ _ = _ => reflexivity
  | |- get_root _ = _ => reflexivity
  | |- set_root _ _ = _ => reflexivity
  | |- get_size _ = _ => reflexivity
  | |- set_size _ _ = _ => reflexivity
  | |- get_fuel _ = _ => reflexivity
  | |- assert true _ = _ => reflexivity
  | |- call (Some _) _ (mkTree _ _ _) = _ => apply call_Ok; lk
  | |- call_mut (Some _) _ (mkTree _ _ _) = _ => apply call_mut_Ok; lk
  | |- delete_Node (Some _) (mkTree _ _ _) = _ => eapply delete_Ok; lk
  | |- when (ptr_neqb _ nullptr) (_ <~ Node.setParent _ ;; _ <~ Node.setLessThanParent _) _ = _ =>
      apply reparent_Ok; vp
  | |- when (ptr_neqb _ nullptr) (_ <~ Node.setParent _ ;; _ <~ Node.setGreaterThanParent true) _ = _ =>
      apply reparent_greater_Ok; vp
  | |- when (ptr_neqb (root_ptr ?t) nullptr) (root_ptr ?t <~ Node.setParent _) _ = _ =>
      eapply root_setParent_Ok; eassumption
  | |- andM (ptr_neqb (root_ptr ?t) nullptr) (root_ptr ?t ~> Node.isRed) _ = _ =>
      eapply root_red_Ok; eassumption
  | |- orM (ptr_eqb (root_ptr ?t) nullptr) (root_ptr ?t ~> Node.isBlack) _ = _ =>
      eapply root_black_Ok; eassumption
  | |- when true _ _ = _ => unfold when; prim
  | |- when false _ _ = _ => reflexivity
  | |- andM true _ _ = _ => unfold andM; prim
  | |- andM false _ _ = _ => reflexivity
  | |- orM false _ _ = _ => unfold orM; prim
  | |- orM true _ _ = _ => reflexivity
  | |- assertM _ _ = _ =>
      unfold assertM; eapply bind_Ok; [prim | cbv beta; norm; reflexivity]
  | |- getNextLargestParent _ _ = _ => eassumption
  | |- setLeftChild _ _ _ = _ => unfold setLeftChild; norm; prim
  | |- setRightChild _ _ _ = _ => unfold setRightChild; norm; prim
  | |- setChild _ _ _ _ = _ => unfold setChild; norm; prim
  | |- bind _ _ _ = _ => eapply bind_Ok; [prim | cbv beta; norm; prim]
  | |- (if true then _ else _) _ = _ => cbv iota; prim
  | |- (if false then _ else _) _ = _ => cbv iota; prim
  end.

Ltac step :=
  lazymatch goal with
  | |- bind _ _ _ = _ => eapply bind_Ok; [solve [prim] | cbv beta; norm]
  end.
Ltac exec := norm; repeat step; try solve [prim].

Ltac break_hyps :=
  repeat match goal with
         | H : _ ∧ _ |- _ => destruct H
         | H : ∃ _, _ |- _ => destruct H
         end.

(** Goals after a step: the unchanged subtrees, the node lists and the
    domain of the free store. *)
Ltac peel :=
  repeat first
    [ eapply agree_reparent_eq; [sets|]
    | apply agree_insert_ne; [sets|]
    | apply agree_reparent_ne; [sets|]
    | apply agree_delete_ne; [sets|] ];
  eassumption.

Ltac peel_ctx :=
  repeat first
    [ apply agree_ctx_insert_ne; [sets|sets|]
    | apply agree_ctx_reparent_ne; [sets|sets|]
    | apply agree_ctx_delete_ne; [sets|sets|] ];
  try eassumption.

Ltac same_list := simpl; list_norm; reflexivity.

Ltac nodup_from H :=
  revert H; simpl; list_norm; exact (λ x, x).

Ltac dom_norm :=
  repeat first
    [ rewrite dom_reparent
    | rewrite dom_insert_lookup_L by (eexists; lk) ].

(** The five fields of [Walk] after a step; [Hnd] is the node list before
    the step and [Hdom] the domain before the step. *)
Ltac walk_post Hnd Hdom :=
  split; simpl;
  [ try done; split_and?; first [lk | peel | peel_ctx]
  | split_and?; first [lk | peel]
  | try done
  | nodup_from Hnd
  | dom_norm; rewrite Hdom; f_equal; same_list ].

(** Steps of [remove]: the removed node is deleted from the free store. *)
Lemma list_to_set_cons_delete (a : positive) (l : list positive) :
  NoDup (a :: l) → (list_to_set (a :: l) : gset positive) ∖ {[a]} = list_to_set l.
Proof.
  intros [Ha _]%NoDup_cons. rewrite list_to_set_cons.
  apply set_eq. intros x. rewrite elem_of_difference, elem_of_union,
    elem_of_singleton, !elem_of_list_to_set.
  split; [tauto|]. intros Hx. split; [tauto|]. by intros ->.
Qed.

Lemma list_to_set_union_delete (a : positive) (l : list positive) :
  NoDup (a :: l) → ({[a]} ∪ list_to_set l : gset positive) ∖ {[a]} = list_to_set l.
Proof. apply list_to_set_cons_delete. Qed.

Ltac dom_norm_del :=
  repeat first
    [ rewrite dom_delete_L
    | rewrite dom_reparent
    | rewrite dom_insert_lookup_L by (eexists; lk) ].

(** The parent of the hole of a context that is kept closed. *)
Ltac rewrite_hole :=
  repeat match goal with
         | H : hole_parent _ _ = Some _ |- _ => rewrite H
         end.

(** [Walk] after a step that deletes the removed node; [Hnd] and [Hdom]
    describe the free store with the removed node at the head. *)
Ltac walk_post_del Hnd Hdom :=
  split; simpl; rewrite_hole;
  [ try done; split_and?; first [exact I | lk | peel | peel_ctx]
  | split_and?; first [exact I | lk | peel]
  | try done
  | let H := fresh in
    pose proof Hnd as H; apply NoDup_cons in H as [_ H]; nodup_from H
  | dom_norm_del; rewrite Hdom;
    first [ rewrite list_to_set_cons_delete by exact Hnd
          | rewrite list_to_set_union_delete by exact Hnd ];
    f_equal; same_list ].

(** [RWalk] after a step that passes the deficit upwards. *)
Ltac rwalk_post Hnd Hdom :=
  split; simpl; rewrite_hole;
  [ try done; split_and?; first [lk | peel | peel_ctx]
  | do 3 eexists; lk
  | do 2 eexists; cbn [agree]; split_and?; first [lk | peel]
  | try done
  | nodup_from Hnd
  | dom_norm; rewrite Hdom; f_equal; same_list ].


(** ** Trees and contexts *)

Section Zipper.
Context {KeyT : Type}.
Implicit Types (h : gmap positive (Node.t KeyT)) (t l r F : tree KeyT).
Implicit Types (C : list (frame KeyT)) (s : RedBlackTree KeyT) (v : ptr).

Lemma nodes_plug C t : nodes (plug C t) = ctx_before C ++ nodes t ++ ctx_after C.
Proof.
  revert t. induction C as [|[c i k r|c l i k] C IH]; intros t; simpl.
  - by rewrite app_nil_r.
  - rewrite IH. same_list.
  - rewrite IH. same_list.
Qed.

Lemma keys_plug C t : keys (plug C t) = keys_before C ++ keys t ++ keys_after C.
Proof.
  revert t. induction C as [|[c i k r|c l i k] C IH]; intros t; simpl.
  - by rewrite app_nil_r.
  - rewrite IH. same_list.
  - rewrite IH. same_list.
Qed.

Lemma root_ptr_plug C t : root_ptr (plug C t) = ctx_root C (root_ptr t).
Proof. revert t. induction C as [|[c i k r|c l i k] C IH]; intros t; simpl; by rewrite ?IH. Qed.

Lemma ctx_root_indep f C v v' : ctx_root (f :: C) v = ctx_root (f :: C) v'.
Proof. done. Qed.

Lemma ctx_root_elem f C v :
  ∃ i, ctx_root (f :: C) v = Some i ∧ (i ∈ ctx_before (f :: C) ∨ i ∈ ctx_after (f :: C)).
Proof.
  revert f v. induction C as [|g C IH]; intros f v.
  - exists (frame_id f). split; [done|]. destruct f; simpl; set_solver.
  - destruct (IH g (Some (frame_id f))) as (i & Hi & Hin). exists i. split; [done|].
    destruct f; simpl in *; set_solver.
Qed.

Lemma ctx_root_ne f C v a :
  a ∉ ctx_before (f :: C) → a ∉ ctx_after (f :: C) → ctx_root (f :: C) v ≠ Some a.
Proof.
  intros Hb Ha. destruct (ctx_root_elem f C v) as (i & -> & Hi).
  intros [= ->]. tauto.
Qed.

Lemma length_ctx C : length C ≤ length (ctx_before C ++ ctx_after C).
Proof.
  induction C as [|[c i k r|c l i k] C IH]; simpl; [done|..];
    rewrite ?length_app in *; simpl; rewrite ?length_app; simpl; lia.
Qed.

Lemma walk_root_ne s less0 f C v F :
  Walk s less0 (f :: C) v F → ptr_neqb (root_ptr F) (m_root s) = true.
Proof.
  intros [_ _ Hr Hnd _]. rewrite Hr.
  destruct (ctx_root_elem f C (root_ptr F)) as (x & -> & Hx).
  destruct (root_ptr F) as [i|] eqn:HF; [|done].
  apply root_in_nodes in HF. apply ptr_neqb_ne. intros ->.
  apply NoDup_app in Hnd as (_ & Hd1 & Hnd).
  apply NoDup_app in Hnd as (_ & Hd2 & _).
  destruct Hx as [Hx|Hx]; [eapply Hd1|eapply Hd2]; eauto.
  apply elem_of_app. by left.
Qed.

(** Moving one frame between the context and the tree. *)

Lemma walk_FL s less0 c l i k r C :
  Walk s less0 (FL c i k r :: C) (root_ptr l) l ↔
  Walk s less0 C (Some i) (T c l i k r).
Proof.
  split; intros [Hctx Hsub Hroot Hnd Hdom]; simpl in *; break_hyps; split; simpl;
    try done.
  - nodup_from Hnd.
  - rewrite Hdom. f_equal. same_list.
  - nodup_from Hnd.
  - rewrite Hdom. f_equal. same_list.
Qed.

Lemma walk_FR s less0 c l i k r C :
  Walk s less0 (FR c l i k :: C) (root_ptr r) r ↔
  Walk s less0 C (Some i) (T c l i k r).
Proof.
  split; intros [Hctx Hsub Hroot Hnd Hdom]; simpl in *; break_hyps; split; simpl;
    try done.
  - nodup_from Hnd.
  - rewrite Hdom. f_equal. same_list.
  - nodup_from Hnd.
  - rewrite Hdom. f_equal. same_list.
Qed.

Lemma walk_plug s less0 C F :
  Walk s less0 C (root_ptr F) F ↔ Walk s less0 [] (root_ptr (plug C F)) (plug C F).
Proof.
  revert F. induction C as [|[c i k r|c l i k] C IH]; intros F; simpl; [done|..].
  - rewrite walk_FL. apply (IH (T c F i k r)).
  - rewrite walk_FR. apply (IH (T c l i k F)).
Qed.

Lemma walk_nil_any s less0 v v' F : Walk s less0 [] v F → Walk s less0 [] v' F.
Proof. intros [? ? ? ? ?]. by split. Qed.

Lemma Rep_Walk s less0 t :
  Rep s less0 t ↔
  Walk s less0 [] (root_ptr t) t ∧ m_size s = Z.of_nat (size (heap s)) ∧
  (Z.of_nat (size (heap s)) ≤ SIZE_MAX)%Z.
Proof.
  split.
  - intros [Ha Hr Hn Hd Hs Hb]. split_and!; [|done..]. split; simpl; try done.
    + by rewrite app_nil_r.
    + by rewrite app_nil_r.
  - intros ([Hc Ha Hr Hn Hd] & Hs & Hb). simpl in *. rewrite app_nil_r in *.
    by split.
Qed.

Lemma Rep_TreeShape s less0 t : Rep s less0 t → TreeShape s less0 t.
Proof. intros [? ? ? ? _ _]. by split. Qed.

Lemma TreeShape_Walk s less0 t :
  TreeShape s less0 t ↔ Walk s less0 [] (root_ptr t) t.
Proof.
  split.
  - intros [Ha Hr Hn Hd]. split; simpl; try done; by rewrite app_nil_r.
  - intros [Hc Ha Hr Hn Hd]. simpl in *. rewrite app_nil_r in *. by split.
Qed.

(** A fresh node above a null hole. *)
Lemma walk_alloc h root z z' less0 f C a key :
  Walk (mkTree h root z) less0 (f :: C) nullptr E → a ∉ dom h →
  Walk (mkTree (<[a := Node.mk nullptr nullptr (Some (frame_id f))
                          (ty false (hole_side less0 (f :: C))) key]> h) root z')
    less0 (f :: C) nullptr (T false E a key E).
Proof.
  intros [Hctx Hsub Hroot Hnd Hdom] Ha. simpl in Hroot, Hnd, Hdom.
  rewrite Hdom, elem_of_list_to_set, elem_of_app in Ha.
  split.
  - apply agree_ctx_insert_ne; [tauto..|done].
  - cbn [agree nodes root_ptr hole_parent heap]. by rewrite lookup_insert_eq.
  - done.
  - cbn [nodes]. simpl. apply NoDup_app in Hnd as (H1 & H2 & H3).
    apply NoDup_app. split_and!; [done| |].
    + intros x Hx [->|Hx']%elem_of_cons; [tauto|by eapply H2].
    + apply NoDup_cons. split; [tauto|done].
  - cbn [nodes heap]. simpl. rewrite dom_insert_L, Hdom.
    rewrite !list_to_set_app_L, list_to_set_cons. set_solver.
Qed.

(** Sizes *)

Lemma length_nodes_keys t : length (nodes t) = length (keys t).
Proof. induction t; simpl; [done|]. rewrite !length_app. simpl. lia. Qed.

Lemma length_ctx_before C : length (ctx_before C) = length (keys_before C).
Proof.
  induction C as [|[c i k r|c l i k] C IH]; simpl; [done..|].
  rewrite !length_app, length_nodes_keys. simpl. lia.
Qed.

Lemma height_nodes t : height t ≤ length (nodes t).
Proof. induction t; simpl; [done|]. rewrite length_app. simpl. lia. Qed.

Lemma size_heap_nodes h (l : list positive) :
  NoDup l → dom h = list_to_set l → size h = length l.
Proof. intros Hnd Hd. by rewrite <- size_dom, Hd, size_list_to_set. Qed.

Lemma shape_size_nodes s less0 t :
  TreeShape s less0 t → size (heap s) = length (nodes t).
Proof. intros [_ _ Hn Hd]. by apply size_heap_nodes. Qed.

Lemma rep_size_nodes s less0 t : Rep s less0 t → size (heap s) = length (nodes t).
Proof. intros [_ _ Hn Hd _ _]. by apply size_heap_nodes. Qed.

(** Keys along the in-order list *)

Lemma agree_keys h parent b t :
  agree h parent b t →
  Forall2 (λ p k, key_at h p = Some k) (nodes t) (keys t).
Proof.
  revert parent b. induction t as [|c l IHl i k r IHr]; intros parent b; simpl.
  - constructor.
  - intros (Hi & Hl & Hr). apply Forall2_app; [by eapply IHl|].
    constructor; [|by eapply IHr]. unfold key_at. by rewrite Hi.
Qed.

Lemma agree_lookup h parent b t a :
  agree h parent b t → a ∈ nodes t → ∃ k, key_at h a = Some k ∧ k ∈ keys t.
Proof.
  intros Ha Hin. apply agree_keys in Ha.
  apply list_elem_of_lookup in Hin as (n & Hn).
  destruct (Forall2_lookup_l _ _ _ _ _ Ha Hn) as (k & Hk & Hp).
  exists k. split; [done|]. by eapply list_elem_of_lookup_2.
Qed.

End Zipper.


(** ** Searching *)

Section Find.
Context {KeyT : Type} (less : KeyT → KeyT → bool).
Implicit Types (h : gmap positive (Node.t KeyT)) (t l r F : tree KeyT).
Implicit Types (C : list (frame KeyT)) (s : RedBlackTree KeyT) (key : KeyT).

Lemma descend_plug key t C C' t' :
  descend less key t C = (C', t') → plug C' t' = plug C t.
Proof.
  revert C. induction t as [|c l IHl i k r IHr]; intros C; simpl.
  - by intros [= <- <-].
  - destruct (less key k); [by intros ->%IHl|].
    destruct (less k key); [by intros ->%IHr|]. by intros [= <- <-].
Qed.

Lemma descend_found key t C C' c l i k r :
  descend less key t C = (C', T c l i k r) →
  less key k = false ∧ less k key = false.
Proof.
  revert C. induction t as [|c0 l0 IHl i0 k0 r0 IHr]; intros C; simpl; [done|].
  destruct (less key k0) eqn:H1; [by apply IHl|].
  destruct (less k0 key) eqn:H2; [by apply IHr|]. by intros [= <- <- <- <- <- <-].
Qed.

Lemma descend_agree h less0 key t C C' t' :
  descend less key t C = (C', t') →
  agree_ctx h nullptr less0 C (root_ptr t) →
  agree h (hole_parent nullptr C) (hole_side less0 C) t →
  agree_ctx h nullptr less0 C' (root_ptr t') ∧
  agree h (hole_parent nullptr C') (hole_side less0 C') t'.
Proof.
  revert C. induction t as [|c l IHl i k r IHr]; intros C; simpl.
  - by intros [= <- <-].
  - intros Hd HC (Hi & Hl & Hr). destruct (less key k).
    { apply (IHl _ Hd); simpl; by split_and?. }
    destruct (less k key).
    { apply (IHr _ Hd); simpl; by split_and?. }
    injection Hd as <- <-. simpl. by split_and?.
Qed.

Lemma descend_suffix key t C : ∃ D, (descend less key t C).1 = D ++ C.
Proof.
  revert C. induction t as [|c l IHl i k r IHr]; intros C; simpl.
  - by exists [].
  - destruct (less key k).
    { destruct (IHl (FL c i k r :: C)) as (D & ->). exists (D ++ [FL c i k r]).
      by rewrite <- app_assoc. }
    destruct (less k key); [|by exists []].
    destruct (IHr (FR c l i k :: C)) as (D & ->). exists (D ++ [FR c l i k]).
    by rewrite <- app_assoc.
Qed.

Lemma hole_side_descend x y key t f C :
  hole_side x (descend less key t (f :: C)).1
  = hole_side y (descend less key t (f :: C)).1.
Proof.
  destruct (descend_suffix key t (f :: C)) as (D & ->). by destruct D.
Qed.

Lemma find_loop_descend h root z par b key t C fuel :
  agree h par b t → height t ≤ fuel →
  find_loop less fuel key (root_ptr t) (mkTree h root z)
  = Ok (root_ptr (descend less key t C).2, mkTree h root z).
Proof.
  revert par b C fuel. induction t as [|c l IHl i k r IHr]; intros par b C fuel.
  - destruct fuel; done.
  - simpl. intros (Hi & Hl & Hr) Hf. destruct fuel as [|fuel]; [lia|]. simpl.
    eapply bind_Ok; [prim|]. norm. destruct (less key k).
    { eapply bind_Ok; [prim|]. norm. eapply IHl; [done|lia]. }
    destruct (less k key); [|done].
    eapply bind_Ok; [prim|]. norm. eapply IHr; [done|lia].
Qed.

Lemma find_nearest_loop_descend h root z par b key t C fuel lt :
  agree h par b t → height t ≤ fuel → lt = hole_side lt C →
  find_nearest_loop less fuel key (root_ptr t) (hole_parent nullptr C) lt
    (mkTree h root z)
  = Ok (match descend less key t C with
        | (C', E) => (false, hole_parent nullptr C', hole_side lt C')
        | (_, T _ _ i _ _) => (true, Some i, true)
        end, mkTree h root z).
Proof.
  revert par b C fuel lt. induction t as [|c l IHl i k r IHr]; intros par b C fuel lt.
  - intros _ _ Hlt. destruct fuel; simpl; unfold ret; by rewrite <- Hlt.
  - simpl. intros (Hi & Hl & Hr) Hf Hlt. destruct fuel as [|fuel]; [lia|]. simpl.
    eapply bind_Ok; [prim|]. norm. destruct (less key k).
    { eapply bind_Ok; [prim|]. norm.
      etrans; [apply (IHl (Some i) true (FL c i k r :: C) fuel true); [done|lia|done]|].
      pose proof (hole_side_descend true lt key l (FL c i k r) C) as Hs.
      destruct (descend _ _ _ _) as [? []]; simpl in *; by rewrite ?Hs. }
    destruct (less k key); [|done].
    eapply bind_Ok; [prim|]. norm.
    etrans; [apply (IHr (Some i) false (FR c l i k :: C) fuel false); [done|lia|done]|].
    pose proof (hole_side_descend false lt key r (FR c l i k) C) as Hs.
    destruct (descend _ _ _ _) as [? []]; simpl in *; by rewrite ?Hs.
Qed.

Lemma find_Rep s less0 t key :
  Rep s less0 t → find less key s = Ok (root_ptr (descend less key t []).2, s).
Proof.
  intros HR. pose proof (rep_size_nodes _ _ _ HR) as Hsz. pose proof (height_nodes t).
  destruct HR as [Ha Hr _ _ _ _], s as [h root z]. cbn [heap m_root] in *.
  unfold find, bind, get_fuel, get_root. cbn [heap m_root]. rewrite Hr.
  apply (find_loop_descend h _ z _ _ key t [] _ Ha). lia.
Qed.

Lemma find_nearest_Rep s less0 t key lt :
  Rep s less0 t →
  find_nearest less key lt s
  = Ok (match descend less key t [] with
        | (C', E) => (false, hole_parent nullptr C', hole_side lt C')
        | (_, T _ _ i _ _) => (true, Some i, true)
        end, s).
Proof.
  intros HR. pose proof (rep_size_nodes _ _ _ HR) as Hsz. pose proof (height_nodes t).
  destruct HR as [Ha Hr _ _ _ _], s as [h root z]. cbn [heap m_root] in *.
  unfold find_nearest, bind, get_fuel, get_root. cbn [heap m_root]. rewrite Hr.
  apply (find_nearest_loop_descend h _ z _ _ key t [] _ lt Ha); [lia|done].
Qed.

End Find.


(** ** Search trees *)

Section Order.
Context {KeyT : Type} (less : KeyT → KeyT → bool).
Context (Hless : StrictTotal less).
Implicit Types (t l r F : tree KeyT) (C : list (frame KeyT)) (key : KeyT).

Local Notation lt := (λ a b : KeyT, less a b = true).

Lemma bst_plug C t :
  bst less (plug C t) ↔ StronglySorted lt (keys_before C ++ keys t ++ keys_after C).
Proof. unfold bst. by rewrite keys_plug. Qed.

Lemma lt_irrefl a : ¬ lt a a.
Proof using Hless. intros H. by rewrite (less_irrefl _ Hless) in H. Qed.

Lemma lt_asym a b : lt a b → less b a = false.
Proof using Hless.
  intros H. destruct (less b a) eqn:Hb; [|done].
  destruct (lt_irrefl a). exact (less_trans _ Hless a b a H Hb).
Qed.

Lemma in_range_nil key : in_range less key [].
Proof. split; constructor. Qed.

Lemma descend_range key t C :
  bst less (plug C t) → in_range less key C →
  in_range less key (descend less key t C).1.
Proof using Hless.
  revert C. induction t as [|c l IHl i k r IHr]; intros C; simpl; [done|].
  intros Hb [Hbef Haft]. destruct (less key k) eqn:H1.
  { apply IHl; [done|]. split; [done|]. simpl. constructor; [done|].
    apply Forall_app. split; [|done]. apply Forall_forall. intros x Hx.
    apply bst_plug in Hb. simpl in Hb.
    apply StronglySorted_app_1_r, StronglySorted_app_1_l in Hb.
    apply StronglySorted_app_1_r in Hb. apply StronglySorted_cons in Hb as [Hb _].
    rewrite Forall_forall in Hb. exact (less_trans _ Hless key k x H1 (Hb x Hx)). }
  destruct (less k key) eqn:H2; [|done].
  apply IHr; [done|]. split; [|done]. simpl.
  apply Forall_app. split; [done|]. apply Forall_app. split; [|by constructor].
  apply Forall_forall. intros x Hx.
  apply bst_plug in Hb. simpl in Hb.
  apply StronglySorted_app_1_r, StronglySorted_app_1_l in Hb.
  refine (less_trans _ Hless x k key _ H2).
  apply (StronglySorted_app_1_elem_of lt _ (k :: keys r) x k Hb Hx). left.
Qed.

Lemma in_range_absent key C :
  in_range less key C → key ∉ keys_before C ++ keys_after C.
Proof using Hless.
  intros [Hb Ha] [Hin|Hin]%elem_of_app; rewrite Forall_forall in Hb, Ha.
  - by apply (lt_irrefl key), Hb.
  - by apply (lt_irrefl key), Ha.
Qed.

Lemma in_range_insert key C :
  in_range less key C →
  StronglySorted lt (keys_before C ++ keys_after C) →
  StronglySorted lt (keys_before C ++ key :: keys_after C).
Proof using Hless.
  intros [Hb Ha] Hs. rewrite Forall_forall in Hb, Ha.
  apply StronglySorted_app in Hs as (H12 & H1 & H2).
  apply StronglySorted_app_2; [|done|].
  - intros x1 x2 Hx1 [->|Hx2]%elem_of_cons; eauto.
  - apply StronglySorted_cons. split; [|done]. by apply Forall_forall.
Qed.

(** In a search tree the search path ends at the node holding the key,
    when there is one. *)
Lemma descend_absent key t :
  bst less t → (descend less key t []).2 = E → key ∉ keys t.
Proof using Hless.
  intros Hb He. destruct (descend less key t []) as [C' t'] eqn:Hd.
  simpl in He. subst t'.
  pose proof (descend_range key t [] Hb (in_range_nil key)) as Hr.
  rewrite Hd in Hr. apply descend_plug in Hd. simpl in Hd, Hr. rewrite <- Hd.
  rewrite keys_plug. simpl. by apply in_range_absent.
Qed.

Lemma descend_present key t :
  bst less t → key ∈ keys t →
  ∃ C c l i r, descend less key t [] = (C, T c l i key r).
Proof using Hless.
  intros Hb Hin. destruct (descend less key t []) as [C' t'] eqn:Hd.
  destruct t' as [|c l i k r].
  - destruct (descend_absent key t Hb); [by rewrite Hd|done].
  - destruct (descend_found _ _ _ _ _ _ _ _ _ _ Hd) as [H1 H2].
    rewrite (less_total _ Hless _ _ H1 H2). eauto 10.
Qed.

End Order.


(** ** Balance *)

Section Balance.
Context {KeyT : Type}.
Implicit Types (t l r F : tree KeyT) (C : list (frame KeyT)) (n m : nat).

Lemma bal_plug C t n m : bal_ctx C n m → bal t n → bal (plug C t) m.
Proof.
  intros HC. revert t. induction HC; intros t Ht; simpl; eauto using bal.
Qed.

Lemma bal_E_inv n : bal (@E KeyT) n → n = 0.
Proof. by inversion 1. Qed.

Lemma bal_not_red c l i k r n : bal (T c l i k r) n → c = false.
Proof. by inversion 1. Qed.

Lemma bal_zip_root t m : bal t m → bal_zip [] t m.
Proof. intros. left. exists m. split; [done|constructor]. Qed.

Lemma descend_bal (less : KeyT → KeyT → bool) key t C m :
  bal_zip C t m →
  bal_zip (descend less key t C).1 (descend less key t C).2 m.
Proof.
  revert C. induction t as [|c l IHl i k r IHr]; intros C; simpl; [done|].
  intros Hz. destruct (less key k).
  { apply IHl. destruct Hz as [(n & Hb & HC)|(ll & j & kj & lr & i0 & k0 & r0 & C' & n & Ht & -> & ? & ? & ? & ?)].
    - inversion Hb; subst.
      + left. eexists. split; [done|]. by constructor.
      + right. eauto 20.
    - injection Ht as -> -> -> -> ->. left. eexists. split; [done|]. by constructor. }
  destruct (less k key); [|done].
  apply IHr. destruct Hz as [(n & Hb & HC)|(ll & j & kj & lr & i0 & k0 & r0 & C' & n & Ht & -> & ? & ? & ? & ?)].
  - inversion Hb; subst.
    + left. eexists. split; [done|]. by constructor.
    + left. eexists. split; [done|]. by constructor.
  - injection Ht as -> -> -> -> ->. left. eexists. split; [done|]. by constructor.
Qed.

(** The walk of [add] *)

Lemma add_step_lists C F C' F' d :
  add_step C F = Some (C', F', d) →
  ctx_before C' ++ nodes F' ++ ctx_after C' = ctx_before C ++ nodes F ++ ctx_after C ∧
  keys_before C' ++ keys F' ++ keys_after C' = keys_before C ++ keys F ++ keys_after C.
Proof.
  unfold add_step. intros H. repeat (case_match; simplify_eq); split; same_list.
Qed.

Lemma add_walk_lists C F t :
  add_walk C F t →
  nodes t = ctx_before C ++ nodes F ++ ctx_after C ∧
  keys t = keys_before C ++ keys F ++ keys_after C.
Proof.
  induction 1 as [F|f C F C' F' Hst|f C F C' F' t Hst Hw IH].
  - simpl. by rewrite !app_nil_r.
  - rewrite nodes_plug, keys_plug. by eapply add_step_lists.
  - destruct IH as [-> ->]. by eapply add_step_lists.
Qed.

Lemma add_walk_exists C n m Fl f kf Fr :
  bal_ctx C n m → bal Fl n → bal Fr n →
  ∃ t, add_walk C (T false Fl f kf Fr) t ∧ (bal t m ∨ bal t (S m)).
Proof.
  intros HC. revert Fl f kf Fr.
  induction HC as [n|i k r C n m Hr HC IH|l i k C n m Hl HC IH
                  |j kj lr i k r C n m Hlr Hr HC IH
                  |ll j kj i k r C n m Hll Hr HC IH
                  |ll j kj lr i k C n m Hll Hlr HC IH]; intros Fl f kf Fr HFl HFr.
  - eexists. split; [constructor|]. right. by constructor.
  - eexists. split; [by eapply add_walk_done|]. left.
    eapply bal_plug; [done|]. by constructor.
  - eexists. split.
    { eapply add_walk_done. simpl. instantiate (1 := T false (T true l i k Fl) f kf Fr).
      by destruct Hl. }
    left. eapply bal_plug; [done|]. by constructor.
  - destruct (IH (T false Fl f kf Fr) j kj (T false lr i k r)) as (t & Hw & Hb);
      [by constructor..|].
    exists t. split; [|done]. by eapply add_walk_more.
  - destruct (IH (T false ll j kj Fl) f kf (T false Fr i k r)) as (t & Hw & Hb);
      [by constructor..|].
    exists t. split; [|done]. by eapply add_walk_more.
  - destruct (IH (T false ll j kj lr) i k (T false Fl f kf Fr)) as (t & Hw & Hb);
      [by constructor..|].
    exists t. split; [|done]. by eapply add_walk_more.
Qed.

End Balance.



(** ** Insertion: one step of the walk *)

Section AddSteps.
Context {KeyT : Type}.
Implicit Types (h : gmap positive (Node.t KeyT)) (t l r D : tree KeyT).
Implicit Types (C : list (frame KeyT)) (s : RedBlackTree KeyT).

Lemma addThreeMiddle_step s less0 ll j kj i k r C Fl f kf Fr :
  Walk s less0 (FR true ll j kj :: FL false i k r :: C) nullptr (T false Fl f kf Fr) →
  ∃ s', addThreeMiddle (Some f) s = Ok (Some f, s') ∧ m_size s' = m_size s ∧
    Walk s' less0 C nullptr (T false (T false ll j kj Fl) f kf (T false Fr i k r)).
Proof.
  destruct s as [h root z]. intros [Hctx Hsub Hroot Hnd Hdom].
  destruct C as [|[c x kx rx|c lx x kx] C]; simpl in *; break_hyps;
    pose proof Hnd as Hnd'; atomize Hnd; unfold addThreeMiddle;
    (eexists; split; [exec|]); (split; [done|]).
  - walk_post Hnd' Hdom.
  - walk_post Hnd' Hdom.
  - walk_post Hnd' Hdom.
Qed.

Lemma addThreeLeft_step s less0 j kj lr i k r C Fl f kf Fr :
  Walk s less0 (FL true j kj lr :: FL false i k r :: C) nullptr (T false Fl f kf Fr) →
  ∃ s', addThreeLeft (Some f) s = Ok (Some j, s') ∧ m_size s' = m_size s ∧
    Walk s' less0 C nullptr (T false (T false Fl f kf Fr) j kj (T false lr i k r)).
Proof.
  destruct s as [h root z]. intros [Hctx Hsub Hroot Hnd Hdom].
  destruct C as [|[c x kx rx|c lx x kx] C]; simpl in *; break_hyps;
    pose proof Hnd as Hnd'; atomize Hnd; unfold addThreeLeft;
    (eexists; split; [exec|]); (split; [done|]); walk_post Hnd' Hdom.
Qed.

Lemma addThreeRight_step s less0 ll j kj lr i k C Fl f kf Fr :
  Walk s less0 (FR false (T true ll j kj lr) i k :: C) nullptr (T false Fl f kf Fr) →
  ∃ s', addThreeRight (Some f) s = Ok (Some i, s') ∧ m_size s' = m_size s ∧
    Walk s' less0 C nullptr (T false (T false ll j kj lr) i k (T false Fl f kf Fr)).
Proof.
  destruct s as [h root z]. intros [Hctx Hsub Hroot Hnd Hdom].
  destruct C as [|[c x kx rx|c lx x kx] C]; simpl in *; break_hyps;
    pose proof Hnd as Hnd'; atomize Hnd; unfold addThreeRight;
    (eexists; split; [exec|]); (split; [done|]); walk_post Hnd' Hdom.
Qed.

Lemma addTwoRight_step s less0 l i k C Fl f kf Fr :
  Walk s less0 (FR false l i k :: C) nullptr (T false Fl f kf Fr) →
  ∃ s', addTwoRight (Some f) s = Ok (m_root s', s') ∧ m_size s' = m_size s ∧
    Walk s' less0 C (Some f) (T false (T true l i k Fl) f kf Fr).
Proof.
  destruct s as [h root z]. intros [Hctx Hsub Hroot Hnd Hdom].
  destruct C as [|[c x kx rx|c lx x kx] C]; simpl in *; break_hyps;
    pose proof Hnd as Hnd'; atomize Hnd; unfold addTwoRight;
    (eexists; split; [exec|]); (split; [done|]); walk_post Hnd' Hdom.
Qed.

Lemma addTwoLeft_step s less0 i k r C Fl f kf Fr :
  Walk s less0 (FL false i k r :: C) nullptr (T false Fl f kf Fr) →
  ∃ s', addTwoLeft (Some f) s = Ok (m_root s', s') ∧ m_size s' = m_size s ∧
    Walk s' less0 C (Some i) (T false (T true Fl f kf Fr) i k r).
Proof.
  destruct s as [h root z]. intros [Hctx Hsub Hroot Hnd Hdom].
  simpl in *; break_hyps;
    pose proof Hnd as Hnd'; atomize Hnd; unfold addTwoLeft;
    (eexists; split; [exec|]); (split; [done|]); walk_post Hnd' Hdom.
Qed.

(** [add( Node * )] chooses the case that [add_step] describes. *)
Lemma add_node_step s less0 C F C' F' d :
  Walk s less0 C nullptr F → add_step C F = Some (C', F', d) →
  ∃ s', add_node (root_ptr F) s
        = Ok ((if d then m_root s' else root_ptr F'), s') ∧
    m_size s' = m_size s ∧
    Walk s' less0 C' (if d then root_ptr F' else nullptr) F'.
Proof.
  intros HW Hstep.
  destruct F as [|[] Fl f kf Fr]; try done.
  destruct C as [|[[] j kj lr|[] l0 j0 k0] C]; try done; simpl in Hstep.
  - (* parent RED, node less *)
    destruct C as [|[[] i k r|] C]; try done. injection Hstep as <- <- <-.
    destruct (addThreeLeft_step _ _ _ _ _ _ _ _ _ _ _ _ _ HW) as (s' & Hex & Hsz & HW').
    exists s'. split; [|done]. destruct s as [h root z], HW as [Hctx Hsub _ _ _].
    simpl in *. break_hyps. unfold add_node. exec. exact Hex.
  - (* parent BLACK, node less *)
    injection Hstep as <- <- <-.
    destruct (addTwoLeft_step _ _ _ _ _ _ _ _ _ _ HW) as (s' & Hex & Hsz & HW').
    exists s'. split; [|done]. destruct s as [h root z], HW as [Hctx Hsub _ _ _].
    simpl in *. break_hyps. unfold add_node. exec. exact Hex.
  - (* parent RED, node greater *)
    destruct C as [|[[] i k r|] C]; try done. injection Hstep as <- <- <-.
    destruct (addThreeMiddle_step _ _ _ _ _ _ _ _ _ _ _ _ _ HW) as (s' & Hex & Hsz & HW').
    exists s'. split; [|done]. destruct s as [h root z], HW as [Hctx Hsub _ _ _].
    simpl in *. break_hyps. unfold add_node. exec. exact Hex.
  - (* parent BLACK, node greater *)
    destruct l0 as [|[] ll j kj lr]; injection Hstep as <- <- <-.
    + destruct (addTwoRight_step _ _ _ _ _ _ _ _ _ _ HW) as (s' & Hex & Hsz & HW').
      exists s'. split; [|done]. destruct s as [h root z], HW as [Hctx Hsub _ _ _].
      simpl in *. break_hyps. unfold add_node. exec. exact Hex.
    + destruct (addThreeRight_step _ _ _ _ _ _ _ _ _ _ _ _ _ HW) as (s' & Hex & Hsz & HW').
      exists s'. split; [|done]. destruct s as [h root z], HW as [Hctx Hsub _ _ _].
      simpl in *. break_hyps. unfold add_node. exec. exact Hex.
    + destruct (addTwoRight_step _ _ _ _ _ _ _ _ _ _ HW) as (s' & Hex & Hsz & HW').
      exists s'. split; [|done]. destruct s as [h root z], HW as [Hctx Hsub _ _ _].
      simpl in *. break_hyps. unfold add_node. exec. exact Hex.
Qed.

(** The loop of [add( key, node )] follows [add_walk]. *)
Lemma add_loop_walk s less0 C F t fuel :
  add_walk C F t → Walk s less0 C nullptr F → length C < fuel →
  ∃ s', add_loop fuel (root_ptr F) s = Ok ((), s') ∧ m_size s' = m_size s ∧
    Walk s' less0 [] (root_ptr t) t.
Proof.
  intros Hw. revert s fuel. induction Hw as [F|f C F C' F' Hst|f C F C' F' t Hst Hw IH];
    intros s fuel HW Hfuel.
  - exists s. split_and!; [|done|by eapply walk_nil_any].
    destruct fuel; [simpl in *; lia|]. destruct s as [h root z], HW as [_ _ Hr _ _].
    simpl in *. subst root. unfold bind. simpl. by rewrite ptr_neqb_refl.
  - destruct (add_node_step _ _ _ _ _ _ _ HW Hst) as (s' & Hex & Hsz & HW').
    exists s'. split_and!; [|done|by apply (proj1 (walk_plug _ _ _ _))].
    destruct fuel as [|fuel]; [simpl in *; lia|].
    pose proof (walk_root_ne _ _ _ _ _ _ HW) as Hne.
    simpl. unfold bind at 1. simpl. rewrite Hne.
    eapply bind_Ok; [exact Hex|]. destruct fuel; simpl; unfold bind; simpl;
      by rewrite ptr_neqb_refl.
  - destruct (add_node_step _ _ _ _ _ _ _ HW Hst) as (s1 & Hex & Hsz & HW').
    assert (Hlen : length C' < length (f :: C)).
    { destruct F as [|[] Fl i k Fr]; try done.
      destruct f as [[]|[]]; simpl in Hst; try done;
        repeat (case_match; simplify_eq; simpl; try lia). }
    destruct fuel as [|fuel]; [simpl in *; lia|].
    destruct (IH s1 fuel HW') as (s' & Hex' & Hsz' & HW''); [simpl in *; lia|].
    exists s'. split_and!; [|congruence|done].
    pose proof (walk_root_ne _ _ _ _ _ _ HW) as Hne.
    simpl. unfold bind at 1. simpl. rewrite Hne.
    eapply bind_Ok; [exact Hex|]. exact Hex'.
Qed.

End AddSteps.


(** ** [add( key, node )] *)

Section AddSpec.
Context {KeyT : Type} (less : KeyT → KeyT → bool).
Implicit Types (h : gmap positive (Node.t KeyT)) (t l r F : tree KeyT).
Implicit Types (C : list (frame KeyT)) (s : RedBlackTree KeyT) (key : KeyT).

Local Notation lt := (λ a b : KeyT, less a b = true).

Lemma descend_nonempty key c l i k r C' :
  descend less key (T c l i k r) [] = (C', E) → C' ≠ [].
Proof.
  intros Hd. pose proof (descend_suffix less key (T c l i k r) []) as (D & HD).
  simpl in Hd, HD. destruct (less key k).
  { destruct (descend_suffix less key l [FL c i k r]) as (D' & HD').
    rewrite Hd in HD'. simpl in HD'. subst. by destruct D'. }
  destruct (less k key); [|done].
  destruct (descend_suffix less key r [FR c l i k]) as (D' & HD').
  rewrite Hd in HD'. simpl in HD'. subst. by destruct D'.
Qed.

Context (Hless : StrictTotal less).

(** Adding a key that is present changes nothing. *)
Lemma add_found s less0 t key :
  Rep s less0 t → bst less t → key ∈ keys t →
  ∃ p, add_key_node less key s = Ok ((false, Some p), s) ∧
       key_at (heap s) p = Some key ∧ p ∈ nodes t ∧
       find less key s = Ok (Some p, s).
Proof using Hless.
  intros HR Hb Hin. destruct (descend_present less Hless key t Hb Hin)
    as (C & c & l & i & r & Hd).
  exists i. split_and!.
  - unfold add_key_node. eapply bind_Ok; [reflexivity|]. cbv beta.
    pose proof HR as [Ha Hr Hn Hdom Hs Hbd]. destruct s as [h root z].
    destruct t as [|c0 l0 i0 k0 r0]; [done|]. cbn [m_root root_ptr] in *. subst root. norm.
    eapply bind_Ok; [by eapply find_nearest_Rep|]. by rewrite Hd.
  - destruct HR as [Ha _ _ _ _ _].
    pose proof (descend_agree less _ less0 key t [] C _ Hd I Ha) as [_ HA].
    simpl in HA. destruct HA as (Hi & _). unfold key_at. by rewrite Hi.
  - apply descend_plug in Hd. simpl in Hd. rewrite <- Hd, nodes_plug. simpl.
    rewrite !elem_of_app, elem_of_cons. tauto.
  - rewrite (find_Rep less s less0 t key HR). by rewrite Hd.
Qed.

(** When the key is absent the search stops at a null pointer. *)
Lemma descend_absent_E key t C' t' :
  key ∉ keys t → descend less key t [] = (C', t') → t' = E.
Proof using Hless.
  intros Hk Hd. destruct t' as [|c l i k r]; [done|]. destruct Hk.
  destruct (descend_found _ _ _ _ _ _ _ _ _ _ Hd) as [H1 H2].
  rewrite (less_total _ Hless _ _ H1 H2).
  apply descend_plug in Hd. simpl in Hd. rewrite <- Hd, keys_plug. simpl.
  rewrite !elem_of_app, elem_of_cons. tauto.
Qed.

(** Adding a key that is absent: the new node and the key enter the
    in-order lists at the same place. *)
Lemma add_new_split s less0 t m key :
  Rep s less0 t → bal t m → bst less t → key ∉ keys t →
  (Z.of_nat (size (heap s)) < SIZE_MAX)%Z →
  ∃ a s' less1 t' m' (l1 l2 : list positive) (k1 k2 : list KeyT),
    add_key_node less key s = Ok ((true, Some a), s') ∧
    Rep s' less1 t' ∧ bal t' m' ∧ bst less t' ∧
    a ∉ nodes t ∧ nodes t = l1 ++ l2 ∧ nodes t' = l1 ++ a :: l2 ∧
    keys t = k1 ++ k2 ∧ keys t' = k1 ++ key :: k2 ∧ length l1 = length k1.
Proof using Hless.
  intros HR Hbal Hbst Hk Hfull.
  pose proof (rep_size_nodes _ _ _ HR) as Hsz.
  destruct s as [h root z]. cbn [heap] in *.
  set (a := fresh (dom h)).
  assert (Ha : a ∉ dom h) by apply is_fresh.
  destruct t as [|c0 l0 i0 k0 r0].
  - (* the empty tree *)
    destruct HR as [_ Hr _ Hd Hs _]. cbn [heap m_root m_size root_ptr nodes] in *.
    subst root. exists a. eexists. exists false, (T false E a key E), 1, [], [], [], [].
    split_and!.
    + unfold add_key_node. eapply bind_Ok; [reflexivity|]. norm.
      eapply bind_Ok; [by apply new_Node_Ok|]. cbv beta. fold a. reflexivity.
    + apply dom_empty_inv_L in Hd. subst h.
      split; cbn [heap m_root m_size root_ptr nodes agree]; simpl.
      * rewrite lookup_insert_eq. by rewrite ctor_mk.
      * done.
      * apply NoDup_singleton.
      * rewrite dom_insert_L. set_solver.
      * by rewrite map_size_insert_None, map_size_empty.
      * rewrite map_size_insert_None, map_size_empty by done. by vm_compute.
    + repeat constructor.
    + unfold bst. simpl. repeat constructor.
    + simpl. set_solver.
    + done.
    + done.
    + done.
    + done.
    + done.
  - (* a non-empty tree *)
    destruct (descend less key (T c0 l0 i0 k0 r0) []) as [C' t'] eqn:Hd.
    pose proof (descend_absent_E _ _ _ _ Hk Hd) as ->.
    pose proof (descend_nonempty _ _ _ _ _ _ _ Hd) as HC'.
    destruct C' as [|f C]; [done|]. clear HC'.
    pose proof (descend_plug _ _ _ _ _ _ Hd) as Hplug. change (plug [] ?t) with t in Hplug.
    (* the walk state after the allocation *)
    pose proof HR as HR'. apply Rep_Walk in HR' as (HW & Hs & Hbd).
    rewrite <- Hplug in HW. apply (walk_plug _ _ (f :: C) E) in HW.
    cbn [root_ptr m_size heap] in HW, Hs.
    pose proof (walk_alloc h root z (SizeT (z + 1)) less0 f C a key HW Ha) as HW1.
    (* the walk on trees *)
    pose proof (descend_bal less key _ [] m (bal_zip_root _ _ Hbal)) as Hz.
    rewrite Hd in Hz. cbn [fst snd] in Hz.
    destruct Hz as [(n & Hn & HCb)|(? & ? & ? & ? & ? & ? & ? & ? & ? & ? & _)]; [|done].
    apply bal_E_inv in Hn as ->.
    destruct (add_walk_exists (f :: C) 0 m E a key E HCb) as (t' & Hw & Hb');
      [constructor..|].
    pose proof (add_walk_lists _ _ _ Hw) as [Hnodes Hkeys].
    cbn [nodes keys app] in Hnodes, Hkeys.
    pose proof (length_ctx (f :: C)) as Hlen.
    assert (Hlen' : length (nodes (plug (f :: C) E)) = length (ctx_before (f :: C) ++ ctx_after (f :: C))).
    { by rewrite nodes_plug. }
    rewrite Hplug in Hlen'.
    destruct (add_loop_walk _ less0 (f :: C) _ t'
                (S (size (<[a := Node.mk nullptr nullptr (Some (frame_id f))
                                   (ty false (hole_side less0 (f :: C))) key]> h)))
                Hw HW1) as (s' & Hloop & Hsz' & HW').
    { rewrite map_size_insert_None by by apply not_elem_of_dom. lia. }
    exists a, s', less0, t'.
    assert (HR1 : Rep s' less0 t').
    { apply Rep_Walk. split; [done|].
      pose proof HW' as [_ _ _ Hnd' Hdom']. cbn [ctx_before ctx_after app] in Hnd', Hdom'.
      rewrite app_nil_r in Hnd', Hdom'.
      rewrite (size_heap_nodes _ _ Hnd' Hdom'), Hsz'. cbn [m_size].
      rewrite Hnodes, length_app. cbn [length].
      rewrite length_app in Hlen'. unfold SizeT. rewrite Z.mod_small; [|unfold SIZE_MAX in *; lia].
      unfold SIZE_MAX in *. lia. }
    assert (Hbst' : bst less t').
    { unfold bst. rewrite Hkeys. apply (in_range_insert less Hless).
      - pose proof (descend_range less Hless key _ [] Hbst (in_range_nil less key)) as Hr.
        by rewrite Hd in Hr.
      - unfold bst in Hbst. by rewrite <- Hplug, keys_plug in Hbst. }
    assert (Hex : add_key_node less key {| heap := h; m_root := root; m_size := z |}
                  = Ok ((true, Some a), s')).
    { unfold add_key_node. eapply bind_Ok; [reflexivity|]. cbn [m_root].
      pose proof HR as [_ Hr _ _ _ _]. cbn [m_root root_ptr] in Hr. subst root. norm.
      eapply bind_Ok; [by eapply find_nearest_Rep|]. rewrite Hd. cbv beta iota.
      eapply bind_Ok; [by apply new_Node_Ok|]. cbv beta. fold a.
      cbn [hole_parent]. do 5 step. fold a.
      replace (hole_side false (f :: C)) with (hole_side less0 (f :: C)) by (by destruct f).
      eapply bind_Ok; [exact Hloop|]. reflexivity. }
    assert (Hfresh : a ∉ nodes (T c0 l0 i0 k0 r0)).
    { destruct HR as [_ _ _ Hdom _ _]. cbn [heap] in Hdom. rewrite Hdom in Ha.
      by rewrite elem_of_list_to_set in Ha. }
    assert (Hpn : nodes (T c0 l0 i0 k0 r0) = ctx_before (f :: C) ++ ctx_after (f :: C)).
    { by rewrite <- Hplug, nodes_plug. }
    assert (Hpk : keys (T c0 l0 i0 k0 r0) = keys_before (f :: C) ++ keys_after (f :: C)).
    { by rewrite <- Hplug, keys_plug. }
    pose proof (length_ctx_before (f :: C)) as Hlb.
    destruct Hb' as [Hb'|Hb']; eexists; exists (ctx_before (f :: C)), (ctx_after (f :: C)),
      (keys_before (f :: C)), (keys_after (f :: C));
      (split_and!; [done|done|exact Hb'|done..]).
Qed.

(** Adding a key that is absent. *)
Lemma add_new s less0 t m key :
  Rep s less0 t → bal t m → bst less t → key ∉ keys t →
  (Z.of_nat (size (heap s)) < SIZE_MAX)%Z →
  ∃ a s' less1 t' m',
    add_key_node less key s = Ok ((true, Some a), s') ∧
    Rep s' less1 t' ∧ bal t' m' ∧ bst less t' ∧
    a ∉ nodes t ∧ nodes t' ≡ₚ a :: nodes t ∧ keys t' ≡ₚ key :: keys t ∧
    key_at (heap s') a = Some key.
Proof using Hless.
  intros HR Hbal Hbst Hk Hfull.
  destruct (add_new_split s less0 t m key HR Hbal Hbst Hk Hfull)
    as (a & s' & less1 & t' & m' & l1 & l2 & k1 & k2 & Hex & HR' & Hb' & Hs' & Ha
        & Hn & Hn' & Hks & Hks' & Hlen).
  exists a, s', less1, t', m'. split_and!; try done.
  - by rewrite Hn, Hn', Permutation_middle.
  - by rewrite Hks, Hks', Permutation_middle.
  - destruct HR' as [HA _ _ _ _ _]. apply agree_keys in HA.
    rewrite Hn', Hks' in HA.
    apply Forall2_app_inv in HA as [_ HA]; [by inversion HA|done].
Qed.


(** A full free store: the allocation fails before anything is written. *)
Lemma add_full s less0 t key :
  Rep s less0 t → key ∉ keys t →
  ¬ (Z.of_nat (size (heap s)) < SIZE_MAX)%Z →
  add_key_node less key s = Err BadAlloc.
Proof using Hless.
  intros HR Hk Hfull. destruct s as [h root z]. cbn [heap] in *.
  unfold add_key_node. eapply bind_Ok; [reflexivity|]. cbn [m_root].
  pose proof HR as [_ Hr _ _ _ _]. cbn [m_root] in Hr. subst root.
  destruct t as [|c0 l0 i0 k0 r0]; cbn [root_ptr] in *; norm.
  - unfold bind. by rewrite new_Node_full.
  - eapply bind_Ok; [by eapply find_nearest_Rep|].
    destruct (descend less key (T c0 l0 i0 k0 r0) []) as [C' t'] eqn:Hd.
    pose proof (descend_absent_E _ _ _ _ Hk Hd) as ->. cbv beta iota.
    unfold bind. by rewrite new_Node_full.
Qed.

End AddSpec.


(** ** [getNext] and [getPrevious] *)

Section Nav.
Context {KeyT : Type}.
Implicit Types (h : gmap positive (Node.t KeyT)) (t l r F : tree KeyT).
Implicit Types (C : list (frame KeyT)) (s : RedBlackTree KeyT).

Lemma last_app_cons {A} (l1 l2 : list A) x : last (l1 ++ x :: l2) = last (x :: l2).
Proof.
  induction l1 as [|y l1 IH]; [done|]. simpl. rewrite <- IH.
  by destruct (l1 ++ x :: l2) eqn:E; [destruct l1|].
Qed.

Lemma getNext_down_head h root z par b t fuel :
  agree h par b t → t ≠ E → height t ≤ S fuel →
  getNext_down fuel (root_ptr t) (mkTree h root z)
  = Ok (head (nodes t), mkTree h root z).
Proof.
  revert par b fuel. induction t as [|c l IHl i k r _]; intros par b fuel; [done|].
  intros (Hi & Hl & Hr) _ Hf. cbn [root_ptr nodes height] in *.
  destruct fuel as [|fuel]; cbn [getNext_down].
  - eapply bind_Ok; [prim|]. norm. destruct l; [done|simpl in Hf; lia].
  - eapply bind_Ok; [prim|]. norm. destruct l as [|cl ll il kl rl]; [done|].
    norm. etrans; [eapply IHl; [done|done|lia]|].
    cbn [nodes]. by destruct (nodes ll).
Qed.

Lemma getPrevious_down_last h root z par b t fuel :
  agree h par b t → t ≠ E → height t ≤ S fuel →
  getPrevious_down fuel (root_ptr t) (mkTree h root z)
  = Ok (last (nodes t), mkTree h root z).
Proof.
  revert par b fuel. induction t as [|c l _ i k r IHr]; intros par b fuel; [done|].
  intros (Hi & Hl & Hr) _ Hf. cbn [root_ptr nodes height] in *.
  destruct fuel as [|fuel]; cbn [getPrevious_down].
  - eapply bind_Ok; [prim|]. norm. destruct r; [|simpl in Hf; lia].
    cbn [nodes]. by rewrite last_snoc.
  - eapply bind_Ok; [prim|]. norm. destruct r as [|cr lr ir kr rr].
    { cbn [nodes]. by rewrite last_snoc. }
    norm. etrans; [eapply IHr; [done|done|lia]|].
    cbn [nodes]. rewrite !last_app_cons.
    by rewrite (last_app_cons (i :: nodes lr) (nodes rr) ir : last (i :: nodes lr ++ ir :: nodes rr) = _).
Qed.

Lemma getNext_up_head h root z less0 C v this node (pl pr : ptr) c k fuel :
  agree_ctx h nullptr less0 C v →
  h !! node = Some (Node.mk pl pr (hole_parent nullptr C) (ty c (hole_side less0 C)) k) →
  length C ≤ fuel →
  getNext_up fuel (Some this) (Some node) (mkTree h root z)
  = Ok (Some (default this (head (ctx_after C))), mkTree h root z).
Proof.
  revert v node pl pr c k fuel.
  induction C as [|[cf i kf rf|cf lf i kf] C IH]; intros v node pl pr c k fuel HC Hn Hf.
  - destruct fuel; cbn [getNext_up]; (eapply bind_Ok; [prim|]); by norm.
  - destruct fuel as [|fuel]; [simpl in Hf; lia|]. cbn [getNext_up].
    eapply bind_Ok; [prim|]. norm. cbn [hole_parent frame_id]. norm.
    eapply bind_Ok; [prim|]. by norm.
  - destruct fuel as [|fuel]; [simpl in Hf; lia|]. cbn [getNext_up].
    eapply bind_Ok; [prim|]. norm. cbn [hole_parent frame_id]. norm.
    eapply bind_Ok; [prim|]. norm. cbn [hole_side ctx_after].
    destruct HC as (Hi & _ & HC). eapply IH; [done..|simpl in Hf; lia].
Qed.

Lemma getPrevious_up_last h root z less0 C v this node (pl pr : ptr) c k fuel :
  agree_ctx h nullptr less0 C v →
  h !! node = Some (Node.mk pl pr (hole_parent nullptr C) (ty c (hole_side less0 C)) k) →
  length C ≤ fuel →
  getPrevious_up fuel (Some this) (Some node) (mkTree h root z)
  = Ok (Some (default this (last (ctx_before C))), mkTree h root z).
Proof.
  revert v node pl pr c k fuel.
  induction C as [|[cf i kf rf|cf lf i kf] C IH]; intros v node pl pr c k fuel HC Hn Hf.
  - destruct fuel; cbn [getPrevious_up]; (eapply bind_Ok; [prim|]); by norm.
  - destruct fuel as [|fuel]; [simpl in Hf; lia|]. cbn [getPrevious_up].
    eapply bind_Ok; [prim|]. norm. cbn [hole_parent frame_id]. norm.
    eapply bind_Ok; [prim|]. norm. cbn [hole_side ctx_before].
    destruct HC as (Hi & _ & HC). eapply IH; [done..|simpl in Hf; lia].
  - destruct fuel as [|fuel]; [simpl in Hf; lia|]. cbn [getPrevious_up].
    eapply bind_Ok; [prim|]. norm. cbn [hole_parent frame_id]. norm.
    eapply bind_Ok; [prim|]. norm. cbn [hole_side ctx_before].
    by rewrite !app_assoc, last_snoc.
Qed.

(** The node [p] of the tree [plug C (T c l p k r)]. *)
Lemma getNext_walk s less0 C c l p k r :
  Walk s less0 C (Some p) (T c l p k r) →
  getNext (Some p) s
  = Ok (Some (default p (head (nodes r ++ ctx_after C))), s).
Proof.
  intros HW. pose proof HW as [HC (Hp & Hl & Hr) _ Hnd Hdom].
  pose proof (size_heap_nodes _ _ Hnd Hdom) as Hsz.
  pose proof (height_nodes r). pose proof (length_ctx C).
  destruct s as [h root z]. cbn [heap nodes] in *. rewrite ?length_app in *.
  cbn [length] in *.
  unfold getNext. eapply bind_Ok; [reflexivity|]. cbn [heap].
  eapply bind_Ok; [prim|]. norm. destruct r as [|cr lr ir kr rr].
  - norm. cbn [nodes app]. eapply getNext_up_head; [done..|lia].
  - norm. etrans; [eapply (getNext_down_head _ _ _ _ _ (T cr lr ir kr rr)); [done..|lia]|].
    cbn [nodes]. by destruct (nodes lr).
Qed.

Lemma getPrevious_walk s less0 C c l p k r :
  Walk s less0 C (Some p) (T c l p k r) →
  getPrevious (Some p) s
  = Ok (Some (default p (last (ctx_before C ++ nodes l))), s).
Proof.
  intros HW. pose proof HW as [HC (Hp & Hl & Hr) _ Hnd Hdom].
  pose proof (size_heap_nodes _ _ Hnd Hdom) as Hsz.
  pose proof (height_nodes l). pose proof (length_ctx C).
  destruct s as [h root z]. cbn [heap nodes] in *. rewrite ?length_app in *.
  cbn [length] in *.
  unfold getPrevious. eapply bind_Ok; [reflexivity|]. cbn [heap].
  eapply bind_Ok; [prim|]. norm. destruct l as [|cl ll il kl rl].
  - norm. cbn [nodes]. rewrite app_nil_r. eapply getPrevious_up_last; [done..|lia].
  - norm. etrans; [eapply (getPrevious_down_last _ _ _ _ _ (T cl ll il kl rl)); [done..|lia]|].
    cbn [nodes]. rewrite app_assoc, !last_app_cons.
    destruct (last (il :: nodes rl)) eqn:E; [done|]. by apply last_None in E.
Qed.

(** Every node is the root of a subtree below some context. *)
Lemma node_zipper t C0 p :
  p ∈ nodes t → ∃ C c l k r, plug C0 t = plug C (T c l p k r).
Proof.
  revert C0. induction t as [|c l IHl i k r IHr]; intros C0; simpl.
  - by intros ?%elem_of_nil.
  - intros [Hp|[->|Hp]%elem_of_cons]%elem_of_app.
    + apply (IHl (FL c i k r :: C0) Hp).
    + by exists C0, c, l, k, r.
    + apply (IHr (FR c l i k :: C0) Hp).
Qed.

Lemma NoDup_split_unique (l1 l2 l1' l2' : list positive) x :
  NoDup (l1 ++ x :: l2) → l1 ++ x :: l2 = l1' ++ x :: l2' → l1 = l1' ∧ l2 = l2'.
Proof.
  revert l1'. induction l1 as [|y l1 IH]; intros l1' Hnd Heq.
  - destruct l1' as [|y' l1']; simpl in *; [by simplify_eq|].
    injection Heq as <- ->. apply NoDup_cons in Hnd as [Hx _].
    destruct Hx. apply elem_of_app. right. left.
  - destruct l1' as [|y' l1']; simpl in *.
    + injection Heq as -> <-. apply NoDup_cons in Hnd as [Hx _].
      destruct Hx. apply elem_of_app. right. left.
    + injection Heq as <- Heq. apply NoDup_cons in Hnd as [_ Hnd].
      destruct (IH _ Hnd Heq) as [-> ->]. done.
Qed.

(** [getNext] and [getPrevious] step through the in-order list. *)
Lemma getNext_list_shape s less0 t (l1 : list positive) p (l2 : list positive) :
  TreeShape s less0 t → nodes t = l1 ++ p :: l2 →
  getNext (Some p) s = Ok (Some (default p (head l2)), s) ∧
  getPrevious (Some p) s = Ok (Some (default p (last l1)), s).
Proof.
  intros HR Hsplit.
  destruct (node_zipper t [] p) as (C & c & l & k & r & Hplug).
  { rewrite Hsplit. apply elem_of_app. right. left. }
  cbn [plug] in Hplug. subst t.
  pose proof HR as [_ _ Hnd _].
  apply TreeShape_Walk in HR as HW. apply walk_plug in HW. cbn [root_ptr] in HW.
  rewrite nodes_plug in Hsplit, Hnd. cbn [nodes] in Hsplit, Hnd.
  rewrite <- app_assoc in Hsplit, Hnd. rewrite app_assoc in Hsplit, Hnd.
  simpl in Hsplit, Hnd.
  destruct (NoDup_split_unique _ _ _ _ _ Hnd Hsplit) as [<- <-].
  split; [by eapply getNext_walk|by eapply getPrevious_walk].
Qed.

Lemma getNext_list s less0 t (l1 : list positive) p (l2 : list positive) :
  Rep s less0 t → nodes t = l1 ++ p :: l2 →
  getNext (Some p) s = Ok (Some (default p (head l2)), s) ∧
  getPrevious (Some p) s = Ok (Some (default p (last l1)), s).
Proof. intros HR. eapply getNext_list_shape. by apply Rep_TreeShape. Qed.

End Nav.

(** ** Walking the whole tree: [validate] and the in-order traversal *)

Section Walks.
Context {KeyT : Type} (less : KeyT → KeyT → bool).
Implicit Types (h : gmap positive (Node.t KeyT)) (t l r F : tree KeyT).
Implicit Types (C : list (frame KeyT)) (s : RedBlackTree KeyT).

Lemma NoDup_mid_ne (l1 : list positive) q p (l2 : list positive) :
  NoDup (l1 ++ q :: p :: l2) → q ≠ p.
Proof.
  intros (_ & _ & Hnd)%NoDup_app ->.
  apply NoDup_cons in Hnd as [Hq _]. destruct Hq. left.
Qed.

(** The first loop of [validate] walks back to the smallest node. *)
Lemma validate_first_head_shape s less0 t (l1 : list positive) p (l2 : list positive) fuel :
  TreeShape s less0 t → nodes t = l1 ++ p :: l2 → length l1 ≤ fuel →
  validate_first fuel (Some p) (Some (default p (last l1))) s
  = Ok (head (nodes t), s).
Proof.
  intros HR. revert p l2 fuel. induction l1 as [|q l1 IH] using rev_ind;
    intros p l2 fuel Hsplit Hf.
  - rewrite Hsplit. destruct fuel; simpl; by rewrite ptr_neqb_refl.
  - rewrite last_snoc. cbn [default].
    rewrite length_app in Hf. cbn [length] in Hf.
    destruct fuel as [|fuel]; [lia|].
    rewrite <- app_assoc in Hsplit. cbn [app] in Hsplit.
    assert (q ≠ p) as Hne.
    { destruct HR as [_ _ Hnd _]. rewrite Hsplit in Hnd.
      by eapply NoDup_mid_ne. }
    cbn [validate_first]. rewrite ptr_neqb_ne by done.
    destruct (getNext_list_shape s less0 t l1 q (p :: l2) HR Hsplit) as [_ Hprev].
    eapply bind_Ok; [exact Hprev|]. apply (IH q (p :: l2)); [done|lia].
Qed.

Lemma validate_first_head s less0 t (l1 : list positive) p (l2 : list positive) fuel :
  Rep s less0 t → nodes t = l1 ++ p :: l2 → length l1 ≤ fuel →
  validate_first fuel (Some p) (Some (default p (last l1))) s
  = Ok (head (nodes t), s).
Proof. intros HR. eapply validate_first_head_shape. by apply Rep_TreeShape. Qed.

(** Repeated [getNext] lists the rest of the in-order list. *)
Lemma successor_walk_list s less0 t (l1 : list positive) p (l2 : list positive) fuel :
  Rep s less0 t → nodes t = l1 ++ p :: l2 → length l2 ≤ fuel →
  successor_walk fuel (Some p) s = Ok (Some <$> p :: l2, s).
Proof.
  intros HR. revert l1 p fuel. induction l2 as [|q l2 IH]; intros l1 p fuel Hsplit Hf.
  - destruct (getNext_list s less0 t l1 p [] HR Hsplit) as [Hnext _].
    cbn [head default] in Hnext.
    destruct fuel; cbn [successor_walk]; (eapply bind_Ok; [exact Hnext|]);
      by rewrite ptr_neqb_refl.
  - destruct (getNext_list s less0 t l1 p (q :: l2) HR Hsplit) as [Hnext _].
    cbn [head default] in Hnext. cbn [length] in Hf.
    destruct fuel as [|fuel]; [lia|].
    assert (p ≠ q) as Hne.
    { destruct HR as [_ _ Hnd _ _ _]. rewrite Hsplit in Hnd.
      by eapply NoDup_mid_ne. }
    cbn [successor_walk]. eapply bind_Ok; [exact Hnext|].
    rewrite ptr_neqb_ne by done.
    eapply bind_Ok; [apply (IH (l1 ++ [p]) q fuel); [|lia]|done].
    by rewrite <- app_assoc.
Qed.

Lemma keys_of_nodes s (ps : list positive) (ks : list KeyT) :
  Forall2 (λ p k, key_at (heap s) p = Some k) ps ks →
  keys_of (Some <$> ps) s = Ok (ks, s).
Proof.
  induction 1 as [|p k ps ks Hp _ IH]; [done|].
  cbn [fmap list_fmap keys_of]. unfold key_at in Hp.
  destruct s as [h root z]. cbn [heap] in *.
  destruct (h !! p) as [n|] eqn:Hn; [|done]. injection Hp as <-.
  eapply bind_Ok; [by apply call_Ok|]. eapply bind_Ok; [exact IH|done].
Qed.

Lemma root_split t i :
  root_ptr t = Some i → ∃ l1 l2 : list positive, nodes t = l1 ++ i :: l2.
Proof. destruct t; [done|]. intros [= ->]. simpl. eauto. Qed.

(** The in-order traversal by repeated [getNext] lists the nodes and the
    keys of the tree in order. *)
Lemma inorder_walk_nodes s less0 t :
  Rep s less0 t → inorder_walk s = Ok (Some <$> nodes t, s).
Proof.
  intros HR. pose proof HR as [_ Hr Hnd _ _ _].
  pose proof (rep_size_nodes _ _ _ HR) as Hsz.
  unfold inorder_walk. eapply bind_Ok; [reflexivity|]. rewrite Hr.
  destruct (root_ptr t) as [i|] eqn:Hi.
  - destruct (root_split _ _ Hi) as (l1 & l2 & Hsplit). norm.
    destruct (getNext_list s less0 t l1 i l2 HR Hsplit) as [_ Hprev].
    eapply bind_Ok; [exact Hprev|]. eapply bind_Ok; [reflexivity|].
    eapply bind_Ok.
    { eapply validate_first_head; [done..|].
      rewrite Hsplit, length_app in Hsz. lia. }
    destruct (nodes t) as [|f rest] eqn:Hn; [by destruct l1|]. cbn [head].
    eapply (successor_walk_list s less0 t [] f rest); [done..|].
    cbn [length] in Hsz. lia.
  - destruct t; done.
Qed.

(** The check of one node reads live nodes only. *)
Lemma ex_bind {A B} (m : M KeyT A) (f : A → M KeyT B) s x :
  m s = Ok (x, s) → (∃ b, f x s = Ok (b, s)) → ∃ b, bind m f s = Ok (b, s).
Proof. intros Hm [b Hb]. exists b. by eapply bind_Ok. Qed.

Lemma ex_ret {A} (x : A) s : ∃ b, ret x s = Ok (b, s).
Proof. by exists x. Qed.

Ltac vsplit :=
  match goal with
  | |- context [hole_parent nullptr ?C] => is_var C; destruct C as [|[[]|[]]]
  | |- context [root_ptr ?t] => is_var t; destruct t as [|[]]
  | |- context [ty ?c _] => is_var c; destruct c
  | |- context [negb ?c] => is_var c; destruct c
  | |- context [if ?c then _ else _] => is_var c; destruct c
  | |- context [if less ?a ?b then _ else _] => destruct (less a b)
  | |- context [negb (less ?a ?b)] => destruct (less a b)
  | H : _ !! ?i = Some (Node.mk (root_ptr ?t) _ _ _ _)
    |- context [Some ?i ~> Node.getLeftChild] => is_var t; destruct t as [|[]]
  | H : _ !! ?i = Some (Node.mk _ (root_ptr ?t) _ _ _)
    |- context [Some ?i ~> Node.getRightChild] => is_var t; destruct t as [|[]]
  end;
  cbn [agree agree_ctx hole_parent hole_side root_ptr frame_id] in *;
  break_hyps; norm.

Ltac vstep :=
  first
    [ apply ex_ret
    | eapply ex_bind; [solve [prim]|cbv beta; norm]
    | vsplit ].

Lemma validate_node_total s less0 C c l p k r :
  Walk s less0 C (Some p) (T c l p k r) →
  ∃ b, validate_node less (Some p) s = Ok (b, s).
Proof.
  intros [HC Hsub _ _ _]. destruct s as [h root z].
  cbn [heap agree] in *. break_hyps. unfold validate_node.
  repeat vstep.
Qed.

Ltac fstep :=
  first
    [ reflexivity
    | eapply bind_Ok; [solve [prim]|cbv beta; norm]
    | vsplit ].

(** A RED left child that lacks a child, next to a right child, fails the
    check. *)
Lemma validate_node_incomplete s less0 C c ll j kj lr p k cr rl ri rk rr :
  Walk s less0 C (Some p) (T c (T true ll j kj lr) p k (T cr rl ri rk rr)) →
  ll = E ∨ lr = E →
  validate_node less (Some p) s = Ok (false, s).
Proof.
  intros [HC Hsub _ _ _] Hor. destruct s as [h root z].
  cbn [heap agree] in *. break_hyps. unfold validate_node.
  destruct Hor as [-> | ->]; cbn [root_ptr] in *; repeat fstep.
Qed.

(** The second loop of [validate] checks every node but the last. *)
Lemma validate_loop_list_shape s less0 t (l1 : list positive) p (l2 : list positive) fuel :
  TreeShape s less0 t → nodes t = l1 ++ p :: l2 → length l2 ≤ fuel →
  validate_loop less fuel (Some p) (Some (default p (head l2))) s
  = Ok (forallb (node_ok less s) (removelast (p :: l2)), s).
Proof.
  intros HR. revert l1 p fuel. induction l2 as [|q l2 IH]; intros l1 p fuel Hsplit Hf.
  - cbn [head default]. destruct fuel; cbn [validate_loop]; by rewrite ptr_neqb_refl.
  - cbn [head default length] in *. destruct fuel as [|fuel]; [lia|].
    assert (p ≠ q) as Hne.
    { destruct HR as [_ _ Hnd _]. rewrite Hsplit in Hnd.
      by eapply NoDup_mid_ne. }
    cbn [validate_loop]. rewrite ptr_neqb_ne by done.
    assert (∃ b, validate_node less (Some p) s = Ok (b, s)) as [b Hb].
    { destruct (node_zipper t [] p) as (C & c & l & k & r & Hplug).
      { rewrite Hsplit. apply elem_of_app. right. left. }
      cbn [plug] in Hplug. subst t.
      apply TreeShape_Walk in HR as HW. apply walk_plug in HW.
      by eapply validate_node_total. }
    eapply bind_Ok; [exact Hb|].
    change (removelast (p :: q :: l2)) with (p :: removelast (q :: l2)).
    cbn [forallb]. unfold node_ok at 1. rewrite Hb. destruct b; [|done].
    assert (Hsplit' : nodes t = (l1 ++ [p]) ++ q :: l2) by by rewrite <- app_assoc.
    destruct (getNext_list_shape s less0 t _ q l2 HR Hsplit') as [Hnext _].
    eapply bind_Ok; [exact Hnext|]. cbn [andb].
    apply (IH (l1 ++ [p]) q fuel); [done|lia].
Qed.

Lemma validate_loop_list s less0 t (l1 : list positive) p (l2 : list positive) fuel :
  Rep s less0 t → nodes t = l1 ++ p :: l2 → length l2 ≤ fuel →
  validate_loop less fuel (Some p) (Some (default p (head l2))) s
  = Ok (forallb (node_ok less s) (removelast (p :: l2)), s).
Proof. intros HR. eapply validate_loop_list_shape. by apply Rep_TreeShape. Qed.

(** [validate] accepts a tree-shaped free store exactly when the root is
    BLACK and every node but the largest passes the check. *)
Lemma validate_TreeShape s less0 t :
  TreeShape s less0 t →
  validate less s
  = Ok (match t with
        | E => true
        | T c _ _ _ _ => negb c && forallb (node_ok less s) (removelast (nodes t))
        end, s).
Proof.
  intros HR. pose proof HR as [Ha Hr Hnd _].
  pose proof (shape_size_nodes _ _ _ HR) as Hsz.
  unfold validate. eapply bind_Ok; [reflexivity|]. rewrite Hr.
  destruct t as [|c l i k r]; [done|]. cbn [root_ptr]. norm.
  eapply bind_Ok.
  { destruct s as [h root z]. cbn [heap agree] in *. break_hyps. prim. }
  norm. destruct c; [done|]. cbn [negb andb].
  assert (Hsplit : nodes (T false l i k r) = nodes l ++ i :: nodes r) by done.
  destruct (getNext_list_shape s less0 _ _ i _ HR Hsplit) as [_ Hprev].
  eapply bind_Ok; [exact Hprev|]. eapply bind_Ok; [reflexivity|].
  eapply bind_Ok.
  { eapply validate_first_head_shape; [done..|].
    rewrite Hsplit, length_app in Hsz. lia. }
  destruct (nodes (T false l i k r)) as [|f rest] eqn:Hn.
  { by destruct (nodes l). }
  cbn [head].
  destruct (getNext_list_shape s less0 _ [] f rest HR Hn) as [Hnext _].
  eapply bind_Ok; [exact Hnext|].
  eapply (validate_loop_list_shape s less0 _ [] f rest); [done..|].
  cbn [length] in Hsz. lia.
Qed.

Lemma validate_Rep s less0 t :
  Rep s less0 t →
  validate less s
  = Ok (match t with
        | E => true
        | T c _ _ _ _ => negb c && forallb (node_ok less s) (removelast (nodes t))
        end, s).
Proof. intros HR. eapply validate_TreeShape. by apply Rep_TreeShape. Qed.

Lemma inorder_keys_walk_keys s less0 t :
  Rep s less0 t → inorder_keys_walk s = Ok (keys t, s).
Proof.
  intros HR. unfold inorder_keys_walk.
  eapply bind_Ok; [by eapply inorder_walk_nodes|].
  apply keys_of_nodes. destruct HR as [Ha _ _ _ _ _]. by eapply agree_keys.
Qed.

End Walks.


(** ** Keys and nodes of a stored search tree *)

Section Valid.
Context {KeyT : Type} (less : KeyT → KeyT → bool).
Implicit Types (h : gmap positive (Node.t KeyT)) (t : tree KeyT).
Implicit Types (s : RedBlackTree KeyT) (key : KeyT).

Lemma rep_in_nodes s less0 t p : Rep s less0 t → p ∈ nodes t ↔ is_Some (heap s !! p).
Proof.
  intros [_ _ _ Hd _ _]. by rewrite <- elem_of_dom, Hd, elem_of_list_to_set.
Qed.

Lemma rep_key_of s less0 t p n :
  Rep s less0 t → heap s !! p = Some n → p ∈ nodes t ∧ Node.m_key n ∈ keys t.
Proof.
  intros HR Hp. assert (p ∈ nodes t) as Hin by (eapply rep_in_nodes; eauto).
  split; [done|]. destruct HR as [Ha _ _ _ _ _].
  destruct (agree_lookup _ _ _ _ _ Ha Hin) as (k & Hk & Hkin).
  unfold key_at in Hk. rewrite Hp in Hk. by injection Hk as ->.
Qed.

Lemma rep_key_in s less0 t key :
  Rep s less0 t →
  key ∈ keys t ↔ ∃ p n, heap s !! p = Some n ∧ Node.m_key n = key.
Proof.
  intros HR. split.
  - intros Hk. pose proof HR as [Ha _ _ _ _ _]. apply agree_keys in Ha.
    apply list_elem_of_lookup in Hk as (i & Hi).
    destruct (Forall2_lookup_r _ _ _ _ _ Ha Hi) as (p & Hp & Hkey).
    unfold key_at in Hkey. destruct (heap s !! p) as [n|] eqn:Hn; [|done].
    injection Hkey as <-. eauto.
  - intros (p & n & Hp & <-). by eapply rep_key_of.
Qed.

Context (Hless : StrictTotal less).
Local Notation lt := (λ a b : KeyT, less a b = true).

Lemma sorted_NoDup (ks : list KeyT) : StronglySorted lt ks → NoDup ks.
Proof using Hless.
  induction 1 as [|k ks _ IH Hall]; constructor; [|done].
  intros Hin. rewrite Forall_forall in Hall.
  by apply (lt_irrefl less Hless k), Hall.
Qed.

Lemma key_in_or_not t key : bst less t → key ∈ keys t ∨ key ∉ keys t.
Proof using Hless.
  intros Hb. destruct (descend less key t []) as [C' t'] eqn:Hd.
  destruct t' as [|c l i k r].
  - right. apply (descend_absent less Hless key t Hb). by rewrite Hd.
  - left. destruct (descend_found _ _ _ _ _ _ _ _ _ _ Hd) as [H1 H2].
    rewrite (less_total _ Hless _ _ H1 H2).
    apply descend_plug in Hd. cbn [plug] in Hd. rewrite <- Hd, keys_plug. simpl.
    rewrite !elem_of_app, elem_of_cons. tauto.
Qed.

(** Two nodes that hold the same key are the same node. *)
Lemma key_unique s less0 t p q key :
  Rep s less0 t → bst less t →
  key_at (heap s) p = Some key → key_at (heap s) q = Some key → p = q.
Proof using Hless.
  intros HR Hb Hp Hq.
  assert (p ∈ nodes t ∧ q ∈ nodes t) as [Hpin Hqin].
  { unfold key_at in *.
    split; (eapply rep_in_nodes; [done|]).
    - by destruct (heap s !! p).
    - by destruct (heap s !! q). }
  destruct HR as [Ha _ _ _ _ _]. apply agree_keys in Ha.
  apply list_elem_of_lookup in Hpin as (i & Hi).
  apply list_elem_of_lookup in Hqin as (j & Hj).
  destruct (Forall2_lookup_l _ _ _ _ _ Ha Hi) as (ki & Hki & Hpi).
  destruct (Forall2_lookup_l _ _ _ _ _ Ha Hj) as (kj & Hkj & Hqj).
  assert (ki = key) as -> by congruence. assert (kj = key) as -> by congruence.
  assert (i = j) as ->.
  { eapply NoDup_lookup; [by apply sorted_NoDup|done..]. }
  congruence.
Qed.

End Valid.


(** ** Removal: one step of the walk *)

Section RemSteps.
Context {KeyT : Type}.
Implicit Types (h : gmap positive (Node.t KeyT)) (t l r D : tree KeyT).
Implicit Types (C : list (frame KeyT)) (s : RedBlackTree KeyT).

Ltac rem_pre HW :=
  let Hctx := fresh "Hctx" in let Hnode := fresh "Hnode" in
  let HD := fresh "HD" in let Hroot := fresh "Hroot" in
  destruct HW as [Hctx (?nr & ?cn & ?kn & Hnode) (?pD & ?bD & HD) Hroot Hnd Hdom].

Lemma hole_parent_cons C : C ≠ [] → ∃ x, hole_parent nullptr C = Some x.
Proof. destruct C; [done|eauto]. Qed.

Lemma ctx_root_hole C v v' : C ≠ [] → ctx_root C v = ctx_root C v'.
Proof. destruct C; [done|]. intros _. apply ctx_root_indep. Qed.

Lemma remTwoLeft_Two_more s less0 v node D a ka sl b kb sr C :
  is_red sl = false → C ≠ [] →
  RWalk s less0 (FL false a ka (T false sl b kb sr) :: C) v node D →
  ∃ s', remTwoLeft_Two (Some node) s = Ok (Some node, s') ∧ m_size s' = m_size s ∧
    RWalk s' less0 C (Some a) node (T false (T true D a ka sl) b kb sr).
Proof.
  destruct s as [h root z]. intros Hsl HC HW. destruct (hole_parent_cons C HC) as [x Hx]. rem_pre HW.
  destruct Hctx as (Ha & HS & Hctx).
  cbn [heap agree hole_parent hole_side frame_id root_ptr m_root
       ctx_before ctx_after nodes app] in *.
  break_hyps. rewrite Hx in *. pose proof Hnd as Hnd'. atomize Hnd.
  unfold remTwoLeft_Two.
  eexists. split; [exec|]. split; [done|]. rwalk_post Hnd' Hdom.
  subst root. cbn [ctx_root frame_id]. by apply ctx_root_hole.
Qed.

Lemma remTwoLeft_Two_root s less0 v node D a ka sl b kb sr :
  is_red sl = false →
  RWalk s less0 [FL false a ka (T false sl b kb sr)] v node D →
  ∃ s', remTwoLeft_Two (Some node) s = Ok (m_root s', s') ∧ m_size s' = m_size s ∧
    Walk s' false [] (Some b) (T false (T true D a ka sl) b kb sr).
Proof.
  destruct s as [h root z]. intros Hsl HW. rem_pre HW.
  destruct Hctx as (Ha & HS & Hctx).
  cbn [heap agree hole_parent hole_side frame_id root_ptr m_root
       ctx_before ctx_after nodes app] in *.
  break_hyps. pose proof Hnd as Hnd'. atomize Hnd.
  unfold remTwoLeft_Two.
  eexists. split; [exec|]. split; [done|]. walk_post_del Hnd' Hdom.
Qed.

Lemma remTwoLeft_Three_step s less0 v node D a ka bl b kb br c kc cr C :
  RWalk s less0 (FL false a ka (T false (T true bl b kb br) c kc cr) :: C) v node D →
  ∃ s' less1, remTwoLeft_Three (Some node) s = Ok (m_root s', s') ∧
    m_size s' = m_size s ∧
    Walk s' less1 C (Some b) (T false (T false D a ka bl) b kb (T false br c kc cr)).
Proof.
  destruct s as [h root z]. intros HW. rem_pre HW.
  destruct C as [|[cx x kx rx|cx lx x kx] C]; simpl in *; break_hyps;
    pose proof Hnd as Hnd'; atomize Hnd; unfold remTwoLeft_Three;
    (eexists; eexists; split; [exec|]); (split; [done|]);
    walk_post_del Hnd' Hdom.
Qed.


Ltac rem_open HW C f :=
  rem_pre HW;
  destruct C as [|[?cx ?x ?kx ?rx|?cx ?lx ?x ?kx] C]; simpl in *; break_hyps;
  lazymatch goal with
  | Hnd : NoDup _, Hdom : dom _ = _ |- _ =>
      let Hnd' := fresh "Hnd'" in
      pose proof Hnd as Hnd'; atomize Hnd; f;
      (eexists; eexists; split; [exec|]); (split; [done|]);
      walk_post_del Hnd' Hdom
  end.

Ltac rem_closed HW f :=
  rem_pre HW;
  cbn [heap agree agree_ctx hole_parent hole_side frame_id root_ptr m_root
       ctx_root ctx_before ctx_after nodes app] in *;
  break_hyps;
  lazymatch goal with
  | Hnd : NoDup _, Hdom : dom _ = _ |- _ =>
      let Hnd' := fresh "Hnd'" in
      pose proof Hnd as Hnd'; atomize Hnd; f;
      (eexists; split; [exec|]); (split; [done|]);
      walk_post_del Hnd' Hdom
  end.

Lemma remTwoRight_Two_more s less0 v node D bl x kx br b kb C :
  is_red bl = false → C ≠ [] →
  RWalk s less0 (FR false (T false bl x kx br) b kb :: C) v node D →
  ∃ s', remTwoRight_Two (Some node) s = Ok (Some node, s') ∧ m_size s' = m_size s ∧
    RWalk s' less0 C (Some b) node (T false (T true bl x kx br) b kb D).
Proof.
  destruct s as [h root z]. intros Hsl HC HW.
  destruct (hole_parent_cons C HC) as [p Hp]. rem_pre HW.
  destruct Hctx as (Ha & HS & Hctx).
  cbn [heap agree hole_parent hole_side frame_id root_ptr m_root
       ctx_before ctx_after nodes app] in *.
  break_hyps. rewrite Hp in *. pose proof Hnd as Hnd'. atomize Hnd.
  unfold remTwoRight_Two.
  eexists. split; [exec|]. split; [done|]. rwalk_post Hnd' Hdom.
  subst root. cbn [ctx_root frame_id]. by apply ctx_root_hole.
Qed.

Lemma remTwoRight_Two_root s less0 v node D bl x kx br b kb :
  is_red bl = false →
  RWalk s less0 [FR false (T false bl x kx br) b kb] v node D →
  ∃ s', remTwoRight_Two (Some node) s = Ok (m_root s', s') ∧ m_size s' = m_size s ∧
    Walk s' less0 [] (Some b) (T false (T true bl x kx br) b kb D).
Proof.
  destruct s as [h root z]. intros Hsl HW. rem_pre HW.
  destruct Hctx as (Ha & HS & Hctx).
  cbn [heap agree hole_parent hole_side frame_id root_ptr m_root
       ctx_before ctx_after nodes app] in *.
  break_hyps. pose proof Hnd as Hnd'. atomize Hnd.
  unfold remTwoRight_Two.
  eexists. split; [exec|]. split; [done|]. walk_post_del Hnd' Hdom.
Qed.

Lemma remTwoRight_Three_step s less0 v node D bl x kx br c kc cr b kb C :
  RWalk s less0 (FR false (T false (T true bl x kx br) c kc cr) b kb :: C) v node D →
  ∃ s' less1, remTwoRight_Three (Some node) s = Ok (m_root s', s') ∧
    m_size s' = m_size s ∧
    Walk s' less1 C (Some c) (T false (T false bl x kx br) c kc (T false cr b kb D)).
Proof. destruct s as [h root z]. intros HW. rem_open HW C ltac:(unfold remTwoRight_Three). Qed.

Lemma remThreeRight_X_Two_step s less0 v node D al a ka cl c kc cr b kb C :
  is_red cl = false →
  RWalk s less0 (FR false (T true al a ka (T false cl c kc cr)) b kb :: C) v node D →
  ∃ s' less1, remThreeRight_X_Two (Some node) s = Ok (m_root s', s') ∧
    m_size s' = m_size s ∧
    Walk s' less1 C (Some a) (T false al a ka (T false (T true cl c kc cr) b kb D)).
Proof.
  destruct s as [h root z]. intros Hcl HW.
  destruct cl as [|[] ? ? ? ?]; [|done|];
    rem_open HW C ltac:(unfold remThreeRight_X_Two).
Qed.

Lemma remThreeRight_X_Three_step s less0 v node D al a ka cl c kc cr d kd dr b kb C :
  RWalk s less0
    (FR false (T true al a ka (T false (T true cl c kc cr) d kd dr)) b kb :: C)
    v node D →
  ∃ s' less1, remThreeRight_X_Three (Some node) s = Ok (m_root s', s') ∧
    m_size s' = m_size s ∧
    Walk s' less1 C (Some d)
      (T false (T true al a ka (T false cl c kc cr)) d kd (T false dr b kb D)).
Proof.
  destruct s as [h root z]. intros HW.
  rem_open HW C ltac:(unfold remThreeRight_X_Three).
Qed.

Lemma remThreeLeft_Two_X_step s less0 v node D a ka cl c kc cr b kb Br C :
  RWalk s less0 (FL true a ka (T false cl c kc cr) :: FL false b kb Br :: C)
    v node D →
  ∃ s', remThreeLeft_Two_X (Some node) s = Ok (m_root s', s') ∧
    m_size s' = m_size s ∧
    Walk s' less0 C (Some b)
      (T false (T false (T true D a ka cl) c kc cr) b kb Br).
Proof.
  destruct s as [h root z]. intros HW.
  rem_closed HW ltac:(unfold remThreeLeft_Two_X).
Qed.

Lemma remThreeLeft_Three_X_step s less0 v node D a ka cl c kc cr d kd dr b kb Br C :
  RWalk s less0
    (FL true a ka (T false (T true cl c kc cr) d kd dr) :: FL false b kb Br :: C)
    v node D →
  ∃ s', remThreeLeft_Three_X (Some node) s = Ok (m_root s', s') ∧
    m_size s' = m_size s ∧
    Walk s' less0 C (Some b)
      (T false (T true (T false D a ka cl) c kc (T false cr d kd dr)) b kb Br).
Proof.
  destruct s as [h root z]. intros HW.
  rem_closed HW ltac:(unfold remThreeLeft_Three_X).
Qed.

Lemma remThreeMiddle_Two_X_step s less0 v node D cl c kc cr a ka b kb Br C :
  RWalk s less0 (FR true (T false cl c kc cr) a ka :: FL false b kb Br :: C)
    v node D →
  ∃ s', remThreeMiddle_Two_X (Some node) s = Ok (m_root s', s') ∧
    m_size s' = m_size s ∧
    Walk s' less0 C (Some b)
      (T false (T false (T true cl c kc cr) a ka D) b kb Br).
Proof.
  destruct s as [h root z]. intros HW.
  rem_closed HW ltac:(unfold remThreeMiddle_Two_X).
Qed.

Lemma remThreeMiddle_Three_X_step s less0 v node D cl c kc cr d kd dr a ka b kb Br C :
  RWalk s less0
    (FR true (T false (T true cl c kc cr) d kd dr) a ka :: FL false b kb Br :: C)
    v node D →
  ∃ s', remThreeMiddle_Three_X (Some node) s = Ok (m_root s', s') ∧
    m_size s' = m_size s ∧
    Walk s' less0 C (Some b)
      (T false (T true (T false cl c kc cr) d kd (T false dr a ka D)) b kb Br).
Proof.
  destruct s as [h root z]. intros HW.
  rem_closed HW ltac:(unfold remThreeMiddle_Three_X).
Qed.

(** [rem( Node * )] chooses the case that [rem_step] describes. *)
Ltac rem_case HW Hex unf :=
  lazymatch type of HW with
  | RWalk ?s _ _ _ _ _ =>
      destruct s as [?h ?root ?z];
      destruct HW as [?Hctx (?nr & ?cn & ?kn & ?Hnode) _ _ _ _];
      simpl in *; break_hyps; unfold rem; exec; unf; exec; exact Hex
  end.

Ltac rem_done HW lem unf :=
  let s' := fresh "s'" in let Hex := fresh "Hex" in
  let Hsz := fresh "Hsz" in let HW' := fresh "HW'" in
  let H2 := fresh "H2" in
  pose proof HW as H2; apply lem in H2; [|done..];
  first [ destruct H2 as (s' & ?less1 & Hex & Hsz & HW'); exists s'; eexists
        | destruct H2 as (s' & Hex & Hsz & HW'); exists s'; eexists ];
  (split; [exact Hsz|]); (split; [|exact HW']); rem_case HW Hex unf.

Ltac rem_more HW lem unf :=
  let s' := fresh "s'" in let Hex := fresh "Hex" in
  let Hsz := fresh "Hsz" in let HW' := fresh "HW'" in
  let H2 := fresh "H2" in
  pose proof HW as H2; apply lem in H2; [|done..];
  destruct H2 as (s' & Hex & Hsz & HW'); exists s'; eexists;
  (split; [exact Hsz|]); eexists; (split; [|exact HW']); rem_case HW Hex unf.

Lemma rem_dispatch s less0 C v node D C' D' d :
  RWalk s less0 C v node D → rem_step C D = Some (C', D', d) →
  ∃ s' less1, m_size s' = m_size s ∧
    if d then rem (Some node) s = Ok (m_root s', s') ∧
              Walk s' less1 C' (root_ptr D') D'
    else ∃ v', rem (Some node) s = Ok (Some node, s') ∧
               RWalk s' less1 C' v' node D'.
Proof.
  intros HW Hstep.
  destruct C as [|[[] a ka R|[] L b kb] C]; try done; simpl in Hstep.
  - (* parent RED, node less *)
    destruct C as [|[[] b kb Br|] C]; try done.
    destruct R as [|[] cl c kc cr]; try done.
    destruct cl as [|[] cll c' kc' clr]; injection Hstep as <- <- <-.
    + rem_done HW remThreeLeft_Two_X_step
        ltac:(unfold remThreeLeft).
    + rem_done HW remThreeLeft_Three_X_step
        ltac:(unfold remThreeLeft).
    + rem_done HW remThreeLeft_Two_X_step
        ltac:(unfold remThreeLeft).
  - (* parent BLACK, node less *)
    destruct R as [|[] sl b kb sr]; try done.
    destruct sl as [|[] sll c' kc' slr].
    + destruct C as [|f C]; injection Hstep as <- <- <-.
      * rem_done HW remTwoLeft_Two_root
          ltac:(unfold remTwoLeft).
      * rem_more HW remTwoLeft_Two_more
          ltac:(unfold remTwoLeft).
    + injection Hstep as <- <- <-.
      rem_done HW remTwoLeft_Three_step
        ltac:(unfold remTwoLeft).
    + destruct C as [|f C]; injection Hstep as <- <- <-.
      * rem_done HW remTwoLeft_Two_root
          ltac:(unfold remTwoLeft).
      * rem_more HW remTwoLeft_Two_more
          ltac:(unfold remTwoLeft).
  - (* parent RED, node greater *)
    destruct C as [|[[] g kg Br|] C]; try done.
    destruct L as [|[] cl c kc cr]; try done.
    destruct cl as [|[] cll c' kc' clr]; injection Hstep as <- <- <-.
    + rem_done HW remThreeMiddle_Two_X_step ltac:(unfold remThreeMiddle).
    + rem_done HW remThreeMiddle_Three_X_step ltac:(unfold remThreeMiddle).
    + rem_done HW remThreeMiddle_Two_X_step ltac:(unfold remThreeMiddle).
  - (* parent BLACK, node greater *)
    destruct L as [|[] al a ka ar]; try done.
    + (* the left child is RED *)
      destruct ar as [|[] cl c kc cr]; try done.
      destruct cl as [|[] cll c' kc' clr]; injection Hstep as <- <- <-.
      * rem_done HW remThreeRight_X_Two_step ltac:(unfold remThreeRight).
      * rem_done HW remThreeRight_X_Three_step ltac:(unfold remThreeRight).
      * rem_done HW remThreeRight_X_Two_step ltac:(unfold remThreeRight).
    + (* the left child is BLACK *)
      destruct al as [|[] bl x kx br].
      * destruct C as [|f C]; injection Hstep as <- <- <-.
        -- rem_done HW remTwoRight_Two_root ltac:(unfold remTwoRight).
        -- rem_more HW remTwoRight_Two_more ltac:(unfold remTwoRight).
      * injection Hstep as <- <- <-.
        rem_done HW remTwoRight_Three_step ltac:(unfold remTwoRight).
      * destruct C as [|f C]; injection Hstep as <- <- <-.
        -- rem_done HW remTwoRight_Two_root ltac:(unfold remTwoRight).
        -- rem_more HW remTwoRight_Two_more ltac:(unfold remTwoRight).
Qed.

End RemSteps.


(** ** Removal: the whole walk *)

Section RemWalk.
Context {KeyT : Type}.
Implicit Types (h : gmap positive (Node.t KeyT)) (t l r D : tree KeyT).
Implicit Types (C : list (frame KeyT)) (s : RedBlackTree KeyT) (n m : nat).

Lemma rem_step_lists C D C' D' d :
  rem_step C D = Some (C', D', d) →
  ctx_before C' ++ nodes D' ++ ctx_after C' = ctx_before C ++ nodes D ++ ctx_after C ∧
  keys_before C' ++ keys D' ++ keys_after C' = keys_before C ++ keys D ++ keys_after C ∧
  length C' < length C.
Proof.
  unfold rem_step. intros H.
  repeat (case_match; simplify_eq); split_and!; first [same_list | simpl; lia].
Qed.

Lemma rem_walk_lists C D t :
  rem_walk C D t →
  nodes t = ctx_before C ++ nodes D ++ ctx_after C ∧
  keys t = keys_before C ++ keys D ++ keys_after C.
Proof.
  induction 1 as [C D C' D' Hst|C D C' D' t Hst Hw IH].
  - rewrite nodes_plug, keys_plug.
    destruct (rem_step_lists _ _ _ _ _ Hst) as (? & ? & _). done.
  - destruct IH as [-> ->].
    destruct (rem_step_lists _ _ _ _ _ Hst) as (? & ? & _). done.
Qed.

Lemma rwalk_root_ne s less0 C v node D :
  C ≠ [] → RWalk s less0 C v node D → ptr_neqb (Some node) (m_root s) = true.
Proof.
  intros HC [_ _ _ Hr Hnd _]. rewrite Hr. destruct C as [|f C]; [done|].
  apply NoDup_cons in Hnd as [Hn _].
  destruct (ctx_root_elem f C (Some node)) as (x & -> & Hx).
  apply ptr_neqb_ne. intros ->. apply Hn. rewrite !elem_of_app. tauto.
Qed.

Lemma rem_step_nonempty C D x : rem_step C D = Some x → C ≠ [].
Proof. by destruct C. Qed.

(** The loop of [remove] follows [rem_walk]. *)
Lemma rem_loop_walk s less0 C v node D t fuel :
  rem_walk C D t → RWalk s less0 C v node D → length C ≤ fuel →
  ∃ s' less1, rem_loop fuel (Some node) s = Ok ((), s') ∧ m_size s' = m_size s ∧
    Walk s' less1 [] (root_ptr t) t.
Proof.
  intros Hw. revert s less0 v fuel.
  induction Hw as [C D C' D' Hst|C D C' D' t Hst Hw IH]; intros s less0 v fuel HW Hfuel.
  - destruct (rem_dispatch _ _ _ _ _ _ _ _ _ HW Hst) as (s' & less1 & Hsz & Hex & HW').
    exists s', less1. split_and!; [|done|by apply (proj1 (walk_plug _ _ _ _))].
    pose proof (rwalk_root_ne _ _ _ _ _ _ (rem_step_nonempty _ _ _ Hst) HW) as Hne.
    pose proof (rem_step_nonempty _ _ _ Hst) as HC.
    destruct fuel as [|fuel]; [destruct C; simpl in *; [done|lia]|].
    simpl. unfold bind at 1. unfold get_root at 1. rewrite Hne.
    eapply bind_Ok; [exact Hex|]. destruct fuel; simpl; unfold bind; simpl;
      by rewrite ptr_neqb_refl.
  - destruct (rem_dispatch _ _ _ _ _ _ _ _ _ HW Hst) as (s1 & less1 & Hsz & v' & Hex & HW').
    destruct (rem_step_lists _ _ _ _ _ Hst) as (_ & _ & Hlen).
    pose proof (rwalk_root_ne _ _ _ _ _ _ (rem_step_nonempty _ _ _ Hst) HW) as Hne.
    destruct fuel as [|fuel]; [lia|].
    destruct (IH s1 less1 v' fuel HW') as (s' & less2 & Hex' & Hsz' & HW''); [lia|].
    exists s', less2. split_and!; [|congruence|done].
    simpl. unfold bind at 1. unfold get_root at 1. rewrite Hne.
    eapply bind_Ok; [exact Hex|]. exact Hex'.
Qed.

(** The walk exists on a balanced tree whose hole is one BLACK node
    short, and it restores the balance. *)
Lemma rem_walk_exists C n n' m D :
  bal_ctx C n' m → n' = S n → C ≠ [] → bal D n →
  ∃ t m', rem_walk C D t ∧ bal t m'.
Proof.
  intros HC. revert n D.
  induction HC as [n0|i k r C n0 m Hr HC IH|l i k C n0 m Hl HC IH
                  |j kj lr i k r C n0 m Hlr Hr HC IH
                  |ll j kj i k r C n0 m Hll Hr HC IH
                  |ll j kj lr i k C n0 m Hll Hlr HC IH]; intros n D -> Hne HD; [done|..].
  - (* 2-node, hole on the left *)
    inversion Hr as [|sl b kb sr ? Hsl Hsr|bl b kb br c kc cr ? Hbl Hbr Hcr]; subst.
    + assert (Hst : rem_step (FL false i k (T false sl b kb sr) :: C) D
                    = Some (C, T false (T true D i k sl) b kb sr,
                            match C with [] => true | _ => false end)).
      { simpl. by destruct Hsl. }
      assert (HD' : bal (T false (T true D i k sl) b kb sr) (S n)) by by constructor.
      destruct C as [|f C].
      * eexists _, _. split; [by eapply rem_walk_done|]. simpl. exact HD'.
      * destruct (IH (S n) _ eq_refl ltac:(done) HD') as (t & m' & Hw & Hb).
        exists t, m'. split; [|done]. by eapply rem_walk_more.
    + eexists _, _. split; [by eapply rem_walk_done|].
      eapply bal_plug; [done|]. by repeat constructor.
  - (* 2-node, hole on the right *)
    inversion Hl as [|bl x kx br ? Hbl Hbr|bl x kx br c kc cr ? Hbl Hbr Hcr]; subst.
    + assert (Hst : rem_step (FR false (T false bl x kx br) i k :: C) D
                    = Some (C, T false (T true bl x kx br) i k D,
                            match C with [] => true | _ => false end)).
      { simpl. by destruct Hbl. }
      assert (HD' : bal (T false (T true bl x kx br) i k D) (S n)) by by constructor.
      destruct C as [|f C].
      * eexists _, _. split; [by eapply rem_walk_done|]. simpl. exact HD'.
      * destruct (IH (S n) _ eq_refl ltac:(done) HD') as (t & m' & Hw & Hb).
        exists t, m'. split; [|done]. by eapply rem_walk_more.
    + eexists _, _. split; [by eapply rem_walk_done|].
      eapply bal_plug; [done|]. by repeat constructor.
  - (* 3-node, hole on the left *)
    inversion Hlr as [|cl c kc cr ? Hcl Hcr|cl c kc cr d kd dr ? Hcl Hcr Hdr]; subst.
    + eexists _, _. split.
      { eapply rem_walk_done. simpl.
        instantiate (1 := T false (T false (T true D j kj cl) c kc cr) i k r).
        by destruct Hcl. }
      eapply bal_plug; [done|]. by repeat constructor.
    + eexists _, _. split; [by eapply rem_walk_done|].
      eapply bal_plug; [done|]. by repeat constructor.
  - (* 3-node, hole in the middle *)
    inversion Hll as [|cl c kc cr ? Hcl Hcr|cl c kc cr d kd dr ? Hcl Hcr Hdr]; subst.
    + eexists _, _. split.
      { eapply rem_walk_done. simpl.
        instantiate (1 := T false (T false (T true cl c kc cr) j kj D) i k r).
        by destruct Hcl. }
      eapply bal_plug; [done|]. by repeat constructor.
    + eexists _, _. split; [by eapply rem_walk_done|].
      eapply bal_plug; [done|]. by repeat constructor.
  - (* 3-node, hole on the right *)
    inversion Hlr as [|cl c kc cr ? Hcl Hcr|cl c kc cr d kd dr ? Hcl Hcr Hdr]; subst.
    + eexists _, _. split.
      { eapply rem_walk_done. simpl.
        instantiate (1 := T false ll j kj (T false (T true cl c kc cr) i k D)).
        by destruct Hcl. }
      eapply bal_plug; [done|]. by repeat constructor.
    + eexists _, _. split; [by eapply rem_walk_done|].
      eapply bal_plug; [done|]. by repeat constructor.
Qed.

End RemWalk.


(** ** Removal of a node without right subtree *)

Section Leaf.
Context {KeyT : Type}.
Implicit Types (h : gmap positive (Node.t KeyT)) (t l r D : tree KeyT).
Implicit Types (C : list (frame KeyT)) (s : RedBlackTree KeyT) (n m : nat).

(** [getNextLargestParent] climbs the frames and returns. *)
Lemma getNextLargestParent_loop_total h root z less0 C v node (pl pr : ptr) c k fuel :
  agree_ctx h nullptr less0 C v →
  h !! node = Some (Node.mk pl pr (hole_parent nullptr C) (ty c (hole_side less0 C)) k) →
  length C ≤ fuel →
  ∃ nx, getNextLargestParent_loop fuel (Some node) (hole_parent nullptr C) (mkTree h root z)
        = Ok (nx, mkTree h root z).
Proof.
  revert v node pl pr c k fuel.
  induction C as [|[cf i kf rf|cf lf i kf] C IH]; intros v node pl pr c k fuel HC Hn Hf.
  - exists nullptr. by destruct fuel.
  - destruct fuel as [|fuel]; [simpl in Hf; lia|]. eexists.
    cbn [getNextLargestParent_loop hole_parent frame_id]. norm.
    eapply bind_Ok; [prim|]. by norm.
  - destruct fuel as [|fuel]; [simpl in Hf; lia|].
    destruct HC as (Hi & _ & HC).
    destruct (IH _ _ _ _ _ _ fuel HC Hi) as [nx Hnx]; [simpl in Hf; lia|].
    exists nx. cbn [getNextLargestParent_loop hole_parent frame_id]. norm.
    eapply bind_Ok; [prim|]. norm. cbn [hole_side].
    eapply bind_Ok; [prim|]. norm. exact Hnx.
Qed.

Lemma getNextLargestParent_total h root z less0 f C v :
  agree_ctx h nullptr less0 (f :: C) v → length C ≤ size h →
  ∃ nx, getNextLargestParent (Some (frame_id f)) (mkTree h root z)
        = Ok (nx, mkTree h root z).
Proof.
  intros HC Hlen. unfold getNextLargestParent.
  destruct f as [cf i kf rf|cf lf i kf]; destruct HC as (Hi & _ & HC);
    destruct (getNextLargestParent_loop_total h root z _ _ _ _ _ _ _ _ (S (size h)) HC Hi)
      as [nx Hnx]; try lia; exists nx; cbn [frame_id]; exec; exact Hnx.
Qed.

Lemma leaf_perm C c l node k :
  ctx_before C ++ nodes (T c l node k E) ++ ctx_after C
  ≡ₚ node :: ctx_before C ++ nodes l ++ ctx_after C.
Proof.
  simpl. rewrite <- !app_assoc. simpl. rewrite app_assoc, <- Permutation_middle.
  by rewrite <- !app_assoc.
Qed.

Lemma walk_ctx_length s less0 C v F :
  Walk s less0 C v F → length C + length (nodes F) ≤ size (heap s).
Proof.
  intros [_ _ _ Hnd Hdom]. rewrite (size_heap_nodes _ _ Hnd Hdom).
  pose proof (length_ctx C). rewrite !length_app in *. lia.
Qed.

(** The fields of a [Walk] around the node that is removed, with the
    node at the head of the lists. *)
Ltac leaf_pre HW :=
  destruct HW as [Hctx Hsub Hroot Hnd Hdom];
  rewrite leaf_perm in Hnd;
  rewrite (list_to_set_perm_L _ _ (leaf_perm _ _ _ _ _)) in Hdom.

(** The root is removed and the tree becomes empty. *)
Lemma remove_leaf_root_E s less0 v node k nx :
  Walk s less0 [] v (T false E node k E) →
  ∃ s', remove_leaf (Some node) nx s = Ok ((true, nx), s') ∧
    m_size s' = m_size s ∧ Walk s' less0 [] nullptr E.
Proof.
  destruct s as [h root z]. intros HW. leaf_pre HW.
  simpl in *. break_hyps. pose proof Hnd as Hnd'. atomize Hnd.
  unfold remove_leaf.
  eexists. split; [exec|]. split; [done|].
  split; simpl; [done|done|done|constructor|rewrite dom_delete_L, Hdom; set_solver].
Qed.

(** The root is removed and its RED left child takes its place. *)
Lemma remove_leaf_root_red s less0 v node k j kj nx :
  m_size s = 1%Z →
  Walk s less0 [] v (T false (T true E j kj E) node k E) →
  ∃ s', remove_leaf (Some node) nx s = Ok ((true, nx), s') ∧
    m_size s' = m_size s ∧ Walk s' true [] (Some j) (T false E j kj E).
Proof.
  destruct s as [h root z]. intros Hsz HW. leaf_pre HW.
  simpl in *. break_hyps. subst z. pose proof Hnd as Hnd'. atomize Hnd.
  unfold remove_leaf.
  eexists. split.
  { exec. eapply bind_Ok.
    { unfold when. eapply bind_Ok; [prim|]. cbv beta. norm.
      change (1 =? 1)%Z with true. exec. }
    exec. }
  split; [done|]. assert (node ≠ j) by sets.
  split; simpl; [done|split_and!; [lk|done|done]|done|apply NoDup_singleton|].
  rewrite dom_delete_L. dom_norm. rewrite Hdom. set_solver.
Qed.

(** A BLACK node with a RED left child: the child takes its place. *)
Lemma remove_leaf_black_red s less0 f C node k j kj nx :
  Walk s less0 (f :: C) (Some node) (T false (T true E j kj E) node k E) →
  ∃ s' nx', remove_leaf (Some node) nx s = Ok ((true, nx'), s') ∧
    m_size s' = m_size s ∧ Walk s' less0 (f :: C) (Some j) (T false E j kj E).
Proof.
  destruct s as [h root z]. intros HW.
  pose proof (walk_ctx_length _ _ _ _ _ HW) as Hlen. leaf_pre HW.
  destruct (getNextLargestParent_total h root z _ _ _ _ Hctx) as [nx' Hnx];
    [simpl in Hlen; lia|].
  destruct f as [cp p kp pr|cp pl p kp];
    cbn [heap agree agree_ctx hole_parent hole_side frame_id root_ptr m_root
         ctx_root ctx_before ctx_after nodes app] in *;
    break_hyps; pose proof Hnd as Hnd'; atomize Hnd; unfold remove_leaf;
    (eexists; eexists; split; [exec|]); (split; [done|]);
    walk_post_del Hnd' Hdom.
Qed.

(** A RED node without children is unlinked. *)
Lemma remove_leaf_red s less0 p kp pr C node k nx :
  Walk s less0 (FL false p kp pr :: C) (Some node) (T true E node k E) →
  ∃ s' nx', remove_leaf (Some node) nx s = Ok ((true, nx'), s') ∧
    m_size s' = m_size s ∧ Walk s' less0 (FL false p kp pr :: C) nullptr E.
Proof.
  destruct s as [h root z]. intros HW. leaf_pre HW.
  cbn [heap agree agree_ctx hole_parent hole_side frame_id root_ptr m_root
       ctx_root ctx_before ctx_after nodes app] in *.
  break_hyps. pose proof Hnd as Hnd'. atomize Hnd. unfold remove_leaf.
  eexists. eexists. split; [exec|]. split; [done|].
  walk_post_del Hnd' Hdom.
Qed.

Lemma walk_rwalk s less0 C node c k :
  Walk s less0 C (Some node) (T c E node k E) → RWalk s less0 C (Some node) node E.
Proof.
  intros HW. leaf_pre HW. simpl in *. break_hyps. split; simpl; eauto.
  by exists nullptr, true.
Qed.

(** A BLACK node without children: the walk of [remove] restores the
    balance. *)
Lemma remove_leaf_black s less0 f C node k nx t :
  Walk s less0 (f :: C) (Some node) (T false E node k E) →
  rem_walk (f :: C) E t →
  ∃ s' less1 nx', remove_leaf (Some node) nx s = Ok ((true, nx'), s') ∧
    m_size s' = m_size s ∧ Walk s' less1 [] (root_ptr t) t.
Proof.
  destruct s as [h root z]. intros HW Hw.
  pose proof (walk_ctx_length _ _ _ _ _ HW) as Hlen.
  pose proof (walk_rwalk _ _ _ _ _ _ HW) as HR.
  destruct (rem_loop_walk _ _ _ _ _ _ _ (S (size h)) Hw HR) as (s' & less1 & Hex & Hsz & HW');
    [simpl in *; lia|].
  pose proof (rwalk_root_ne _ _ (f :: C) _ _ _ ltac:(done) HR) as Hne.
  destruct HW as [Hctx Hsub Hroot Hnd Hdom].
  destruct (getNextLargestParent_total h root z _ _ _ _ Hctx) as [nx' Hnx];
    [simpl in Hlen; lia|].
  exists s', less1.
  destruct f as [cp p kp pr|cp pl p kp];
    cbn [heap agree agree_ctx hole_parent hole_side frame_id root_ptr m_root
         ctx_root ctx_before ctx_after nodes app] in *;
    break_hyps; unfold remove_leaf;
    (eexists; split; [|by split]); exec;
    (eapply bind_Ok; [|reflexivity]); exec; rewrite Hne; exec; exact Hex.
Qed.

Lemma bal_0_inv t : bal t 0 → t = E.
Proof. by inversion 1. Qed.

(** [remove_leaf] on a balanced tree: the node leaves the tree and the
    balance is restored. *)
Lemma remove_leaf_spec s less0 C c l node k m nx :
  Walk s less0 C (Some node) (T c l node k E) →
  bal_zip C (T c l node k E) m →
  m_size s = (Z.of_nat (size (heap s)) - 1)%Z →
  ∃ s' less1 nx' t' m',
    remove_leaf (Some node) nx s = Ok ((true, nx'), s') ∧
    m_size s' = m_size s ∧ Walk s' less1 [] (root_ptr t') t' ∧ bal t' m' ∧
    nodes t' = ctx_before C ++ nodes l ++ ctx_after C ∧
    keys t' = keys_before C ++ keys l ++ keys_after C.
Proof.
  intros HW Hz Hsz.
  destruct Hz as [(n & Hb & HC)|(ll & j & kj & lr & i & ki & r & C' & n & Ht & -> & Hll & Hlr & Hr & HC)].
  - inversion Hb as [|? ? ? ? n0 Hl HE|? j kj ? ? ? ? n0 Hll Hlr HE]; subst;
      apply bal_E_inv in HE as ->.
    + apply bal_0_inv in Hl as ->. destruct C as [|f C].
      * destruct (remove_leaf_root_E _ _ _ _ _ nx HW) as (s' & Hex & Hsz' & HW').
        exists s', less0, nx, E, 0. split_and!; [done..|constructor|done|done].
      * destruct (rem_walk_exists (f :: C) 0 _ _ E HC eq_refl) as (t & m' & Hw & Hbt);
          [done|constructor|].
        destruct (remove_leaf_black _ _ _ _ _ _ nx _ HW Hw)
          as (s' & less1 & nx' & Hex & Hsz' & HW').
        destruct (rem_walk_lists _ _ _ Hw) as [Hn Hk].
        exists s', less1, nx', t, m'. by split_and!.
    + apply bal_0_inv in Hll as ->. apply bal_0_inv in Hlr as ->.
      destruct C as [|f C].
      * assert (Hs1 : m_size s = 1%Z).
        { rewrite Hsz. destruct HW as [_ _ _ Hnd Hdom].
          rewrite (size_heap_nodes _ _ Hnd Hdom). simpl. lia. }
        destruct (remove_leaf_root_red _ _ _ _ _ _ _ nx Hs1 HW) as (s' & Hex & Hsz' & HW').
        exists s', true, nx, (T false E j kj E), 1.
        split_and!; [done..|by repeat constructor|done|done].
      * destruct (remove_leaf_black_red _ _ _ _ _ _ _ _ nx HW)
          as (s' & nx' & Hex & Hsz' & HW').
        apply (proj1 (walk_plug _ _ _ (T false E j kj E))) in HW'.
        exists s', less0, nx', (plug (f :: C) (T false E j kj E)), m.
        split_and!; [done..| | |].
        -- eapply bal_plug; [done|]. by repeat constructor.
        -- by rewrite nodes_plug.
        -- by rewrite keys_plug.
  - simplify_eq. assert (n = 0) as -> by by inversion Hlr.
    apply bal_0_inv in Hll as ->.
    destruct (remove_leaf_red _ _ _ _ _ _ _ _ nx HW) as (s' & nx' & Hex & Hsz' & HW').
    apply (proj1 (walk_plug _ _ _ E)) in HW'.
    exists s', less0, nx', (plug (FL false i ki r :: C') E), m.
    split_and!; [done..| | |].
    + simpl. eapply bal_plug; [done|]. by constructor.
    + by rewrite nodes_plug.
    + by rewrite keys_plug.
Qed.

End Leaf.


(** ** Removal: the node changes places with its successor *)

Section Swap.
Context {KeyT : Type}.
Implicit Types (h : gmap positive (Node.t KeyT)) (t l r D : tree KeyT).
Implicit Types (C Cr Cm : list (frame KeyT)) (s : RedBlackTree KeyT) (n m : nat).

(** Contexts in two parts *)

Lemma plug_app C1 C2 t : plug (C1 ++ C2) t = plug C2 (plug C1 t).
Proof. revert t. induction C1 as [|[c i k r|c l i k] C1 IH]; intros t; simpl; by rewrite ?IH. Qed.

Lemma hole_parent_app p0 C1 C2 :
  hole_parent p0 (C1 ++ C2) = hole_parent (hole_parent p0 C2) C1.
Proof. by destruct C1. Qed.

Lemma hole_side_app b0 C1 C2 :
  hole_side b0 (C1 ++ C2) = hole_side (hole_side b0 C2) C1.
Proof. by destruct C1 as [|[]]. Qed.

Lemma ctx_root_app C1 C2 v : ctx_root (C1 ++ C2) v = ctx_root C2 (ctx_root C1 v).
Proof. revert v. induction C1 as [|f C1 IH]; intros v; simpl; by rewrite ?IH. Qed.

Lemma ctx_before_app C1 C2 : ctx_before (C1 ++ C2) = ctx_before C2 ++ ctx_before C1.
Proof.
  induction C1 as [|[c i k r|c l i k] C1 IH]; simpl; rewrite ?IH, ?app_nil_r; [done..|].
  by rewrite <- !app_assoc.
Qed.

Lemma ctx_after_app C1 C2 : ctx_after (C1 ++ C2) = ctx_after C1 ++ ctx_after C2.
Proof.
  induction C1 as [|[c i k r|c l i k] C1 IH]; simpl; rewrite ?IH; [done| |done].
  by rewrite <- ?app_assoc.
Qed.

Lemma keys_before_app C1 C2 : keys_before (C1 ++ C2) = keys_before C2 ++ keys_before C1.
Proof.
  induction C1 as [|[c i k r|c l i k] C1 IH]; simpl; rewrite ?IH, ?app_nil_r; [done..|].
  by rewrite <- !app_assoc.
Qed.

Lemma keys_after_app C1 C2 : keys_after (C1 ++ C2) = keys_after C1 ++ keys_after C2.
Proof.
  induction C1 as [|[c i k r|c l i k] C1 IH]; simpl; rewrite ?IH; [done| |done].
  by rewrite <- ?app_assoc.
Qed.

Lemma agree_ctx_app h p0 b0 C1 C2 v :
  agree_ctx h p0 b0 (C1 ++ C2) v ↔
  agree_ctx h (hole_parent p0 C2) (hole_side b0 C2) C1 v ∧
  agree_ctx h p0 b0 C2 (ctx_root C1 v).
Proof.
  revert v. induction C1 as [|[c i k r|c l i k] C1 IH]; intros v; simpl.
  - tauto.
  - rewrite IH, hole_parent_app, hole_side_app. tauto.
  - rewrite IH, hole_parent_app, hole_side_app. tauto.
Qed.

Lemma agree_plug h p0 b0 C t :
  agree h p0 b0 (plug C t) ↔
  agree_ctx h p0 b0 C (root_ptr t) ∧ agree h (hole_parent p0 C) (hole_side b0 C) t.
Proof.
  revert t. induction C as [|[c i k r|c l i k] C IH]; intros t; simpl.
  - tauto.
  - rewrite IH. simpl. tauto.
  - rewrite IH. simpl. tauto.
Qed.

Lemma root_eqb_hole C a :
  a ∉ ctx_before C → a ∉ ctx_after C →
  ptr_eqb (Some a) (ctx_root C (Some a)) = match C with [] => true | _ => false end.
Proof.
  destruct C as [|f C]; [intros; apply ptr_eqb_refl|]. intros Hb Ha.
  destruct (ctx_root_elem f C (Some a)) as (i & -> & Hi).
  apply ptr_eqb_ne. intros ->. tauto.
Qed.

(** The fields of [Walk] after the nodes have changed places; [Hnd] is
    the node list before and [Hdom] the domain before. *)
Ltac swap_post Hnd Hdom :=
  split; simpl;
  [ try done; split_and?; first [exact I | lk | peel | peel_ctx]
  | split_and?; first [exact I | lk | peel]
  | try done
  | lazymatch goal with
    | |- NoDup ?L2 =>
        lazymatch type of Hnd with
        | NoDup ?L1 =>
            let HP := fresh in
            assert (HP : L1 ≡ₚ L2) by solve_Permutation;
            rewrite <- HP; exact Hnd
        end
    end
  | dom_norm; rewrite Hdom; apply list_to_set_perm_L; solve_Permutation ].

(** The successor is the right child of the node. *)
Lemma swap_adjacent s less0 C c l node k cn next kn :
  Walk s less0 (FR c l node k :: C) (Some next) (T cn E next kn E) →
  ∃ s', (swap (Some node) (Some next) ;;
         root <- get_root ;;
         when (ptr_eqb (Some node) root) (set_root (Some next))) s = Ok ((), s') ∧
    m_size s' = m_size s ∧
    Walk s' less0 (FR c l next kn :: C) (Some node) (T cn E node k E).
Proof.
  destruct s as [h root z]. intros [Hctx Hsub Hroot Hnd Hdom].
  assert (Hrt : ptr_eqb (Some node) root = match C with [] => true | _ => false end).
  { cbn [m_root ctx_root frame_id] in Hroot. rewrite Hroot.
    cbn [ctx_before ctx_after nodes] in Hnd. atomize Hnd.
    apply root_eqb_hole; sets. }
  destruct C as [|[cx x kx rx|cx lx x kx] C]; simpl in *; break_hyps;
    pose proof Hnd as Hnd'; atomize Hnd; unfold swap;
    (eexists; split; [exec; rewrite Hrt; exec|]);
    (split; [done|]); swap_post Hnd' Hdom.
Qed.

(** The successor is the left child of the right child of the node. *)
Lemma swap_near s less0 C c l node k cp p kp pr cn next kn :
  Walk s less0 (FL cp p kp pr :: FR c l node k :: C) (Some next) (T cn E next kn E) →
  ∃ s', (swap (Some node) (Some next) ;;
         root <- get_root ;;
         when (ptr_eqb (Some node) root) (set_root (Some next))) s = Ok ((), s') ∧
    m_size s' = m_size s ∧
    Walk s' less0 (FL cp p kp pr :: FR c l next kn :: C) (Some node) (T cn E node k E).
Proof.
  destruct s as [h root z]. intros [Hctx Hsub Hroot Hnd Hdom].
  assert (Hrt : ptr_eqb (Some node) root = match C with [] => true | _ => false end).
  { cbn [m_root ctx_root frame_id] in Hroot. rewrite Hroot.
    cbn [ctx_before ctx_after nodes] in Hnd. atomize Hnd.
    apply root_eqb_hole; sets. }
  destruct C as [|[cx x kx rx|cx lx x kx] C]; simpl in *; break_hyps;
    pose proof Hnd as Hnd'; atomize Hnd; unfold swap;
    (eexists; split; [exec; rewrite Hrt; exec|]);
    (split; [done|]); swap_post Hnd' Hdom.
Qed.

Ltac ctx_app :=
  rewrite ?agree_ctx_app, ?hole_parent_app, ?hole_side_app, ?ctx_root_app,
    ?ctx_before_app, ?ctx_after_app.
Ltac ctx_app_in H :=
  rewrite ?agree_ctx_app, ?hole_parent_app, ?hole_side_app, ?ctx_root_app,
    ?ctx_before_app, ?ctx_after_app in H.

(** The successor lies deeper in the right subtree of the node. *)
Lemma swap_far s less0 C c l node k cq q kq qr Cm cp p kp pr cn next kn :
  Walk s less0 (FL cp p kp pr :: Cm ++ FL cq q kq qr :: FR c l node k :: C)
    (Some next) (T cn E next kn E) →
  ∃ s', (swap (Some node) (Some next) ;;
         root <- get_root ;;
         when (ptr_eqb (Some node) root) (set_root (Some next))) s = Ok ((), s') ∧
    m_size s' = m_size s ∧
    Walk s' less0 (FL cp p kp pr :: Cm ++ FL cq q kq qr :: FR c l next kn :: C)
      (Some node) (T cn E node k E).
Proof.
  destruct s as [h root z]. intros [Hctx Hsub Hroot Hnd Hdom].
  cbn [agree_ctx agree hole_parent hole_side ctx_root ctx_before ctx_after
       frame_id heap m_root nodes root_ptr] in *.
  ctx_app_in Hctx. ctx_app_in Hroot. ctx_app_in Hnd. ctx_app_in Hdom.
  assert (Hrt : ptr_eqb (Some node) root = match C with [] => true | _ => false end).
  { cbn [m_root ctx_root frame_id] in Hroot. rewrite Hroot.
    cbn [ctx_before ctx_after nodes] in Hnd. atomize Hnd.
    apply root_eqb_hole; sets. }
  destruct C as [|[cx x kx rx|cx lx x kx] C]; simpl in *; break_hyps;
    pose proof Hnd as Hnd'; atomize Hnd; unfold swap;
    (eexists; split; [exec; rewrite Hrt; exec|]);
    (split; [done|]);
    (split;
     cbn [agree_ctx agree hole_parent hole_side ctx_root ctx_before ctx_after
          frame_id heap m_root nodes root_ptr];
     ctx_app; simpl;
     [ try done; split_and?; first [exact I | lk | peel | peel_ctx]
     | split_and?; first [exact I | lk | peel]
     | try done
     | lazymatch goal with
       | |- NoDup ?L2 =>
           lazymatch type of Hnd' with
           | NoDup ?L1 =>
               let HP := fresh in
               assert (HP : L1 ≡ₚ L2) by solve_Permutation;
               rewrite <- HP; exact Hnd'
           end
       end
     | dom_norm; rewrite Hdom; apply list_to_set_perm_L; solve_Permutation ]).
Qed.

(** The leftmost node of a subtree; the frames above it are all entered
    from the left. *)
Lemma leftmost_split r :
  r ≠ E → ∃ Cr cn next kn nr, r = plug Cr (T cn E next kn nr) ∧ ctx_before Cr = [].
Proof.
  induction r as [|c l IHl i k r _]; [done|]. intros _.
  destruct l as [|cl ll il kl lr].
  - by exists [], c, i, k, r.
  - destruct IHl as (Cr & cn & next & kn & nr & Heq & Hb); [done|].
    exists (Cr ++ [FL c i k r]), cn, next, kn, nr. split.
    + by rewrite plug_app, <- Heq.
    + by rewrite ctx_before_app.
Qed.

Lemma ctx_before_nil_cases Cr :
  ctx_before Cr = [] →
  Cr = [] ∨ (∃ cp p kp pr, Cr = [FL cp p kp pr]) ∨
  (∃ cp p kp pr Cm cq q kq qr, Cr = FL cp p kp pr :: Cm ++ [FL cq q kq qr]).
Proof.
  destruct Cr as [|[cp p kp pr|cp pl p kp] Cr]; [by left| |].
  - intros Hb. right. destruct Cr as [|fq Cm _] using rev_ind; [left; eauto|].
    right. cbn [ctx_before] in Hb. rewrite ctx_before_app in Hb.
    destruct fq as [cq q kq qr|cq ql q kq]; [eauto 10|].
    simpl in Hb. by destruct (nodes ql).
  - simpl. intros Hb. by apply app_nil in Hb as [_ [_ ?]%app_nil].
Qed.

Lemma keys_before_nil C : ctx_before C = [] → keys_before C = [].
Proof.
  intros Hb. apply length_zero_iff_nil. rewrite <- length_ctx_before, Hb. done.
Qed.

(** [swap( node, next )] followed by the update of the root pointer. *)
Lemma swap_spec s less0 C c l node k Cr cn next kn :
  ctx_before Cr = [] →
  Walk s less0 (Cr ++ FR c l node k :: C) (Some next) (T cn E next kn E) →
  ∃ s', (swap (Some node) (Some next) ;;
         root <- get_root ;;
         when (ptr_eqb (Some node) root) (set_root (Some next))) s = Ok ((), s') ∧
    m_size s' = m_size s ∧
    Walk s' less0 (Cr ++ FR c l next kn :: C) (Some node) (T cn E node k E).
Proof.
  intros [->|[(cp & p & kp & pr & ->)|(cp & p & kp & pr & Cm & cq & q & kq & qr & ->)]]%ctx_before_nil_cases HW.
  - by apply swap_adjacent.
  - by apply swap_near.
  - simpl in *. rewrite <- app_assoc in *. simpl in *. by apply swap_far.
Qed.

(** [getNextLargestChild] finds the leftmost node of the right subtree. *)
Lemma getNextLargestChild_loop_head h root z par b t fuel :
  agree h par b t → t ≠ E → height t ≤ S fuel →
  getNextLargestChild_loop fuel (root_ptr t) (mkTree h root z)
  = Ok (head (nodes t), mkTree h root z).
Proof.
  revert par b fuel. induction t as [|c l IHl i k r _]; intros par b fuel; [done|].
  intros (Hi & Hl & Hr) _ Hf. cbn [root_ptr nodes height] in *.
  destruct fuel as [|fuel]; cbn [getNextLargestChild_loop].
  - eapply bind_Ok; [prim|]. norm. destruct l; [done|simpl in Hf; lia].
  - eapply bind_Ok; [prim|]. norm. destruct l as [|cl ll il kl rl]; [done|].
    norm. etrans; [eapply IHl; [done|done|lia]|].
    cbn [nodes]. by destruct (nodes ll).
Qed.

Lemma head_leftmost Cr cn next kn nr :
  ctx_before Cr = [] → head (nodes (plug Cr (T cn E next kn nr))) = Some next.
Proof. intros Hb. by rewrite nodes_plug, Hb. Qed.

End Swap.


(** ** Removal of a node *)

Section Remove.
Context {KeyT : Type}.
Implicit Types (h : gmap positive (Node.t KeyT)) (t l r D : tree KeyT).
Implicit Types (C Cr : list (frame KeyT)) (s : RedBlackTree KeyT) (n m : nat).

(** Balance read at a hole *)

Lemma bal_plug_inv C t m : bal (plug C t) m → bal_zip C t m.
Proof.
  revert t. induction C as [|f C IH]; intros t Hb; [by apply bal_zip_root|].
  destruct f as [c i k r|c l i k]; simpl in Hb; apply IH in Hb;
    destruct Hb as [(n & Hb & HC)|(ll & j & kj & lr & i0 & k0 & r0 & C' & n & Ht & -> & Hll & Hlr & Hr & HC)].
  - inversion Hb; subst.
    + left. eexists. split; [done|]. by constructor.
    + right. eauto 20.
  - injection Ht as -> -> -> -> ->. left. eexists. split; [done|]. by constructor.
  - inversion Hb; subst.
    + left. eexists. split; [done|]. by constructor.
    + left. eexists. split; [done|]. by constructor.
  - injection Ht as -> -> -> -> ->. left. eexists. split; [done|]. by constructor.
Qed.

Lemma bal_zip_plug C t m : bal_zip C t m → bal (plug C t) m.
Proof.
  intros [(n & Hb & HC)|(ll & j & kj & lr & i & k & r & C' & n & -> & -> & Hll & Hlr & Hr & HC)].
  - by eapply bal_plug.
  - simpl. eapply bal_plug; [done|]. by constructor.
Qed.

(** Balance does not depend on the addresses and keys. *)
Lemma bal_zip_relabel C c l i k r i' k' m :
  bal_zip C (T c l i k r) m → bal_zip C (T c l i' k' r) m.
Proof.
  intros [(n & Hb & HC)|(ll & j & kj & lr & i0 & k0 & r0 & C' & n & Ht & -> & Hll & Hlr & Hr & HC)].
  - left. exists n. split; [|done]. inversion Hb; subst; by constructor.
  - injection Ht as -> -> -> -> ->. right. eauto 20.
Qed.

Lemma bal_swap C c l node k Cr cn next kn m :
  bal (plug C (T c l node k (plug Cr (T cn E next kn E)))) m →
  bal_zip (Cr ++ FR c l next kn :: C) (T cn E node k E) m.
Proof.
  intros Hb%bal_plug_inv%(bal_zip_relabel _ _ _ _ _ _ next kn)%bal_zip_plug.
  change (plug C (T c l next kn ?R)) with (plug (FR c l next kn :: C) R) in Hb.
  rewrite <- plug_app in Hb.
  by apply bal_plug_inv, (bal_zip_relabel _ _ _ _ _ _ node k) in Hb.
Qed.

(** The leftmost node of a balanced subtree has no children. *)
Lemma bal_leftmost_leaf C cn next kn nr m :
  bal (plug C (T cn E next kn nr)) m → nr = E.
Proof.
  intros [(n & Hb & HC)|(ll & j & kj & lr & i0 & k0 & r0 & C' & n & Ht & -> & Hll & Hlr & Hr & HC)]%bal_plug_inv.
  - inversion Hb as [|? ? ? ? n0 Hl Hr|]; subst. apply bal_E_inv in Hl as ->.
    by apply bal_0_inv in Hr.
  - injection Ht as -> <- -> -> ->. apply bal_E_inv in Hll as ->.
    by apply bal_0_inv in Hlr.
Qed.

Lemma walk_size h root z z' less0 C v F :
  Walk (mkTree h root z) less0 C v F → Walk (mkTree h root z') less0 C v F.
Proof. intros [? ? ? ? ?]. by split. Qed.

Lemma rep_of_walk s less0 t v :
  Walk s less0 [] v t → m_size s = Z.of_nat (length (nodes t)) →
  (Z.of_nat (length (nodes t)) ≤ SIZE_MAX)%Z → Rep s less0 t.
Proof.
  intros HW Hsz Hb. apply Rep_Walk.
  pose proof HW as [_ _ _ Hnd Hdom]. simpl in Hnd, Hdom. rewrite app_nil_r in *.
  rewrite (size_heap_nodes _ _ Hnd Hdom). split_and!; [|done..].
  by eapply walk_nil_any.
Qed.

(** The first statements of [remove( Node *, Node * & )]. *)
Lemma remove_node_next_size node h root z R :
  (next <- getNextLargestChild (Some node) ;;
   when (ptr_neqb next nullptr)
     (swap (Some node) next ;;
      root <- get_root ;;
      when (ptr_eqb (Some node) root) (set_root next)) ;;
   remove_leaf (Some node) next) (mkTree h root (SizeT (z - 1))) = R →
  remove_node_next (Some node) (mkTree h root z) = R.
Proof.
  intros <-. unfold remove_node_next.
  eapply bind_Ok; [norm; prim|]. eapply bind_Ok; [prim|]. norm.
  eapply bind_Ok; [prim|]. done.
Qed.

(** The node has no right subtree. *)
Lemma remove_node_leaf h root z less0 C c l node k m :
  Walk (mkTree h root z) less0 C (Some node) (T c l node k E) →
  bal (plug C (T c l node k E)) m →
  z = Z.of_nat (size h) → (z ≤ SIZE_MAX)%Z →
  ∃ s' less1 nx t' m',
    remove_node_next (Some node) (mkTree h root z) = Ok ((true, nx), s') ∧
    Rep s' less1 t' ∧ bal t' m' ∧
    nodes t' = ctx_before C ++ nodes l ++ ctx_after C ∧
    keys t' = keys_before C ++ keys l ++ keys_after C.
Proof.
  intros HW Hb Hz Hbound.
  assert (Hlen : size h = S (length (ctx_before C ++ nodes l ++ ctx_after C))).
  { destruct HW as [_ _ _ Hnd Hdom]. simpl in Hnd, Hdom.
    rewrite (size_heap_nodes _ _ Hnd Hdom).
    repeat (rewrite ?length_app; simpl). lia. }
  assert (Hz1 : SizeT (z - 1) = (Z.of_nat (size h) - 1)%Z).
  { unfold SizeT. rewrite Z.mod_small; unfold SIZE_MAX in *; lia. }
  pose proof (walk_size _ _ _ (SizeT (z - 1)) _ _ _ _ HW) as HW1.
  destruct (remove_leaf_spec _ _ _ _ _ _ _ m nullptr HW1)
    as (s' & less1 & nx & t' & m' & Hex & Hsz & HW' & Hb' & Hn & Hk);
    [by apply bal_plug_inv|done|].
  exists s', less1, nx, t', m'. split_and!; [|..|done|done|done].
  - apply remove_node_next_size.
    destruct HW as [_ (Hnode & _ & _) _ _ _]. simpl in Hnode.
    eapply bind_Ok.
    { unfold getNextLargestChild. exec. }
    cbv beta. norm. eapply bind_Ok; [prim|]. exact Hex.
  - eapply rep_of_walk; [done|..].
    + rewrite Hsz, Hn. simpl. rewrite Hz1, Hlen. lia.
    + rewrite Hn. lia.
Qed.

Lemma getNextLargestChild_head h root z (pl p0 : ptr) ty0 node k R :
  h !! node = Some (Node.mk pl (root_ptr R) p0 ty0 k) →
  agree h (Some node) false R → height R ≤ S (size h) →
  getNextLargestChild (Some node) (mkTree h root z)
  = Ok (head (nodes R), mkTree h root z).
Proof.
  intros Hn HR Hh. unfold getNextLargestChild.
  eapply bind_Ok; [norm; prim|]. eapply bind_Ok; [prim|]. cbv beta.
  eapply bind_Ok; [prim|]. norm.
  destruct R as [|cr rl ri rk rr]; [done|]. cbn [root_ptr]. norm.
  change (Some ri) with (root_ptr (T cr rl ri rk rr)).
  eapply getNextLargestChild_loop_head; [done|done|]. cbn [heap]. lia.
Qed.

(** The node has a right subtree and changes places with its successor. *)
Lemma remove_node_swap h root z less0 v C c l node k Cr cn next kn m :
  ctx_before Cr = [] →
  Walk (mkTree h root z) less0 [] v (plug C (T c l node k (plug Cr (T cn E next kn E)))) →
  bal (plug C (T c l node k (plug Cr (T cn E next kn E)))) m →
  z = Z.of_nat (size h) → (z ≤ SIZE_MAX)%Z →
  ∃ s' less1 nx t' m',
    remove_node_next (Some node) (mkTree h root z) = Ok ((true, nx), s') ∧
    Rep s' less1 t' ∧ bal t' m' ∧
    nodes t' = ctx_before C ++ nodes l ++ next :: ctx_after Cr ++ ctx_after C ∧
    keys t' = keys_before C ++ keys l ++ kn :: keys_after Cr ++ keys_after C.
Proof.
  intros HCr HW0 Hb Hz Hbound.
  pose proof (keys_before_nil _ HCr) as HKr.
  apply (walk_nil_any _ _ _ (root_ptr (plug C (T c l node k (plug Cr (T cn E next kn E)))))) in HW0.
  pose proof (proj2 (walk_plug _ _ _ _) HW0) as HWn. cbn [root_ptr] in HWn.
  change (plug C (T c l node k ?R)) with (plug (FR c l node k :: C) R) in HW0.
  rewrite <- plug_app in HW0. apply walk_plug in HW0. cbn [root_ptr] in HW0.
  assert (Hlen : size h = S (S (length (ctx_before C ++ nodes l ++ ctx_after Cr ++ ctx_after C)))).
  { destruct HW0 as [_ _ _ Hnd Hdom]. simpl in Hnd, Hdom.
    rewrite (size_heap_nodes _ _ Hnd Hdom).
    rewrite ctx_before_app, ctx_after_app, HCr.
    repeat (rewrite ?length_app; simpl). lia. }
  assert (Hz1 : SizeT (z - 1) = (Z.of_nat (size h) - 1)%Z).
  { unfold SizeT. rewrite Z.mod_small; unfold SIZE_MAX in *; lia. }
  pose proof (walk_size _ _ _ (SizeT (z - 1)) _ _ _ _ HW0) as HW1.
  destruct (swap_spec _ _ _ _ _ _ _ _ _ _ _ HCr HW1) as (s2 & Hsw & Hsz2 & HW2).
  assert (Hlen2 : size (heap s2) = size h).
  { destruct HW2 as [_ _ _ Hnd Hdom].
    rewrite (size_heap_nodes _ _ Hnd Hdom), Hlen.
    rewrite ctx_before_app, ctx_after_app, HCr.
    repeat (rewrite ?length_app; simpl). lia. }
  destruct (remove_leaf_spec _ _ _ _ _ _ _ m (Some next) HW2)
    as (s' & less1 & nx & t' & m' & Hex & Hsz & HW' & Hb' & Hn & Hk).
  { by apply bal_swap. }
  { rewrite Hsz2, Hlen2. exact Hz1. }
  rewrite ctx_before_app, ctx_after_app, HCr in Hn.
  rewrite keys_before_app, keys_after_app, HKr in Hk.
  simpl in Hn, Hk. rewrite app_nil_r, <- !app_assoc in Hn, Hk. simpl in Hn, Hk.
  exists s', less1, nx, t', m'. split_and!; [|..|done|done|done].
  - apply remove_node_next_size.
    destruct HWn as [_ (Hnode & _ & HR) _ Hnd Hdom]. simpl in Hnode, HR.
    eapply bind_Ok.
    { eapply getNextLargestChild_head; [done..|].
      etrans; [apply height_nodes|]. simpl in Hnd, Hdom.
      rewrite (size_heap_nodes _ _ Hnd Hdom).
      repeat (rewrite ?length_app; simpl). lia. }
    rewrite head_leftmost by done. cbv beta. norm.
    eapply bind_Ok; [unfold when; exact Hsw|]. exact Hex.
  - eapply rep_of_walk; [done|..].
    + rewrite Hsz, Hsz2, Hn. simpl. rewrite Hz1, Hlen.
      repeat (rewrite ?length_app; simpl). lia.
    + rewrite Hn. revert Hbound. rewrite Hz, Hlen.
      repeat (rewrite ?length_app; simpl). lia.
Qed.

(** [remove( Node *, Node * & )] on a balanced tree: the node leaves the
    in-order list, its key leaves the list of keys, and the tree is
    balanced again. *)
Lemma remove_node_spec s less0 t m node :
  Rep s less0 t → bal t m → node ∈ nodes t →
  ∃ s' less1 nx t' m' (l1 l2 : list positive) (k1 : list KeyT) k (k2 : list KeyT),
    remove_node_next (Some node) s = Ok ((true, nx), s') ∧
    Rep s' less1 t' ∧ bal t' m' ∧
    nodes t = l1 ++ node :: l2 ∧ nodes t' = l1 ++ l2 ∧
    keys t = k1 ++ k :: k2 ∧ keys t' = k1 ++ k2 ∧ length l1 = length k1.
Proof.
  intros HR Hb Hin.
  destruct (node_zipper t [] node Hin) as (C & c & l & k & r & Hplug).
  cbn [plug] in Hplug. subst t.
  pose proof HR as [_ _ _ _ Hsz Hbound].
  apply Rep_Walk in HR as (HW & _ & _).
  destruct s as [h root z]. simpl in Hsz, Hbound. rewrite <- Hsz in Hbound.
  assert (Hlen : length (ctx_before C ++ nodes l) = length (keys_before C ++ keys l)).
  { by rewrite !length_app, length_ctx_before, length_nodes_keys. }
  destruct r as [|cr rl ri rk rr].
  - apply walk_plug in HW. cbn [root_ptr] in HW.
    destruct (remove_node_leaf _ _ _ _ _ _ _ _ _ _ HW Hb Hsz Hbound)
      as (s' & less1 & nx & t' & m' & Hex & HR' & Hb' & Hn & Hk).
    exists s', less1, nx, t', m', (ctx_before C ++ nodes l), (ctx_after C),
      (keys_before C ++ keys l), k, (keys_after C).
    rewrite nodes_plug, keys_plug, Hn, Hk. simpl.
    split_and!; try done; by rewrite <- !app_assoc.
  - destruct (leftmost_split (T cr rl ri rk rr)) as (Cr & cn & next & kn & nr & Heq & HCr);
      [done|].
    rewrite Heq in *. clear Heq.
    assert (nr = E) as ->.
    { change (plug C (T c l node k ?R)) with (plug (FR c l node k :: C) R) in Hb.
      rewrite <- plug_app in Hb. by eapply bal_leftmost_leaf. }
    destruct (remove_node_swap _ _ _ _ _ _ _ _ _ _ _ _ _ _ _ HCr HW Hb Hsz Hbound)
      as (s' & less1 & nx & t' & m' & Hex & HR' & Hb' & Hn & Hk).
    exists s', less1, nx, t', m', (ctx_before C ++ nodes l),
      (next :: ctx_after Cr ++ ctx_after C),
      (keys_before C ++ keys l), k, (kn :: keys_after Cr ++ keys_after C).
    rewrite nodes_plug, keys_plug. cbn [nodes keys].
    rewrite nodes_plug, keys_plug, Hn, Hk, HCr, (keys_before_nil _ HCr). simpl.
    split_and!; try done; by rewrite <- !app_assoc.
Qed.

End Remove.


(** ** The invariant of the container *)

Section Invariant.
Context {KeyT : Type} (less : KeyT → KeyT → bool).
Implicit Types (h : gmap positive (Node.t KeyT)) (t : tree KeyT).
Implicit Types (s : RedBlackTree KeyT) (key : KeyT).
Local Notation lt := (λ a b : KeyT, less a b = true).

Lemma sorted_remove (k1 k2 : list KeyT) k :
  StronglySorted lt (k1 ++ k :: k2) → StronglySorted lt (k1 ++ k2).
Proof.
  rewrite !StronglySorted_app, StronglySorted_cons.
  intros (H1 & H2 & _ & H3). split_and!; [|done..].
  intros x1 x2 Hx1 Hx2. apply H1; [done|]. by right.
Qed.

(** The key of the node that [remove( Node *, Node * & )] takes out. *)
Lemma remove_node_key s less0 t m node :
  Rep s less0 t → bal t m → node ∈ nodes t →
  ∃ s' less1 nx t' m' (l1 l2 : list positive) (k1 : list KeyT) k (k2 : list KeyT),
    remove_node_next (Some node) s = Ok ((true, nx), s') ∧
    Rep s' less1 t' ∧ bal t' m' ∧
    nodes t = l1 ++ node :: l2 ∧ nodes t' = l1 ++ l2 ∧
    keys t = k1 ++ k :: k2 ∧ keys t' = k1 ++ k2 ∧
    key_at (heap s) node = Some k.
Proof.
  intros HR Hb Hin.
  destruct (remove_node_spec s less0 t m node HR Hb Hin)
    as (s' & less1 & nx & t' & m' & l1 & l2 & k1 & k & k2 & Hex & HR' & Hb' & Hn & Hn' & Hk & Hk' & Hlen).
  exists s', less1, nx, t', m', l1, l2, k1, k, k2. split_and!; try done.
  destruct HR as [Ha _ _ _ _ _]. apply agree_keys in Ha.
  assert (Hi : nodes t !! length l1 = Some node) by (rewrite Hn; apply list_lookup_middle; done).
  destruct (Forall2_lookup_l _ _ _ _ _ Ha Hi) as (k' & Hk1 & Hkey).
  rewrite Hk, Hlen, list_lookup_middle in Hk1 by done. by injection Hk1 as ->.
Qed.

Lemma Inv_empty : Inv less (@empty_tree KeyT).
Proof.
  exists true, E, 0. split_and!; [|constructor|constructor].
  split; simpl; try done. constructor.
Qed.

Context (Hless : StrictTotal less).

Lemma Inv_add s key r s' :
  Inv less s → add_key_node less key s = Ok (r, s') → Inv less s'.
Proof using Hless.
  intros (less0 & t & m & HR & Hb & Hs) Hadd.
  destruct (key_in_or_not less Hless t key Hs) as [Hin|Hout].
  - destruct (add_found less Hless s less0 t key HR Hs Hin) as (p & Hex & _).
    rewrite Hex in Hadd. injection Hadd as <- <-. by exists less0, t, m.
  - destruct (decide (Z.of_nat (size (heap s)) < SIZE_MAX)%Z) as [Hsz|Hsz].
    + destruct (add_new less Hless s less0 t m key HR Hb Hs Hout Hsz)
        as (a & s1 & less1 & t' & m' & Hex & HR' & Hb' & Hs' & _).
      rewrite Hex in Hadd. injection Hadd as <- <-. by exists less1, t', m'.
    + by rewrite (add_full less Hless s less0 t key HR Hout Hsz) in Hadd.
Qed.

Lemma Inv_remove_node s node r s' :
  Inv less s → is_Some (heap s !! node) →
  remove_node_next (Some node) s = Ok (r, s') → Inv less s'.
Proof.
  intros (less0 & t & m & HR & Hb & Hs) Hlive Hrem.
  apply (rep_in_nodes s less0 t node HR) in Hlive.
  destruct (remove_node_key s less0 t m node HR Hb Hlive)
    as (s1 & less1 & nx & t' & m' & l1 & l2 & k1 & k & k2 & Hex & HR' & Hb' & _ & _ & Hk & Hk' & _).
  rewrite Hex in Hrem. injection Hrem as <- <-. exists less1, t', m'.
  split_and!; [done..|]. unfold bst in *. rewrite Hk'. rewrite Hk in Hs.
  by eapply sorted_remove.
Qed.

(** Removal of a key that is absent. *)
Lemma remove_absent s less0 t key next :
  Rep s less0 t → key ∉ keys t →
  remove_key_next less key next s = Ok ((false, next), s) ∧
  find less key s = Ok (nullptr, s).
Proof using Hless.
  intros HR Hout.
  assert (Hf : find less key s = Ok (nullptr, s)).
  { rewrite (find_Rep less s less0 t key HR).
    destruct (descend less key t []) as [C' t'] eqn:Hd.
    by rewrite (descend_absent_E less Hless key t C' t' Hout Hd). }
  split; [|done]. unfold remove_key_next. eapply bind_Ok; [exact Hf|]. done.
Qed.

(** Removal of a key that is present. *)
Lemma remove_present s less0 t m key next :
  Rep s less0 t → bal t m → bst less t → key ∈ keys t →
  ∃ s' less1 nx t' m' (k1 k2 : list KeyT),
    remove_key_next less key next s = Ok ((true, nx), s') ∧
    Rep s' less1 t' ∧ bal t' m' ∧ bst less t' ∧
    keys t = k1 ++ key :: k2 ∧ keys t' = k1 ++ k2 ∧
    length (nodes t) = S (length (nodes t')).
Proof using Hless.
  intros HR Hb Hs Hin.
  destruct (add_found less Hless s less0 t key HR Hs Hin) as (p & _ & Hkey & Hp & Hf).
  destruct (remove_node_key s less0 t m p HR Hb Hp)
    as (s1 & less1 & nx & t' & m' & l1 & l2 & k1 & k & k2 & Hex & HR' & Hb' & Hn & Hn' & Hk & Hk' & Hkp).
  assert (k = key) as -> by congruence.
  exists s1, less1, nx, t', m', k1, k2. split_and!; try done.
  - unfold remove_key_next. eapply bind_Ok; [exact Hf|]. norm. exact Hex.
  - unfold bst in *. rewrite Hk'. rewrite Hk in Hs. by eapply sorted_remove.
  - rewrite Hn, Hn', !length_app. simpl. lia.
Qed.

Lemma Inv_remove s key next r s' :
  Inv less s → remove_key_next less key next s = Ok (r, s') → Inv less s'.
Proof using Hless.
  intros (less0 & t & m & HR & Hb & Hs) Hrem.
  destruct (key_in_or_not less Hless t key Hs) as [Hin|Hout].
  - destruct (remove_present s less0 t m key next HR Hb Hs Hin)
      as (s1 & less1 & nx & t' & m' & k1 & k2 & Hex & HR' & Hb' & Hs' & _).
    rewrite Hex in Hrem. injection Hrem as <- <-. by exists less1, t', m'.
  - destruct (remove_absent s less0 t key next HR Hout) as [Hex _].
    rewrite Hex in Hrem. injection Hrem as <- <-. by exists less0, t, m.
Qed.

(** Every reachable tree object satisfies the invariant. *)
Lemma reachable_Inv s : reachable less s → Inv less s.
Proof using Hless.
  induction 1 as [|s key r s' _ IH Hadd|s key next r s' _ IH Hrem|s node r s' _ IH Hlive Hrem].
  - apply Inv_empty.
  - by eapply Inv_add.
  - by eapply Inv_remove.
  - by eapply Inv_remove_node.
Qed.

End Invariant.


(** ** The invariants of the specification, from the invariant of the
    container *)

Section Invariants.
Context {KeyT : Type} (less : KeyT → KeyT → bool).
Implicit Types (h : gmap positive (Node.t KeyT)) (t l r : tree KeyT).
Implicit Types (C : list (frame KeyT)) (s : RedBlackTree KeyT) (key k : KeyT).
Local Notation lt := (λ a b : KeyT, less a b = true).

(** A live node is the root of a subtree below some context. *)
Lemma shape_node s less0 t p n :
  TreeShape s less0 t → heap s !! p = Some n →
  ∃ C c l k r, t = plug C (T c l p k r) ∧
    n = Node.mk (root_ptr l) (root_ptr r) (hole_parent nullptr C)
          (ty c (hole_side less0 C)) k ∧
    Walk s less0 C (Some p) (T c l p k r).
Proof.
  intros HR Hp. assert (Hin : p ∈ nodes t).
  { destruct HR as [_ _ _ Hd].
    assert (p ∈ nodes t ↔ is_Some (heap s !! p)) as ->; [|by eexists].
    by rewrite <- elem_of_dom, Hd, elem_of_list_to_set. }
  destruct (node_zipper t [] p Hin) as (C & c & l & k & r & Hplug).
  cbn [plug] in Hplug. subst t.
  apply TreeShape_Walk in HR as HW. apply walk_plug in HW. cbn [root_ptr] in HW.
  exists C, c, l, k, r. split; [done|]. split; [|done].
  destruct HW as [_ (Hn & _) _ _ _]. congruence.
Qed.

Lemma rep_node s less0 t p n :
  Rep s less0 t → heap s !! p = Some n →
  ∃ C c l k r, t = plug C (T c l p k r) ∧
    n = Node.mk (root_ptr l) (root_ptr r) (hole_parent nullptr C)
          (ty c (hole_side less0 C)) k ∧
    Walk s less0 C (Some p) (T c l p k r).
Proof. intros HR. apply shape_node. by apply Rep_TreeShape. Qed.

Lemma root_ptr_Some t i : root_ptr t = Some i → ∃ c l k r, t = T c l i k r.
Proof. destruct t as [|c l j k r]; [done|]. intros [= ->]. eauto. Qed.

Lemma root_ptr_None t : root_ptr t = nullptr → t = E.
Proof. by destruct t. Qed.

Lemma Inv_root_black s : Inv less s → root_black s.
Proof.
  intros (less0 & t & m & HR & Hb & _) i Hi.
  destruct HR as [Ha Hr _ _ _ _]. rewrite Hr in Hi.
  apply root_ptr_Some in Hi as (c & l & k & r & ->).
  apply bal_not_red in Hb as ->. destruct Ha as (Hn & _).
  eexists. split; [done|]. by norm.
Qed.

Lemma Inv_red_leans_left s : Inv less s → red_leans_left s.
Proof.
  intros (less0 & t & m & HR & Hb & _) p n Hp Hred.
  destruct (rep_node s less0 t p n HR Hp) as (C & c & l & k & r & -> & -> & HW).
  rewrite isRed_mk in Hred. subst c.
  apply bal_plug_inv in Hb
    as [(n0 & Hb & _)|(ll & j & kj & lr & i & ki & ri & C' & n0 & Ht & -> & _)].
  { by apply bal_not_red in Hb. }
  destruct HW as [(Hi & _) _ _ _ _]. cbn [hole_parent hole_side frame_id].
  norm. split; [done|]. eexists _, _. split_and!; [done|done|by norm|by norm].
Qed.

Lemma Inv_size s : Inv less s → size_counts s.
Proof. intros (less0 & t & m & HR & _). by destruct HR. Qed.

Lemma Inv_lone_child_red s : Inv less s → lone_child_red s.
Proof.
  intros (less0 & t & m & HR & Hb & _) p n i Hp Hl Hr.
  destruct (rep_node s less0 t p n HR Hp) as (C & c & l & k & r & -> & -> & HW).
  norm. apply root_ptr_Some in Hl as (cl & ll & kl & lr & ->).
  apply root_ptr_None in Hr as ->.
  destruct HW as [_ (_ & (Hi & _) & _) _ _ _].
  eexists. split; [done|]. norm.
  apply bal_plug_inv in Hb
    as [(n0 & Hb & _)|(ll' & j & kj & lr' & i0 & ki & ri & C' & n0 & Ht & -> & Hll & Hlr & _)].
  - inversion Hb as [|? ? ? ? ? Hl HE|]; subst; [|done].
    apply bal_E_inv in HE as ->. by apply bal_0_inv in Hl.
  - simplify_eq. apply bal_E_inv in Hlr as ->. by apply bal_0_inv in Hll.
Qed.

Context (Hless : StrictTotal less).

Lemma Inv_relation_ordered s : Inv less s → relation_ordered less s.
Proof using Hless.
  intros (less0 & t & m & HR & _ & Hs) p n q nq Hp Hpar Hq.
  destruct (rep_node s less0 t p n HR Hp) as (C & c & l & k & r & -> & -> & HW).
  rewrite getParent_mk in Hpar. norm.
  apply bst_plug in Hs. destruct HW as [HC _ _ _ _].
  destruct C as [|[cf i ki ri|cf li i ki] C]; [done|..];
    cbn [hole_parent hole_side frame_id] in *; simplify_eq;
    destruct HC as (Hi & _); rewrite Hq in Hi; simplify_eq; norm;
    cbn [keys_before keys_after keys] in Hs.
  - rewrite app_assoc in Hs.
    apply (StronglySorted_app_1_elem_of _ _ _ k ki) in Hs; [done| |by left].
    rewrite !elem_of_app, elem_of_cons. tauto.
  - apply (StronglySorted_app_1_elem_of _ _ _ ki k) in Hs; [done|..];
      rewrite !elem_of_app, ?elem_of_cons; tauto.
Qed.

(** *** Neighbours in the sorted list of keys *)

Lemma holds_key_keys s less0 t k : Rep s less0 t → holds_key s k ↔ k ∈ keys t.
Proof.
  intros HR. rewrite (rep_key_in s less0 t k HR). unfold holds_key, key_at. split.
  - intros (p & Hp). destruct (heap s !! p) as [n|] eqn:Hn; [|done].
    injection Hp as <-. eauto.
  - intros (p & n & Hp & <-). exists p. by rewrite Hp.
Qed.

Lemma sorted_key_lt (k1 k2 : list KeyT) a b :
  StronglySorted lt (k1 ++ k2) → a ∈ k1 → b ∈ k2 → less b a = false.
Proof using Hless.
  intros Hs Ha Hb. apply (lt_asym less Hless).
  exact (StronglySorted_app_1_elem_of lt k1 k2 a b Hs Ha Hb).
Qed.

Lemma sorted_no_above (k1 : list KeyT) k k' :
  StronglySorted lt (k1 ++ [k]) → k' ∈ k1 ++ [k] → less k k' = false.
Proof using Hless.
  intros Hs [Hin|Hin%list_elem_of_singleton]%elem_of_app.
  - eapply sorted_key_lt; [done..|by left].
  - subst. apply (less_irrefl _ Hless).
Qed.

Lemma sorted_least_above (k1 k2 : list KeyT) k kq k' :
  StronglySorted lt (k1 ++ k :: kq :: k2) →
  less k kq = true ∧
  (k' ∈ k1 ++ k :: kq :: k2 → less k k' = true → less k' kq = false).
Proof using Hless.
  intros Hs. split.
  { apply StronglySorted_app_1_r, StronglySorted_cons in Hs as [Hall _].
    by apply Forall_cons in Hall as [? _]. }
  intros [Hin|[->|[->|Hin]%elem_of_cons]%elem_of_cons]%elem_of_app Hlt.
  - rewrite (sorted_key_lt k1 (k :: kq :: k2) k' k Hs) in Hlt; [done..|by left].
  - by rewrite (less_irrefl _ Hless) in Hlt.
  - apply (less_irrefl _ Hless).
  - apply StronglySorted_app_1_r, StronglySorted_cons in Hs as [_ Hs].
    apply (sorted_key_lt [kq] k2); [done|by left|done].
Qed.

Lemma sorted_no_below (k2 : list KeyT) k k' :
  StronglySorted lt (k :: k2) → k' ∈ k :: k2 → less k' k = false.
Proof using Hless.
  intros Hs [->|Hin]%elem_of_cons.
  - apply (less_irrefl _ Hless).
  - apply (sorted_key_lt [k] k2); [done|by left|done].
Qed.

Lemma sorted_greatest_below (k1 k2 : list KeyT) k kq k' :
  StronglySorted lt ((k1 ++ [kq]) ++ k :: k2) →
  less kq k = true ∧
  (k' ∈ (k1 ++ [kq]) ++ k :: k2 → less k' k = true → less kq k' = false).
Proof using Hless.
  intros Hs. split.
  { apply (StronglySorted_app_1_elem_of lt (k1 ++ [kq]) (k :: k2) kq k Hs); [|by left].
    apply elem_of_app. right. by left. }
  intros [[Hin|Hin%list_elem_of_singleton]%elem_of_app|[->|Hin]%elem_of_cons]%elem_of_app Hlt.
  - apply StronglySorted_app_1_l in Hs. by eapply sorted_key_lt; [done..|left].
  - subst. apply (less_irrefl _ Hless).
  - by rewrite (less_irrefl _ Hless) in Hlt.
  - rewrite <- app_assoc in Hs. apply StronglySorted_app_1_r in Hs.
    rewrite (sorted_key_lt [kq; k] k2 k k' Hs) in Hlt; [done| |done].
    right. by left.
Qed.

(** The in-order lists split at a node. *)
Lemma rep_split s less0 t p k :
  Rep s less0 t → key_at (heap s) p = Some k →
  ∃ (l1 l2 : list positive) (k1 k2 : list KeyT),
    nodes t = l1 ++ p :: l2 ∧ keys t = k1 ++ k :: k2 ∧
    Forall2 (λ q kq, key_at (heap s) q = Some kq) l1 k1 ∧
    Forall2 (λ q kq, key_at (heap s) q = Some kq) l2 k2.
Proof.
  intros HR Hk.
  assert (Hin : p ∈ nodes t).
  { eapply rep_in_nodes; [done|]. unfold key_at in Hk. by destruct (heap s !! p). }
  apply list_elem_of_split in Hin as (l1 & l2 & Hn).
  destruct HR as [Ha _ _ _ _ _]. apply agree_keys in Ha. rewrite Hn in Ha.
  apply Forall2_app_inv_l in Ha as (k1 & k2' & H1 & H2 & Hks).
  apply Forall2_cons_inv_l in H2 as (k' & k2 & Hk' & H2 & ->).
  assert (k' = k) as -> by congruence. by exists l1, l2, k1, k2.
Qed.

Lemma Inv_getNext s p k :
  Inv less s → key_at (heap s) p = Some k →
  ∃ q, getNext (Some p) s = Ok (Some q, s) ∧
    ((q = p ∧ no_key_above less s k) ∨
     (∃ kq, key_at (heap s) q = Some kq ∧ least_key_above less s k kq)).
Proof using Hless.
  intros (less0 & t & m & HR & _ & Hs) Hk.
  destruct (rep_split s less0 t p k HR Hk) as (l1 & l2 & k1 & k2 & Hn & Hks & H1 & H2).
  destruct (getNext_list s less0 t l1 p l2 HR Hn) as [Hnext _].
  eexists. split; [exact Hnext|]. unfold bst in Hs. rewrite Hks in Hs.
  destruct H2 as [|q kq l2 k2 Hq H2]; cbn [head default].
  - left. split; [done|]. intros k' Hk'%(holds_key_keys s less0 t k' HR).
    rewrite Hks in Hk'. by eapply sorted_no_above.
  - right. exists kq. split; [done|]. split_and!.
    + by exists q.
    + by eapply (sorted_least_above k1 k2 k kq k).
    + intros k' Hk'%(holds_key_keys s less0 t k' HR). rewrite Hks in Hk'.
      by apply (sorted_least_above k1 k2 k kq k' Hs).
Qed.

Lemma Inv_getPrevious s p k :
  Inv less s → key_at (heap s) p = Some k →
  ∃ q, getPrevious (Some p) s = Ok (Some q, s) ∧
    ((q = p ∧ no_key_below less s k) ∨
     (∃ kq, key_at (heap s) q = Some kq ∧ greatest_key_below less s k kq)).
Proof using Hless.
  intros (less0 & t & m & HR & _ & Hs) Hk.
  destruct (rep_split s less0 t p k HR Hk) as (l1 & l2 & k1 & k2 & Hn & Hks & H1 & H2).
  destruct (getNext_list s less0 t l1 p l2 HR Hn) as [_ Hprev].
  eexists. split; [exact Hprev|]. unfold bst in Hs. rewrite Hks in Hs.
  destruct l1 as [|q l1 _] using rev_ind.
  - apply Forall2_nil_inv_l in H1 as ->. left. split; [done|].
    intros k' Hk'%(holds_key_keys s less0 t k' HR). rewrite Hks in Hk'.
    by eapply sorted_no_below.
  - apply Forall2_app_inv_l in H1 as (k1' & kq' & H1 & Hq & ->).
    apply Forall2_cons_inv_l in Hq as (kq & ? & Hq & ->%Forall2_nil_inv_l & ->).
    rewrite last_snoc. cbn [default]. right. exists kq. split; [done|]. split_and!.
    + by exists q.
    + by eapply (sorted_greatest_below k1' k2 k kq k).
    + intros k' Hk'%(holds_key_keys s less0 t k' HR). rewrite Hks in Hk'.
      by apply (sorted_greatest_below k1' k2 k kq k' Hs).
Qed.

Lemma Inv_inorder s :
  Inv less s →
  ∃ ks, inorder_keys_walk s = Ok (ks, s) ∧ StronglySorted lt ks ∧
        ∀ k, k ∈ ks ↔ holds_key s k.
Proof.
  intros (less0 & t & m & HR & _ & Hs). exists (keys t). split_and!.
  - by eapply inorder_keys_walk_keys.
  - done.
  - intros k. symmetry. by eapply holds_key_keys.
Qed.

(** *** Adding and removing a key, then looking it up *)

Lemma Inv_add_present s p k :
  Inv less s → key_at (heap s) p = Some k →
  add_key_node less k s = Ok ((false, Some p), s).
Proof using Hless.
  intros (less0 & t & m & HR & _ & Hs) Hk.
  assert (Hin : k ∈ keys t) by (eapply holds_key_keys; [done|by exists p]).
  destruct (add_found less Hless s less0 t k HR Hs Hin) as (p' & Hex & Hk' & _).
  by rewrite (key_unique less Hless s less0 t p p' k HR Hs Hk Hk').
Qed.

Lemma Inv_add_result s key (res : bool * ptr) s1 :
  Inv less s → add_key_node less key s = Ok (res, s1) →
  ∃ p, snd res = Some p ∧ key_at (heap s1) p = Some key.
Proof using Hless.
  intros (less0 & t & m & HR & Hb & Hs) Hadd.
  destruct (key_in_or_not less Hless t key Hs) as [Hin|Hout].
  - destruct (add_found less Hless s less0 t key HR Hs Hin) as (p & Hex & Hk & _).
    rewrite Hex in Hadd. injection Hadd as <- <-. by exists p.
  - destruct (decide (Z.of_nat (size (heap s)) < SIZE_MAX)%Z) as [Hsz|Hsz].
    + destruct (add_new less Hless s less0 t m key HR Hb Hs Hout Hsz)
        as (a & s' & less1 & t' & m' & Hex & _ & _ & _ & _ & _ & _ & Hk).
      rewrite Hex in Hadd. injection Hadd as <- <-. by exists a.
    + by rewrite (add_full less Hless s less0 t key HR Hout Hsz) in Hadd.
Qed.

Lemma Inv_add_total s key :
  Inv less s → (Z.of_nat (size (heap s)) < SIZE_MAX)%Z →
  ∃ res s1, add_key_node less key s = Ok (res, s1).
Proof using Hless.
  intros (less0 & t & m & HR & Hb & Hs) Hsz.
  destruct (key_in_or_not less Hless t key Hs) as [Hin|Hout].
  - destruct (add_found less Hless s less0 t key HR Hs Hin) as (p & Hex & _). eauto.
  - destruct (add_new less Hless s less0 t m key HR Hb Hs Hout Hsz)
      as (a & s' & less1 & t' & m' & Hex & _). eauto.
Qed.

Lemma Inv_find_present s p k :
  Inv less s → key_at (heap s) p = Some k → find less k s = Ok (Some p, s).
Proof using Hless.
  intros (less0 & t & m & HR & _ & Hs) Hk.
  assert (Hin : k ∈ keys t) by (eapply holds_key_keys; [done|by exists p]).
  destruct (add_found less Hless s less0 t k HR Hs Hin) as (p' & _ & Hk' & _ & Hf).
  by rewrite (key_unique less Hless s less0 t p p' k HR Hs Hk Hk').
Qed.

Lemma Inv_remove_find s key :
  Inv less s →
  ∃ b s2, remove less key s = Ok (b, s2) ∧ (b = true ↔ holds_key s key) ∧
          find less key s2 = Ok (nullptr, s2).
Proof using Hless.
  intros (less0 & t & m & HR & Hb & Hs). unfold remove.
  destruct (key_in_or_not less Hless t key Hs) as [Hin|Hout].
  - destruct (remove_present less Hless s less0 t m key nullptr HR Hb Hs Hin)
      as (s1 & less1 & nx & t' & m' & k1 & k2 & Hex & HR' & Hb' & Hs' & Hk & Hk' & _).
    exists true, s1. split_and!.
    + eapply bind_Ok; [exact Hex|]. done.
    + split; [|done]. intros _. by eapply holds_key_keys.
    + eapply remove_absent; [done..|]. rewrite Hk'.
      unfold bst in Hs. rewrite Hk in Hs. apply (sorted_NoDup less Hless) in Hs.
      apply NoDup_app in Hs as (_ & Hd & [Hk2 _]%NoDup_cons).
      intros [Hin1|Hin2]%elem_of_app; [|done]. eapply Hd; [done|by left].
  - destruct (remove_absent less Hless s less0 t key nullptr HR Hout) as [Hex Hf].
    exists false, s. split_and!; [|split; [done|]|done].
    + eapply bind_Ok; [exact Hex|]. done.
    + intros Hh. by apply (holds_key_keys s less0 t key HR) in Hh.
Qed.

Lemma Inv_remove_absent s key next :
  Inv less s → ¬ holds_key s key →
  remove less key s = Ok (false, s) ∧
  remove_key_next less key next s = Ok ((false, next), s).
Proof using Hless.
  intros (less0 & t & m & HR & Hb & Hs) Hout.
  assert (key ∉ keys t) as Hk by (intros Hin; apply Hout; by eapply holds_key_keys).
  split; [|by eapply remove_absent]. unfold remove.
  eapply bind_Ok; [by eapply remove_absent|]. done.
Qed.

Lemma Inv_mutators_return s : Inv less s → mutators_return less s.
Proof using Hless.
  intros HI. split_and!.
  - intros key Hsz. by apply Inv_add_total.
  - intros key next. destruct HI as (less0 & t & m & HR & Hb & Hs).
    destruct (key_in_or_not less Hless t key Hs) as [Hin|Hout].
    + destruct (remove_present less Hless s less0 t m key next HR Hb Hs Hin)
        as (s1 & less1 & nx & t' & m' & k1 & k2 & Hex & _). eauto.
    + destruct (remove_absent less Hless s less0 t key next HR Hout) as [Hex _]. eauto.
  - intros node Hlive. destruct HI as (less0 & t & m & HR & Hb & Hs).
    apply (rep_in_nodes s less0 t node HR) in Hlive.
    destruct (remove_node_key s less0 t m node HR Hb Hlive)
      as (s1 & less1 & nx & t' & m' & l1 & l2 & k1 & k & k2 & Hex & _). eauto.
Qed.

(** *** What [validate] rejects *)

Lemma validate_rejects_incomplete s less0 t :
  TreeShape s less0 t → red_child_incomplete s → validate less s = Ok (false, s).
Proof.
  intros HR (p & n & i & ni & j & Hp & Hl & Hi & Hred & Hr & Hor).
  rewrite (validate_TreeShape less s less0 t HR).
  destruct (shape_node s less0 t p n HR Hp) as (C & c & l & k & r & -> & -> & HW).
  rewrite getLeftChild_mk in Hl. rewrite getRightChild_mk in Hr.
  apply root_ptr_Some in Hl as (cl & ll & kl & lr & ->).
  apply root_ptr_Some in Hr as (cr & rl & rk & rr & ->).
  pose proof HW as [_ (_ & (Hi' & _) & _) _ _ _]. rewrite Hi in Hi'.
  injection Hi' as ->. rewrite isRed_mk in Hred. subst cl.
  rewrite getLeftChild_mk, getRightChild_mk in Hor.
  assert (Hnode : node_ok less s p = false).
  { unfold node_ok. erewrite validate_node_incomplete; [done|exact HW|].
    destruct Hor as [?%root_ptr_None|?%root_ptr_None]; eauto. }
  assert (Hin : p ∈ removelast (nodes (plug C (T c (T true ll i kl lr) p k (T cr rl j rk rr))))).
  { rewrite nodes_plug. cbn [nodes].
    assert (∀ (a b c0 : list positive) x y (d e : list positive),
              x ∈ removelast (a ++ (b ++ x :: c0 ++ y :: d) ++ e)) as Hgen.
    { intros a b c0 x y d e.
      replace (a ++ (b ++ x :: c0 ++ y :: d) ++ e)
        with ((a ++ b ++ x :: c0) ++ (y :: d ++ e))
        by (rewrite <- !app_assoc; simpl; by rewrite <- !app_assoc).
      rewrite removelast_app by done. rewrite !elem_of_app, elem_of_cons. tauto. }
    apply Hgen. }
  clear HR HW. revert Hin Hnode.
  generalize (plug C (T c (T true ll i kl lr) p k (T cr rl j rk rr))).
  intros [|c0 t1 p0 k0 t2] Hin Hnode; [by apply elem_of_nil in Hin|].
  assert (forallb (node_ok less s) (removelast (nodes (T c0 t1 p0 k0 t2))) = false) as ->.
  { apply not_true_is_false. intros Hall. rewrite forallb_forall in Hall.
    apply list_elem_of_In, Hall in Hin. congruence. }
  by rewrite andb_false_r.
Qed.

(** A RED node without a right child has no left child either: [remove]
    never meets a RED node with a left child at the place where it frees a
    node. *)
Lemma Inv_red_leaf_no_left s p n :
  Inv less s → heap s !! p = Some n → Node.isRed n = true →
  Node.getRightChild n = nullptr → Node.getLeftChild n = nullptr.
Proof.
  intros (less0 & t & m & HR & Hb & _) Hp Hred Hr.
  destruct (rep_node s less0 t p n HR Hp) as (C & c & l & k & r & -> & -> & _).
  rewrite isRed_mk in Hred. subst c.
  rewrite getRightChild_mk in Hr. rewrite getLeftChild_mk.
  apply root_ptr_None in Hr as ->.
  apply bal_plug_inv in Hb
    as [(n0 & Hb & _)|(ll & j & kj & lr & i0 & ki & ri & C' & n0 & Ht & -> & Hll & Hlr & _)].
  - by apply bal_not_red in Hb.
  - simplify_eq. apply bal_E_inv in Hlr as ->. by apply bal_0_inv in Hll as ->.
Qed.

End Invariants.

(** The RED branch of [remove( Node *, Node * & )]: the code asserts that
    the node has no left child, clears the left child pointer of the parent
    and frees the node; nothing else changes. *)
Lemma remove_leaf_red_branch {KeyT : Type} (s : RedBlackTree KeyT)
    (node p : positive) (n np : Node.t KeyT) (nx : ptr) :
  heap s !! node = Some n → Node.isRed n = true →
  Node.isLessThanParent n = true → Node.getParent n = Some p →
  heap s !! p = Some np →
  remove_leaf (Some node) nx s
  = if ptr_eqb (Node.getLeftChild n) nullptr
    then Ok ((true, Some p),
             mkTree (delete node (<[p := Node.setLeftChild nullptr np]> (heap s)))
               (m_root s) (m_size s))
    else Err AssertFailed.
Proof.
  destruct s as [h root z]. cbn [heap m_root m_size].
  intros Hn Hred Hless Hpar Hp. unfold remove_leaf.
  eapply bind_Ok; [by apply call_Ok|]. rewrite Hpar.
  eapply bind_Ok; [by apply call_Ok|]. norm.
  eapply bind_Ok; [by apply call_Ok|]. rewrite Hless.
  eapply bind_Ok; [reflexivity|].
  eapply bind_Ok; [by apply call_Ok|]. unfold Node.isBlack. rewrite Hred.
  cbn [negb]. unfold bind at 1.
  destruct (ptr_eqb (Node.getLeftChild n) nullptr); [|done].
  cbn [assert ret bind]. unfold bind, call_mut, delete_Node, ret.
  cbn [heap m_root m_size]. rewrite Hp. cbn [heap m_root m_size].
  destruct (decide (p = node)) as [->|Hne].
  - by rewrite lookup_insert_eq.
  - by rewrite lookup_insert_ne, Hn.
Qed.



(** ** Concrete trees *)

Lemma Z_ltb_strict : StrictTotal Z.ltb.
Proof.
  split.
  - intros a. apply Z.ltb_irrefl.
  - intros a b c. rewrite !Z.ltb_lt. lia.
  - intros a b. rewrite !Z.ltb_ge. lia.
Qed.

Lemma add_all_reachable keys s s' :
  reachable Z.ltb s → Scenario.add_all keys s = Ok ((), s') → reachable Z.ltb s'.
Proof.
  revert s. induction keys as [|key keys IH]; intros s Hs; simpl.
  - by intros [= <-].
  - unfold bind, add. unfold bind.
    destruct (add_key_node Z.ltb key s) as [[r s1]|e] eqn:Hadd; [|done].
    simpl. apply IH. by eapply reach_add.
Qed.

Lemma tree7_reachable : reachable Z.ltb Scenario.tree7.
Proof.
  apply (add_all_reachable [10; 20; 5; 15; 25; 3; 8]%Z empty_tree); [constructor|].
  vm_compute. reflexivity.
Qed.

Lemma tree6_reachable : reachable Z.ltb Scenario.tree6.
Proof.
  eapply (reach_remove Z.ltb Scenario.tree7 10%Z nullptr); [exact tree7_reachable|].
  vm_compute. reflexivity.
Qed.

Lemma tree7_Inv : Inv Z.ltb Scenario.tree7.
Proof. apply (reachable_Inv Z.ltb Z_ltb_strict), tree7_reachable. Qed.

Lemma tree7_lacks_7 : ¬ holds_key Scenario.tree7 7%Z.
Proof.
  destruct (Inv_inorder Z.ltb Scenario.tree7 tree7_Inv) as (ks & Hwalk & _ & Hks).
  intros Hh%Hks. vm_compute in Hwalk. injection Hwalk as <-. clear Hks.
  repeat (apply elem_of_cons in Hh as [Hh|Hh]; [done|]). by apply elem_of_nil in Hh.
Qed.

Lemma incomplete_Rep : Rep Scenario.incomplete false incomplete_tree.
Proof.
  split.
  - vm_compute. repeat split.
  - reflexivity.
  - apply NoDup_ListNoDup. vm_compute.
    repeat (constructor; [intros Hin; simpl in Hin; intuition discriminate|]). constructor.
  - vm_compute. reflexivity.
  - vm_compute. reflexivity.
  - vm_compute. discriminate.
Qed.

Lemma incomplete_TreeShape : TreeShape Scenario.incomplete false incomplete_tree.
Proof. apply Rep_TreeShape, incomplete_Rep. Qed.

Lemma incomplete_red_child : red_child_incomplete Scenario.incomplete.
Proof.
  exists 1%positive, (Node.mk (Some 2%positive) (Some 3%positive) nullptr 0 10%Z),
    2%positive, (Node.mk nullptr nullptr (Some 1%positive) 3 5%Z), 3%positive.
  vm_compute. repeat split. by left.
Qed.


(** * Part III: the claims of the specification *)

(** C2: inserting 10, 20, 5, 15, 25, 3, 8 into the empty tree gives the
    in-order traversal 3, 5, 8, 10, 15, 20, 25, a black root, size 7 and a
    tree that [validate] accepts; removing 10 then gives size 6, the
    traversal 3, 5, 8, 15, 20, 25, a tree that [validate] accepts, and
    [find( 10 )] returns the null pointer. *)
Theorem C2_scenario :
  let s7 := Scenario.tree7 in
  let s6 := Scenario.tree6 in
  Scenario.add_all [10; 20; 5; 15; 25; 3; 8]%Z empty_tree = Ok ((), s7) ∧
  inorder_keys_walk s7 = Ok ([3; 5; 8; 10; 15; 20; 25]%Z, s7) ∧
  Scenario.root_is_black s7 = Ok (true, s7) ∧
  getSize s7 = Ok (7%Z, s7) ∧
  validate Z.ltb s7 = Ok (true, s7) ∧
  remove Z.ltb 10%Z s7 = Ok (true, s6) ∧
  getSize s6 = Ok (6%Z, s6) ∧
  inorder_keys_walk s6 = Ok ([3; 5; 8; 15; 20; 25]%Z, s6) ∧
  validate Z.ltb s6 = Ok (true, s6) ∧
  find Z.ltb 10%Z s6 = Ok (nullptr, s6).
Proof. vm_compute. repeat split. Qed.

(** C7, as stated, fails: in [Scenario.lopsided] the root has a RED left
    child and a right child without a left child, and [validate] accepts
    the tree. *)
Lemma C7_counterexample :
  right_child_lacks_left Scenario.lopsided ∧
  validate Z.ltb Scenario.lopsided = Ok (true, Scenario.lopsided).
Proof.
  split; [|vm_compute; reflexivity].
  exists 1%positive, (Node.mk (Some 2%positive) (Some 3%positive) nullptr 0 10%Z),
    2%positive, (Node.mk (Some 4%positive) (Some 5%positive) (Some 1%positive) 3 5%Z),
    3%positive, (Node.mk nullptr nullptr (Some 1%positive) 0 20%Z).
  vm_compute. repeat split.
Qed.

(** C9 at the failing input: in the seven-key tree the in-order successor
    of 10 is 15, and [remove( 10, next )] leaves the node holding 20 in
    [next]. *)
Theorem C9_next_skips_successor :
  Scenario.successor_key 10%Z Scenario.tree7 = Ok (15%Z, Scenario.tree7) ∧
  ∃ s', Scenario.remove_next_key 10%Z Scenario.tree7 = Ok (20%Z, s').
Proof. split; [vm_compute; reflexivity|]. eexists. vm_compute. reflexivity. Qed.

(** C1: in every tree object reachable from the empty tree through [add]
    and [remove], the root, if present, is BLACK; every RED node is the
    LESS_THAN_PARENT child of a BLACK parent; the relation bit of every
    node with a parent agrees with the order of its key and its parent's
    key; and [m_size] is the number of live nodes.  From such a tree object
    the mutating members return ([add] unless the free store is full), so
    the invariants hold after each of their calls. *)
Theorem C1_invariants {KeyT : Type} (less : KeyT → KeyT → bool)
    (s : RedBlackTree KeyT) :
  StrictTotal less → reachable less s →
  root_black s ∧ red_leans_left s ∧ relation_ordered less s ∧ size_counts s ∧
  mutators_return less s.
Proof.
  intros Hless Hs%(reachable_Inv less Hless). split_and!.
  - by apply (Inv_root_black less).
  - by apply (Inv_red_leans_left less).
  - by apply Inv_relation_ordered.
  - by apply (Inv_size less).
  - by apply Inv_mutators_return.
Qed.

Lemma C1_invariants_witness :
  StrictTotal Z.ltb ∧ reachable Z.ltb Scenario.tree6 ∧
  (root_black Scenario.tree6 ∧ red_leans_left Scenario.tree6 ∧
   relation_ordered Z.ltb Scenario.tree6 ∧ size_counts Scenario.tree6 ∧
   mutators_return Z.ltb Scenario.tree6).
Proof.
  split; [exact Z_ltb_strict|]. split; [exact tree6_reachable|].
  exact (C1_invariants Z.ltb Scenario.tree6 Z_ltb_strict tree6_reachable).
Defined.

(** C3: in a tree object that stores a balanced search tree, [getNext]
    at a node returns the node holding the smallest key strictly greater
    than the node's key, and the node itself when there is no greater key;
    [getPrevious] returns the node holding the largest key strictly
    smaller, and the node itself when there is none; and the traversal by
    repeated [getNext] from the smallest node returns every key of the
    tree, in strictly increasing order. *)
Theorem C3_navigation {KeyT : Type} (less : KeyT → KeyT → bool)
    (s : RedBlackTree KeyT) :
  StrictTotal less → Inv less s →
  (∀ p k, key_at (heap s) p = Some k →
     (∃ q, getNext (Some p) s = Ok (Some q, s) ∧
        ((q = p ∧ no_key_above less s k) ∨
         (∃ kq, key_at (heap s) q = Some kq ∧ least_key_above less s k kq))) ∧
     (∃ q, getPrevious (Some p) s = Ok (Some q, s) ∧
        ((q = p ∧ no_key_below less s k) ∨
         (∃ kq, key_at (heap s) q = Some kq ∧ greatest_key_below less s k kq)))) ∧
  (∃ ks, inorder_keys_walk s = Ok (ks, s) ∧
         StronglySorted (λ a b, less a b = true) ks ∧
         ∀ k, k ∈ ks ↔ holds_key s k).
Proof.
  intros Hless HI. split.
  - intros p k Hk. split.
    + by apply Inv_getNext.
    + by apply Inv_getPrevious.
  - by apply Inv_inorder.
Qed.

Lemma C3_navigation_witness :
  StrictTotal Z.ltb ∧ Inv Z.ltb Scenario.tree7 ∧
  (∃ q, getNext (Some 1%positive) Scenario.tree7 = Ok (Some q, Scenario.tree7) ∧
     ((q = 1%positive ∧ no_key_above Z.ltb Scenario.tree7 10%Z) ∨
      (∃ kq, key_at (heap Scenario.tree7) q = Some kq ∧
             least_key_above Z.ltb Scenario.tree7 10%Z kq))) ∧
  ∃ ks, inorder_keys_walk Scenario.tree7 = Ok (ks, Scenario.tree7) ∧
        StronglySorted (λ a b, Z.ltb a b = true) ks ∧
        ∀ k, k ∈ ks ↔ holds_key Scenario.tree7 k.
Proof.
  split; [exact Z_ltb_strict|]. split; [exact tree7_Inv|].
  destruct (C3_navigation Z.ltb Scenario.tree7 Z_ltb_strict tree7_Inv) as [Hnav Hwalk].
  split; [|exact Hwalk].
  apply (Hnav 1%positive 10%Z). vm_compute. reflexivity.
Defined.

(** C4: in a tree object that stores a balanced search tree, [add] with
    a key that some node holds returns that node with [false] and leaves the
    tree object as it was; so after any [add] of a key, a second [add] of
    the same key returns [false] and the same node and changes nothing. *)
Theorem C4_add_present {KeyT : Type} (less : KeyT → KeyT → bool)
    (s : RedBlackTree KeyT) :
  StrictTotal less → Inv less s →
  (∀ p k, key_at (heap s) p = Some k →
     add_key_node less k s = Ok ((false, Some p), s)) ∧
  (∀ key res s1, add_key_node less key s = Ok (res, s1) →
     add_key_node less key s1 = Ok ((false, snd res), s1)).
Proof.
  intros Hless HI. split.
  - intros p k Hk. by apply Inv_add_present.
  - intros key res s1 Hadd.
    destruct (Inv_add_result less Hless s key res s1 HI Hadd) as (p & -> & Hk).
    apply Inv_add_present; [done| |done]. by eapply Inv_add.
Qed.

Lemma C4_add_present_witness :
  StrictTotal Z.ltb ∧ Inv Z.ltb Scenario.tree7 ∧
  add_key_node Z.ltb 10%Z Scenario.tree7 = Ok ((false, Some 1%positive), Scenario.tree7).
Proof.
  split; [exact Z_ltb_strict|]. split; [exact tree7_Inv|].
  apply (proj1 (C4_add_present Z.ltb Scenario.tree7 Z_ltb_strict tree7_Inv)).
  vm_compute. reflexivity.
Defined.

(** C5: in a tree object that stores a balanced search tree, [remove]
    with a key that no node holds returns [false] and leaves the tree
    object as it was. *)
Theorem C5_remove_absent {KeyT : Type} (less : KeyT → KeyT → bool)
    (s : RedBlackTree KeyT) (key : KeyT) (next : ptr) :
  StrictTotal less → Inv less s → ¬ holds_key s key →
  remove less key s = Ok (false, s) ∧
  remove_key_next less key next s = Ok ((false, next), s).
Proof. intros Hless HI Hout. by apply Inv_remove_absent. Qed.

Lemma C5_remove_absent_witness :
  StrictTotal Z.ltb ∧ Inv Z.ltb Scenario.tree7 ∧ ¬ holds_key Scenario.tree7 7%Z ∧
  (remove Z.ltb 7%Z Scenario.tree7 = Ok (false, Scenario.tree7) ∧
   remove_key_next Z.ltb 7%Z nullptr Scenario.tree7
   = Ok ((false, nullptr), Scenario.tree7)).
Proof.
  split; [exact Z_ltb_strict|]. split; [exact tree7_Inv|].
  split; [exact tree7_lacks_7|].
  exact (C5_remove_absent Z.ltb Scenario.tree7 7%Z nullptr Z_ltb_strict tree7_Inv
           tree7_lacks_7).
Defined.

(** C6: in a tree object that stores a balanced search tree, after
    [add] of a key has returned, [find] of that key returns the node [add]
    returned, and that node holds the key; [add] returns whenever the free
    store is not exhausted; and [remove] of a key returns, with [true]
    exactly when the key was present, in a tree object where [find] of that
    key returns the null pointer. *)
Theorem C6_round_trip {KeyT : Type} (less : KeyT → KeyT → bool)
    (s : RedBlackTree KeyT) (key : KeyT) :
  StrictTotal less → Inv less s →
  (∀ res s1, add_key_node less key s = Ok (res, s1) →
     ∃ p n, snd res = Some p ∧ find less key s1 = Ok (Some p, s1) ∧
            heap s1 !! p = Some n ∧ Node.getKey n = key) ∧
  ((Z.of_nat (size (heap s)) < SIZE_MAX)%Z →
     ∃ res s1, add_key_node less key s = Ok (res, s1)) ∧
  (∃ b s2, remove less key s = Ok (b, s2) ∧ (b = true ↔ holds_key s key) ∧
           find less key s2 = Ok (nullptr, s2)).
Proof.
  intros Hless HI. split_and!.
  - intros res s1 Hadd.
    destruct (Inv_add_result less Hless s key res s1 HI Hadd) as (p & Hp & Hk).
    pose proof (Inv_add less Hless s key res s1 HI Hadd) as HI1.
    unfold key_at in Hk. destruct (heap s1 !! p) as [n|] eqn:Hn; [|done].
    injection Hk as Hk. exists p, n. split_and!; [done| |done|done].
    apply Inv_find_present; [done..|]. unfold key_at. by rewrite Hn, <- Hk.
  - by apply Inv_add_total.
  - by apply Inv_remove_find.
Qed.

Lemma C6_round_trip_witness :
  StrictTotal Z.ltb ∧ Inv Z.ltb Scenario.tree7 ∧
  ∃ b s2, remove Z.ltb 10%Z Scenario.tree7 = Ok (b, s2) ∧
          (b = true ↔ holds_key Scenario.tree7 10%Z) ∧
          find Z.ltb 10%Z s2 = Ok (nullptr, s2).
Proof.
  split; [exact Z_ltb_strict|]. split; [exact tree7_Inv|].
  exact (proj2 (proj2 (C6_round_trip Z.ltb Scenario.tree7 10%Z Z_ltb_strict tree7_Inv))).
Defined.

(** C7, amended: in a tree object whose live nodes are exactly the nodes
    of a binary tree below [m_root], every node holding the child pointers,
    the parent pointer, the colour flag and the relation flag that its
    place in the tree prescribes (and [m_size] holding anything): if some
    node has a RED left child and a non-null right child, and that RED left
    child lacks a left or a right child of its own, [validate] returns
    [false]. *)
Theorem C7_validate_rejects {KeyT : Type} (less : KeyT → KeyT → bool)
    (s : RedBlackTree KeyT) (less0 : bool) (t : tree KeyT) :
  TreeShape s less0 t → red_child_incomplete s → validate less s = Ok (false, s).
Proof. apply validate_rejects_incomplete. Qed.

Lemma C7_validate_rejects_witness :
  TreeShape Scenario.incomplete false incomplete_tree ∧
  red_child_incomplete Scenario.incomplete ∧
  validate Z.ltb Scenario.incomplete = Ok (false, Scenario.incomplete).
Proof.
  split; [exact incomplete_TreeShape|]. split; [exact incomplete_red_child|].
  exact (C7_validate_rejects Z.ltb Scenario.incomplete false incomplete_tree
           incomplete_TreeShape incomplete_red_child).
Defined.

(** C10: in every tree object reachable from the empty tree through
    [add] and [remove], a node that has a left child and no right child has
    a RED left child. *)
Theorem C10_lone_child_red {KeyT : Type} (less : KeyT → KeyT → bool)
    (s : RedBlackTree KeyT) :
  StrictTotal less → reachable less s → lone_child_red s.
Proof.
  intros Hless Hs%(reachable_Inv less Hless). by apply (Inv_lone_child_red less).
Qed.

Lemma C10_lone_child_red_witness :
  StrictTotal Z.ltb ∧ reachable Z.ltb Scenario.tree6 ∧ lone_child_red Scenario.tree6.
Proof.
  split; [exact Z_ltb_strict|]. split; [exact tree6_reachable|].
  exact (C10_lone_child_red Z.ltb Scenario.tree6 Z_ltb_strict tree6_reachable).
Defined.


(** ** Further consequences of the invariant *)

Section Shape.
Context {KeyT : Type} (less : KeyT → KeyT → bool).
Implicit Types (h : gmap positive (Node.t KeyT)) (t l r : tree KeyT).
Implicit Types (C : list (frame KeyT)) (s : RedBlackTree KeyT) (key k : KeyT).
Local Notation lt := (λ a b : KeyT, less a b = true).

Lemma Inv_links_consistent s : Inv less s → links_consistent s.
Proof.
  intros (less0 & t & m & HR & _ & _) p n Hp.
  destruct (rep_node s less0 t p n HR Hp) as (C & c & l & k & r & -> & -> & HW).
  destruct HW as [HC (_ & Hl & Hr) Hroot _ _]. norm. split_and!.
  - intros i (cl & ll & kl & lr & ->)%root_ptr_Some. destruct Hl as (Hi & _).
    eexists. split; [done|]. by norm.
  - intros i (cl & ll & kl & lr & ->)%root_ptr_Some. destruct Hr as (Hi & _).
    eexists. split; [done|]. by norm.
  - intros q Hq. destruct C as [|[cf i ki ri|cf li i ki] C]; [done|..];
      cbn [hole_parent hole_side frame_id] in *; simplify_eq;
      destruct HC as (Hi & _); eexists; (split; [done|]); by norm.
  - intros HC0. destruct C as [|f C]; [done|]. done.
Qed.

Lemma Inv_right_needs_left s : Inv less s → right_needs_left s.
Proof.
  intros (less0 & t & m & HR & Hb & _) p n Hp.
  destruct (rep_node s less0 t p n HR Hp) as (C & c & l & k & r & -> & -> & _).
  norm. intros Hr Hl. apply root_ptr_None in Hl as ->. apply Hr. clear Hr.
  apply bal_plug_inv in Hb
    as [(n0 & Hb & _)|(ll & j & kj & lr & i0 & ki & ri & C' & n0 & Ht & -> & Hll & Hlr & _)].
  - inversion Hb as [|? ? ? ? ? HE Hr0|]; subst.
    apply bal_E_inv in HE as ->. by apply bal_0_inv in Hr0 as ->.
  - simplify_eq. apply bal_E_inv in Hll as ->. by apply bal_0_inv in Hlr as ->.
Qed.

Context (Hless : StrictTotal less).

Lemma Inv_keys_distinct s : Inv less s → keys_distinct s.
Proof using Hless.
  intros (less0 & t & m & HR & _ & Hs) p q k Hp Hq.
  by eapply (key_unique less Hless).
Qed.

(** [find] returns the node that holds the key, and null when no node
    holds it. *)
Lemma Inv_find s key :
  Inv less s →
  ∃ res, find less key s = Ok (res, s) ∧
    match res with
    | Some p => key_at (heap s) p = Some key
    | None => ¬ holds_key s key
    end.
Proof using Hless.
  intros HI. pose proof HI as (less0 & t & m & HR & _ & Hs).
  destruct (key_in_or_not less Hless t key Hs) as [Hin|Hout].
  - apply (holds_key_keys s less0 t key HR) in Hin as [p Hp].
    exists (Some p). split; [|done]. by apply Inv_find_present.
  - exists nullptr. split.
    + exact (proj2 (remove_absent less Hless s less0 t key nullptr HR Hout)).
    + by intros Hh%(holds_key_keys s less0 t key HR).
Qed.

Lemma call_live {A} (f : Node.t KeyT → A) p s x s' :
  (Some p ~> f) s = Ok (x, s') → is_Some (heap s !! p).
Proof. unfold call. destruct (heap s !! p); [eauto|done]. Qed.

Lemma getNext_live p s x s' : getNext (Some p) s = Ok (x, s') → is_Some (heap s !! p).
Proof.
  unfold getNext, bind, get_fuel. intros H.
  destruct ((Some p ~> Node.m_children1) s) as [[c s1]|] eqn:Hc; [|done].
  by eapply call_live.
Qed.

Lemma getPrevious_live p s x s' :
  getPrevious (Some p) s = Ok (x, s') → is_Some (heap s !! p).
Proof.
  unfold getPrevious, bind, get_fuel. intros H.
  destruct ((Some p ~> Node.m_children0) s) as [[c s1]|] eqn:Hc; [|done].
  by eapply call_live.
Qed.

(** [getPrevious] undoes [getNext], and [getNext] undoes [getPrevious]. *)
Lemma Inv_next_previous s p q :
  Inv less s → q ≠ p →
  (getNext (Some p) s = Ok (Some q, s) → getPrevious (Some q) s = Ok (Some p, s)) ∧
  (getPrevious (Some p) s = Ok (Some q, s) → getNext (Some q) s = Ok (Some p, s)).
Proof.
  intros (less0 & t & m & HR & _ & _) Hne. split; intros Hstep.
  - assert (Hin : p ∈ nodes t).
    { eapply rep_in_nodes; [done|]. by eapply getNext_live. }
    apply list_elem_of_split in Hin as (l1 & l2 & Hn).
    destruct (getNext_list s less0 t l1 p l2 HR Hn) as [Hnext _].
    rewrite Hnext in Hstep. injection Hstep as Hq.
    destruct l2 as [|q' l2]; simpl in Hq; [by subst|]. subst q'.
    assert (Hn' : nodes t = (l1 ++ [p]) ++ q :: l2) by by rewrite <- app_assoc.
    destruct (getNext_list s less0 t _ q l2 HR Hn') as [_ Hprev].
    by rewrite last_snoc in Hprev.
  - assert (Hin : p ∈ nodes t).
    { eapply rep_in_nodes; [done|]. by eapply getPrevious_live. }
    apply list_elem_of_split in Hin as (l1 & l2 & Hn).
    destruct (getNext_list s less0 t l1 p l2 HR Hn) as [_ Hprev].
    rewrite Hprev in Hstep. injection Hstep as Hq.
    destruct l1 as [|q' l1 _] using rev_ind; [simpl in Hq; by subst|].
    rewrite last_snoc in Hq. simpl in Hq. subst q'.
    rewrite <- app_assoc in Hn. cbn [app] in Hn.
    by destruct (getNext_list s less0 t l1 q (p :: l2) HR Hn) as [Hnext _].
Qed.

(** [getSize] is the number of keys the in-order traversal returns. *)
Lemma Inv_size_walk s :
  Inv less s →
  ∃ ks, inorder_keys_walk s = Ok (ks, s) ∧ getSize s = Ok (Z.of_nat (length ks), s).
Proof.
  intros (less0 & t & m & HR & _ & _). exists (keys t). split.
  - by eapply inorder_keys_walk_keys.
  - unfold getSize, get_size. destruct HR as [_ _ Hnd Hd Hsz _].
    by rewrite Hsz, (size_heap_nodes _ _ Hnd Hd), length_nodes_keys.
Qed.

(** [getNextLargestChild] is [getNext] at a node with a right child, and
    null at a node without. *)
Lemma Inv_getNextLargestChild s p n :
  Inv less s → heap s !! p = Some n →
  getNextLargestChild (Some p) s
  = if ptr_eqb (Node.getRightChild n) nullptr then Ok (nullptr, s)
    else getNext (Some p) s.
Proof.
  intros (less0 & t & m & HR & _ & _) Hp.
  destruct (rep_node s less0 t p n HR Hp) as (C & c & l & k & r & -> & -> & HW).
  norm. rewrite (getNext_walk s less0 C c l p k r HW).
  pose proof HW as [_ (Hn & _ & Hr) _ Hnd Hdom]. destruct s as [h root z].
  cbn [heap] in *.
  erewrite getNextLargestChild_head; [|done..|].
  - destruct r as [|cr rl ri rk rr]; [by norm|]. cbn [root_ptr]. norm.
    cbn [nodes]. by destruct (nodes rl).
  - etrans; [apply height_nodes|]. cbn [nodes] in Hnd, Hdom.
    rewrite (size_heap_nodes _ _ Hnd Hdom).
    repeat (rewrite ?length_app; simpl). lia.
Qed.

(** *** What [add] and [remove] leave in place *)

Lemma keys_same h h' (l : list positive) (ks : list KeyT) q :
  Forall2 (λ p k, key_at h p = Some k) l ks →
  Forall2 (λ p k, key_at h' p = Some k) l ks →
  q ∈ l → key_at h' q = key_at h q.
Proof.
  intros H1 H2 (i & Hi)%list_elem_of_lookup.
  destruct (Forall2_lookup_l _ _ _ _ _ H1 Hi) as (k & Hk & ->).
  destruct (Forall2_lookup_l _ _ _ _ _ H2 Hi) as (k' & Hk' & ->). congruence.
Qed.

Lemma key_at_dead s less0 t q : Rep s less0 t → q ∉ nodes t → key_at (heap s) q = None.
Proof.
  intros [_ _ _ Hd _ _] Hq. unfold key_at.
  assert (q ∉ dom (heap s)) as Hq'%not_elem_of_dom.
  { rewrite Hd. by rewrite elem_of_list_to_set. }
  by rewrite Hq'.
Qed.

Lemma rep_m_size s less0 t : Rep s less0 t → m_size s = Z.of_nat (length (nodes t)).
Proof. intros HR. pose proof HR as [_ _ _ _ -> _]. by rewrite (rep_size_nodes _ _ _ HR). Qed.

(** [remove( Node *, Node * & )] frees the node it is given and no other,
    and every other node keeps its key. *)
Lemma Inv_remove_node_frees s p :
  Inv less s → is_Some (heap s !! p) →
  ∃ nx s', remove_node_next (Some p) s = Ok ((true, nx), s') ∧
    heap s' !! p = None ∧
    (∀ q, q ≠ p → key_at (heap s') q = key_at (heap s) q) ∧
    m_size s' = (m_size s - 1)%Z.
Proof.
  intros (less0 & t & m & HR & Hb & _) Hlive.
  apply (rep_in_nodes s less0 t p HR) in Hlive.
  destruct (remove_node_spec s less0 t m p HR Hb Hlive)
    as (s' & less1 & nx & t' & m' & l1 & l2 & k1 & k & k2 & Hex & HR' & _ & Hn & Hn'
        & Hk & Hk' & Hlen).
  exists nx, s'. pose proof HR as [Ha _ Hnd _ _ _]. pose proof HR' as [Ha' _ _ _ _ _].
  apply agree_keys in Ha, Ha'. rewrite Hn, Hk in Ha. rewrite Hn', Hk' in Ha'.
  rewrite Hn in Hnd.
  apply Forall2_app_inv in Ha as [H1 H2]; [|done].
  apply Forall2_cons_1 in H2 as [_ H2].
  apply Forall2_app_inv in Ha' as [H1' H2']; [|done].
  assert (Hp : p ∉ l1 ++ l2).
  { apply NoDup_app in Hnd as (_ & Hd & [Hp2 _]%NoDup_cons).
    intros [Hin|Hin]%elem_of_app; [|done]. eapply Hd; [done|by left]. }
  split_and!; [done| | |].
  - pose proof (key_at_dead s' less1 t' p HR') as Hdead. rewrite Hn' in Hdead.
    specialize (Hdead Hp). unfold key_at in Hdead. by destruct (heap s' !! p).
  - intros q Hq. destruct (decide (q ∈ l1 ++ l2)) as [[Hin|Hin]%elem_of_app|Hout].
    + exact (keys_same _ _ l1 k1 q H1 H1' Hin).
    + exact (keys_same _ _ l2 k2 q H2 H2' Hin).
    + rewrite (key_at_dead s' less1 t' q HR'), (key_at_dead s less0 t q HR); [done|..].
      * rewrite Hn. rewrite elem_of_app, elem_of_cons. rewrite elem_of_app in Hout. tauto.
      * by rewrite Hn'.
  - rewrite (rep_m_size s less0 t HR), (rep_m_size s' less1 t' HR'), Hn, Hn'.
    rewrite !length_app. simpl. lia.
Qed.


(** [remove( key, next )]: the key leaves the tree, every node that holds
    another key stays where it is, and the size drops by one exactly when
    the key was present. *)
Lemma Inv_remove_key_effect s key next :
  Inv less s →
  ∃ b nx s', remove_key_next less key next s = Ok ((b, nx), s') ∧
    (b = true ↔ holds_key s key) ∧ ¬ holds_key s' key ∧
    (∀ q k, k ≠ key → key_at (heap s') q = Some k ↔ key_at (heap s) q = Some k) ∧
    m_size s' = (m_size s - if b then 1 else 0)%Z.
Proof using Hless.
  intros HI. pose proof HI as (less0 & t & m & HR & Hb & Hs).
  destruct (key_in_or_not less Hless t key Hs) as [Hin|Hout].
  - pose proof Hin as [p Hp]%(holds_key_keys s less0 t key HR).
    assert (Hlive : is_Some (heap s !! p)).
    { unfold key_at in Hp. by destruct (heap s !! p). }
    destruct (Inv_remove_node_frees s p HI Hlive) as (nx & s' & Hex & Hdead & Hst & Hsz).
    exists true, nx, s'. split_and!; [| | | |done].
    + unfold remove_key_next. eapply bind_Ok; [by apply Inv_find_present|]. by norm.
    + split; [|done]. intros _. by exists p.
    + intros [q Hq]. destruct (decide (q = p)) as [->|Hne].
      * unfold key_at in Hq. by rewrite Hdead in Hq.
      * rewrite (Hst q Hne) in Hq.
        by rewrite (key_unique less Hless s less0 t q p key HR Hs Hq Hp) in Hne.
    + intros q k Hk. destruct (decide (q = p)) as [->|Hne]; [|by rewrite Hst].
      unfold key_at at 1. rewrite Hdead. split; [done|]. intros Hq. congruence.
  - destruct (remove_absent less Hless s less0 t key next HR Hout) as [Hex _].
    exists false, next, s. split_and!; [done| | |done|lia].
    + split; [done|]. by intros Hh%(holds_key_keys s less0 t key HR).
    + by intros Hh%(holds_key_keys s less0 t key HR).
Qed.

(** [add( key, node )]: the node returned holds the key, every other
    address holds what it held, and the size grows by one exactly when the
    key was absent. *)
Lemma Inv_add_effect s key (res : bool * ptr) s' :
  Inv less s → add_key_node less key s = Ok (res, s') →
  (fst res = false ↔ holds_key s key) ∧
  (∃ a, snd res = Some a ∧ key_at (heap s') a = Some key ∧
        key_at (heap s) a = (if fst res then None else Some key) ∧
        ∀ q, q ≠ a → key_at (heap s') q = key_at (heap s) q) ∧
  m_size s' = (m_size s + if fst res then 1 else 0)%Z.
Proof using Hless.
  intros HI Hadd. pose proof HI as (less0 & t & m & HR & Hb & Hs).
  destruct (key_in_or_not less Hless t key Hs) as [Hin|Hout].
  - destruct (add_found less Hless s less0 t key HR Hs Hin) as (p & Hex & Hk & _).
    rewrite Hex in Hadd. injection Hadd as <- <-. cbn [fst snd]. split_and!.
    + split; [|done]. intros _. by exists p.
    + by exists p.
    + lia.
  - destruct (decide (Z.of_nat (size (heap s)) < SIZE_MAX)%Z) as [Hsz|Hsz];
      [|by rewrite (add_full less Hless s less0 t key HR Hout Hsz) in Hadd].
    destruct (add_new_split less Hless s less0 t m key HR Hb Hs Hout Hsz)
      as (a & s1 & less1 & t' & m' & l1 & l2 & k1 & k2 & Hex & HR' & _ & _ & Ha
          & Hn & Hn' & Hks & Hks' & Hlen).
    rewrite Hex in Hadd. injection Hadd as <- <-. cbn [fst snd].
    pose proof HR as [HA _ _ _ _ _]. pose proof HR' as [HA' _ _ _ _ _].
    apply agree_keys in HA, HA'. rewrite Hn, Hks in HA. rewrite Hn', Hks' in HA'.
    apply Forall2_app_inv in HA as [H1 H2]; [|done].
    apply Forall2_app_inv in HA' as [H1' H2']; [|done].
    apply Forall2_cons_1 in H2' as [Hka H2']. split_and!.
    + split; [done|]. by intros Hh%(holds_key_keys s less0 t key HR).
    + exists a. split_and!; [done|done| |].
      { apply (key_at_dead s less0 t a HR Ha). }
      intros q Hq. destruct (decide (q ∈ l1 ++ l2)) as [[Hin|Hin]%elem_of_app|Hnot].
      * exact (keys_same _ _ l1 k1 q H1 H1' Hin).
      * exact (keys_same _ _ l2 k2 q H2 H2' Hin).
      * rewrite (key_at_dead s1 less1 t' q HR'), (key_at_dead s less0 t q HR); [done|..].
        -- by rewrite Hn.
        -- rewrite Hn'. rewrite elem_of_app, elem_of_cons. rewrite elem_of_app in Hnot.
           tauto.
    + rewrite (rep_m_size s less0 t HR), (rep_m_size s1 less1 t' HR'), Hn, Hn'.
      rewrite !length_app. simpl. lia.
Qed.

(** *** The depth of the search *)

Lemma bal_height t m : bal t m → height t ≤ 2 * m.
Proof. induction 1; simpl in *; lia. Qed.

Lemma bal_count t m : bal t m → 2 ^ m ≤ S (length (nodes t)).
Proof.
  induction 1; simpl in *; repeat (rewrite ?length_app in *; simpl in * ); lia.
Qed.

Lemma bal_height_log t m : bal t m → height t ≤ 2 * Nat.log2 (S (length (nodes t))).
Proof.
  intros Hb. pose proof (bal_height t m Hb). pose proof (bal_count t m Hb) as Hc.
  apply Nat.log2_le_pow2 in Hc; lia.
Qed.

(** The loop of [find] ends within [2 * log2 (n + 1)] iterations. *)
Lemma Inv_find_depth s key :
  Inv less s →
  find_loop less (2 * Nat.log2 (S (size (heap s)))) key (m_root s) s
  = find less key s.
Proof.
  intros (less0 & t & m & HR & Hb & _).
  rewrite (find_Rep less s less0 t key HR), (rep_size_nodes s less0 t HR).
  destruct HR as [Ha Hr _ _ _ _], s as [h root z]. cbn [heap m_root] in *.
  rewrite Hr. apply (find_loop_descend less h _ z _ _ key t [] _ Ha).
  by eapply bal_height_log.
Qed.

(** *** [validate] on a balanced search tree *)

Ltac vok Hord :=
  repeat first
    [ reflexivity
    | rewrite Hord; cbn [negb]
    | eapply bind_Ok; [solve [prim]|cbv beta; norm] ].

Lemma bal_E_T n c l i k r : bal (@E KeyT) n → bal (T c l i k r) n → False.
Proof. intros ->%bal_E_inv H. inversion H. Qed.

(** The check of one node succeeds. *)
Lemma validate_node_ok s less0 C c l p k r m :
  Walk s less0 C (Some p) (T c l p k r) →
  bal_zip C (T c l p k r) m → bst less (plug C (T c l p k r)) →
  validate_node less (Some p) s = Ok (true, s).
Proof using Hless.
  intros HW Hz Hs.
  assert (Hord : match C with
                 | [] => True
                 | FL _ _ ki _ :: _ => less k ki = true
                 | FR _ _ _ ki :: _ => less k ki = false
                 end).
  { apply bst_plug in Hs.
    destruct C as [|[cf i ki ri|cf li i ki] C']; [done|..];
      cbn [keys_before keys_after keys] in Hs.
    - rewrite app_assoc in Hs.
      apply (StronglySorted_app_1_elem_of _ _ _ k ki) in Hs; [done| |by left].
      rewrite !elem_of_app, elem_of_cons. tauto.
    - apply (lt_asym less Hless).
      apply (StronglySorted_app_1_elem_of _ _ _ ki k) in Hs; [done|..];
        rewrite !elem_of_app, ?elem_of_cons; tauto. }
  destruct HW as [HC Hsub _ _ _]. destruct s as [h root z].
  destruct Hz as [(n & Hb & HCb)
                 |(ll & j & kj & lr & i & ki & ri & C' & n & Ht & -> & Hll & Hlr & Hri & HCb)].
  - inversion Hb as [|? ? ? ? n0 Hl Hr|ll j kj lr ? ? ? n0 Hll Hlr Hr]; subst.
    + (* a 2-node *)
      destruct l as [|cl ll j kj lr], r as [|cr rl i ki rr];
        [|by destruct (bal_E_T _ _ _ _ _ _ Hl Hr)|by destruct (bal_E_T _ _ _ _ _ _ Hr Hl)|].
      * destruct C as [|[cf x kx rx|cf lx x kx] C];
          cbn [heap agree agree_ctx hole_parent hole_side root_ptr frame_id] in *;
          break_hyps; unfold validate_node; vok Hord.
      * apply bal_not_red in Hl as ->.
        destruct C as [|[cf x kx rx|cf lx x kx] C];
          cbn [heap agree agree_ctx hole_parent hole_side root_ptr frame_id] in *;
          break_hyps; unfold validate_node; vok Hord.
    + (* the BLACK node of a 3-node *)
      destruct r as [|cr rl i ki rr].
      * destruct C as [|[cf x kx rx|cf lx x kx] C];
          cbn [heap agree agree_ctx hole_parent hole_side root_ptr frame_id] in *;
          break_hyps; unfold validate_node; vok Hord.
      * destruct ll as [|cll lll jl kjl llr]; [by destruct (bal_E_T _ _ _ _ _ _ Hll Hr)|].
        destruct lr as [|clr lrl jr kjr lrr]; [by destruct (bal_E_T _ _ _ _ _ _ Hlr Hr)|].
        destruct C as [|[cf x kx rx|cf lx x kx] C];
          cbn [heap agree agree_ctx hole_parent hole_side root_ptr frame_id] in *;
          break_hyps; unfold validate_node; vok Hord.
  - (* the RED node of a 3-node *)
    simplify_eq.
    destruct ll as [|cl ll j' kj' lr'], lr as [|cr rl x kx rr];
      [|by destruct (bal_E_T _ _ _ _ _ _ Hll Hlr)|by destruct (bal_E_T _ _ _ _ _ _ Hlr Hll)|].
    + cbn [heap agree agree_ctx hole_parent hole_side root_ptr frame_id] in *;
        break_hyps; unfold validate_node; vok Hord.
    + apply bal_not_red in Hll as ->.
      cbn [heap agree agree_ctx hole_parent hole_side root_ptr frame_id] in *;
        break_hyps; unfold validate_node; vok Hord.
Qed.

(** [validate] accepts a balanced search tree. *)
Lemma Inv_validate s : Inv less s → validate less s = Ok (true, s).
Proof using Hless.
  intros (less0 & t & m & HR & Hb & Hs). rewrite (validate_Rep less s less0 t HR).
  destruct t as [|c l i k r] eqn:Ht; [done|]. rewrite <- Ht in *.
  assert (c = false) as -> by (rewrite Ht in Hb; by apply bal_not_red in Hb).
  cbn [negb andb]. f_equal. f_equal. apply forallb_forall. intros p Hp.
  apply list_elem_of_In in Hp.
  assert (Hin : p ∈ nodes t).
  { clear -Hp. induction (nodes t) as [|x l' IH]; [done|].
    destruct l' as [|y l']; [by apply elem_of_nil in Hp|].
    change (removelast (x :: y :: l')) with (x :: removelast (y :: l')) in Hp.
    apply elem_of_cons in Hp as [->|Hp]; [by left|right; by apply IH]. }
  destruct (node_zipper t [] p Hin) as (C & c' & l' & k' & r' & Hplug).
  cbn [plug] in Hplug. rewrite Hplug in *. clear Ht.
  pose proof HR as (HW & _)%Rep_Walk. apply walk_plug in HW. cbn [root_ptr] in HW.
  unfold node_ok. erewrite validate_node_ok; [done|exact HW| |done].
  by apply bal_plug_inv.
Qed.

(** *** The constructors from a list of keys *)

Lemma Inv_add_holds s key (res : bool * ptr) s' :
  Inv less s → add_key_node less key s = Ok (res, s') →
  (∀ k, holds_key s' k ↔ holds_key s k ∨ k = key) ∧
  size (heap s') ≤ S (size (heap s)).
Proof using Hless.
  intros HI Hadd.
  destruct (Inv_add_effect s key res s' HI Hadd) as (_ & (a & _ & Ha' & Ha & Hq) & Hsz).
  pose proof (Inv_size less s HI) as Hs.
  pose proof (Inv_size less s' (Inv_add less Hless s key res s' HI Hadd)) as Hs'.
  unfold size_counts in *. split.
  - intros k. split.
    + intros (q & Hk). destruct (decide (q = a)) as [->|Hne].
      * right. congruence.
      * left. exists q. by rewrite <- Hq.
    + intros [(q & Hk)|Heq]; [|subst k; by exists a].
      destruct (decide (q = a)) as [->|Hne].
      * exists a. destruct (fst res); congruence.
      * exists q. by rewrite Hq.
  - destruct (fst res); lia.
Qed.

Lemma Inv_add_keys (keys : list KeyT) s :
  Inv less s → (Z.of_nat (size (heap s) + length keys) ≤ SIZE_MAX)%Z →
  ∃ s', add_keys less keys s = Ok ((), s') ∧ Inv less s' ∧
        (∀ k, holds_key s' k ↔ holds_key s k ∨ k ∈ keys) ∧
        size (heap s') ≤ size (heap s) + length keys.
Proof using Hless.
  revert s. induction keys as [|key keys IH]; intros s HI Hsz.
  - exists s. split_and!; [done..| |lia].
    intros k. rewrite elem_of_nil. tauto.
  - cbn [length] in Hsz.
    destruct (Inv_add_total less Hless s key HI) as (res & s1 & Hadd); [lia|].
    pose proof (Inv_add less Hless s key res s1 HI Hadd) as HI1.
    destruct (Inv_add_holds s key res s1 HI Hadd) as (Hk1 & Hs1).
    destruct (IH s1 HI1) as (s' & Hex & HI' & Hk' & Hs'); [lia|].
    exists s'. split_and!; [|done| |cbn [length]; lia].
    + cbn [add_keys]. unfold add. eapply bind_Ok; [|exact Hex].
      eapply bind_Ok; [exact Hadd|done].
    + intros k. rewrite Hk', Hk1, elem_of_cons. tauto.
Qed.

(** The tree built from a list holds the keys of the list, each once, in
    ascending order. *)
Lemma Inv_from_list (xs : list KeyT) :
  (Z.of_nat (length xs) ≤ SIZE_MAX)%Z →
  ∃ s ks, from_list less xs = Ok ((), s) ∧ Inv less s ∧
          inorder_keys_walk s = Ok (ks, s) ∧
          StronglySorted lt ks ∧ (∀ k, k ∈ ks ↔ k ∈ xs) ∧
          getSize s = Ok (Z.of_nat (length ks), s) ∧
          length ks ≤ length xs.
Proof using Hless.
  intros Hlen.
  destruct (Inv_add_keys xs empty_tree (Inv_empty less)) as (s & Hex & HI & Hk & Hsz).
  { unfold empty_tree. cbn [heap]. by rewrite map_size_empty. }
  unfold empty_tree in Hsz, Hk. cbn [heap] in Hsz. rewrite map_size_empty in Hsz.
  pose proof HI as (less0 & t & m & HR & _ & Hs).
  exists s, (keys t). split_and!; [done..| | | | |].
  - by eapply inorder_keys_walk_keys.
  - done.
  - intros k. rewrite <- (holds_key_keys s less0 t k HR), Hk. split; [|by right].
    intros [(p & Hp)|]; [|done]. unfold key_at in Hp. simpl in Hp.
    by rewrite lookup_empty in Hp.
  - unfold getSize, get_size. f_equal. f_equal.
    by rewrite (rep_m_size s less0 t HR), length_nodes_keys.
  - rewrite <- length_nodes_keys.
    pose proof HR as [_ _ Hnd Hd _ _]. rewrite <- (size_heap_nodes _ _ Hnd Hd).
    simpl in Hsz. lia.
Qed.

(** *** The [next] pointer of [remove( Node *, Node * & )] *)

Lemma bind_step {A B} (m : M KeyT A) (f : A → M KeyT B) s x s1 :
  m s = Ok (x, s1) → bind m f s = f x s1.
Proof. unfold bind. by intros ->. Qed.

Lemma bind_inv {A B} (m : M KeyT A) (f : A → M KeyT B) s (y : B) s' :
  bind m f s = Ok (y, s') → ∃ x s1, m s = Ok (x, s1) ∧ f x s1 = Ok (y, s').
Proof. unfold bind. destruct (m s) as [[x s1]|e]; [eauto|done]. Qed.

Lemma getNextLargestParent_loop_value h root z less0 C v node (pl pr : ptr) c k fuel :
  agree_ctx h nullptr less0 C v →
  h !! node = Some (Node.mk pl pr (hole_parent nullptr C) (ty c (hole_side less0 C)) k) →
  length C ≤ fuel →
  getNextLargestParent_loop fuel (Some node) (hole_parent nullptr C) (mkTree h root z)
  = Ok (head (ctx_after C), mkTree h root z).
Proof.
  revert v node pl pr c k fuel.
  induction C as [|[cf i kf rf|cf lf i kf] C IH]; intros v node pl pr c k fuel HC Hn Hf.
  - by destruct fuel.
  - destruct fuel as [|fuel]; [simpl in Hf; lia|].
    cbn [getNextLargestParent_loop hole_parent frame_id]. norm.
    eapply bind_Ok; [prim|]. by norm.
  - destruct fuel as [|fuel]; [simpl in Hf; lia|].
    destruct HC as (Hi & _ & HC).
    cbn [getNextLargestParent_loop hole_parent frame_id]. norm.
    eapply bind_Ok; [prim|]. norm. cbn [hole_side].
    eapply bind_Ok; [prim|]. norm. cbn [ctx_after].
    eapply IH; [exact HC|exact Hi|simpl in Hf; lia].
Qed.

(** The pointer [remove_leaf] hands back: the node that follows the leaf
    in order, and the pointer it was given at a leaf that is the root. *)
Lemma remove_leaf_next s less0 C c l node k nx (b : bool) nx' s' :
  Walk s less0 C (Some node) (T c l node k E) →
  remove_leaf (Some node) nx s = Ok ((b, nx'), s') →
  nx' = match C with [] => nx | _ => head (ctx_after C) end.
Proof.
  intros HW. pose proof (walk_ctx_length _ _ _ _ _ HW) as Hlen.
  destruct HW as [HC (Hn & _) _ _ _]. destruct s as [h root z].
  cbn [heap root_ptr] in *. unfold remove_leaf.
  erewrite bind_step; [|solve [prim]]. cbv beta.
  erewrite bind_step; [|solve [prim]]. cbv beta. norm.
  destruct C as [|[cf i kf rf|cf lf i kf] C]; cbn [hole_parent hole_side frame_id] in *; norm.
  - intros H. repeat (apply bind_inv in H as (? & ? & _ & H)). by injection H.
  - erewrite bind_step; [|solve [prim]]. cbv beta. norm.
    erewrite bind_step; [|reflexivity]. cbv beta.
    intros H. repeat (apply bind_inv in H as (? & ? & _ & H)). by injection H.
  - erewrite bind_step; [|solve [prim]]. cbv beta. norm.
    destruct HC as (Hi & _ & HC).
    erewrite bind_step; cycle 1.
    { unfold getNextLargestParent. exec.
      eapply getNextLargestParent_loop_value; [exact HC|exact Hi|].
      cbn [heap length] in *. lia. }
    cbv beta. cbn [ctx_after].
    intros H. repeat (apply bind_inv in H as (? & ? & _ & H)). by injection H.
Qed.

Lemma remove_node_next_value s less0 t m (l1 l2 : list positive) node n (b : bool) nx s' :
  Rep s less0 t → bal t m → nodes t = l1 ++ node :: l2 → heap s !! node = Some n →
  remove_node_next (Some node) s = Ok ((b, nx), s') →
  nx = if ptr_eqb (Node.getRightChild n) nullptr then head l2 else head (tail l2).
Proof.
  intros HR Hb Hsplit Hnode Hrem.
  destruct (node_zipper t [] node) as (C & c & l & k & r & Hplug).
  { rewrite Hsplit. apply elem_of_app. right. left. }
  cbn [plug] in Hplug. subst t.
  pose proof HR as [_ _ Hnd _ Hsz Hbound].
  apply Rep_Walk in HR as (HW & _ & _).
  destruct s as [h root z]. cbn [heap m_size] in *. rewrite <- Hsz in Hbound.
  assert (Hz1 : SizeT (z - 1) = (Z.of_nat (size h) - 1)%Z).
  { assert (size h ≠ 0).
    { apply (map_size_non_empty_iff h). intros ->. by rewrite lookup_empty in Hnode. }
    unfold SizeT. rewrite Z.mod_small; unfold SIZE_MAX in *; lia. }
  pose proof (proj2 (walk_plug _ _ _ _) HW) as HWn. cbn [root_ptr] in HWn.
  pose proof HWn as [_ (Hn & _ & HRr) _ _ _]. cbn [heap] in Hn, HRr.
  rewrite Hn in Hnode. injection Hnode as <-. rewrite getRightChild_mk.
  rewrite nodes_plug in Hsplit. cbn [nodes] in Hsplit.
  rewrite nodes_plug in Hnd. cbn [nodes] in Hnd.
  destruct r as [|cr rl ri rk rr].
  - cbn [root_ptr]. norm.
    assert (l2 = ctx_after C) as ->.
    { rewrite !app_assoc, <- (app_assoc _ [node]) in Hsplit.
      rewrite !app_assoc, <- (app_assoc _ [node]) in Hnd. simpl in Hsplit, Hnd.
      by apply NoDup_split_unique in Hsplit as [_ <-]. }
    pose proof (walk_size _ _ _ (SizeT (z - 1)) _ _ _ _ HWn) as HW1.
    assert (Heq : remove_node_next (Some node) (mkTree h root z)
                  = remove_leaf (Some node) nullptr (mkTree h root (SizeT (z - 1)))).
    { apply remove_node_next_size.
      eapply bind_Ok; [unfold getNextLargestChild; exec|].
      cbv beta. norm. eapply bind_Ok; [prim|]. done. }
    rewrite Heq in Hrem. apply (remove_leaf_next _ _ _ _ _ _ _ _ _ _ _ HW1) in Hrem.
    subst nx. by destruct C.
  - destruct (leftmost_split (T cr rl ri rk rr)) as (Cr & cn & next & kn & nr & Heq & HCr);
      [done|].
    rewrite Heq in *. clear Heq.
    assert (nr = E) as ->.
    { change (plug C (T c l node k ?R)) with (plug (FR c l node k :: C) R) in Hb.
      rewrite <- plug_app in Hb. by eapply bal_leftmost_leaf. }
    assert (Hroot : root_ptr (plug Cr (T cn E next kn E)) ≠ nullptr).
    { clear. destruct Cr as [|[]] using rev_ind; [done|..]; by rewrite plug_app. }
    rewrite nodes_plug, HCr in Hsplit, Hnd. cbn [nodes] in Hsplit, Hnd.
    assert (l2 = next :: ctx_after Cr ++ ctx_after C) as ->.
    { assert (Hsh : ctx_before C ++
                    (nodes l ++ node :: [] ++ ([] ++ [next]) ++ ctx_after Cr) ++ ctx_after C
                    = (ctx_before C ++ nodes l) ++ node :: next :: ctx_after Cr ++ ctx_after C).
      { simpl. by rewrite <- !app_assoc. }
      rewrite Hsh in Hsplit, Hnd.
      by apply NoDup_split_unique in Hsplit as [_ <-]. }
    pose proof HW as HW0.
    change (plug C (T c l node k ?R)) with (plug (FR c l node k :: C) R) in HW0.
    rewrite <- plug_app in HW0. apply walk_plug in HW0. cbn [root_ptr] in HW0.
    pose proof (walk_size _ _ _ (SizeT (z - 1)) _ _ _ _ HW0) as HW1.
    destruct (swap_spec _ _ _ _ _ _ _ _ _ _ _ HCr HW1) as (s2 & Hsw & Hsz2 & HW2).
    assert (Heq : remove_node_next (Some node) (mkTree h root z)
                  = remove_leaf (Some node) (Some next) s2).
    { apply remove_node_next_size.
      pose proof HWn as [_ _ _ Hnd' Hdom]. cbn [heap] in Hnd', Hdom.
      eapply bind_Ok.
      { eapply getNextLargestChild_head; [done..|].
        etrans; [apply height_nodes|].
        rewrite (size_heap_nodes _ _ Hnd' Hdom).
        repeat (rewrite ?length_app; simpl). lia. }
      rewrite head_leftmost by done. cbv beta. norm.
      eapply bind_Ok; [unfold when; exact Hsw|]. done. }
    rewrite Heq in Hrem. apply (remove_leaf_next _ _ _ _ _ _ _ _ _ _ _ HW2) in Hrem.
    subst nx. rewrite ctx_after_app. cbn [ctx_after tail].
    destruct (ptr_eqb _ nullptr) eqn:Hq.
    { by unfold ptr_eqb in Hq; apply bool_decide_eq_true in Hq. }
    by destruct Cr.
Qed.

(** [remove( Node *, Node * & )] sets [next] to the node that follows the
    removed one in order when the removed node has no right child, and to
    the node after that one when it has a right child. *)
Lemma Inv_remove_next s p n :
  Inv less s → heap s !! p = Some n →
  ∃ q nx s',
    getNext (Some p) s = Ok (Some q, s) ∧
    remove_node_next (Some p) s = Ok ((true, nx), s') ∧
    if ptr_eqb (Node.getRightChild n) nullptr then nx = next_or_null p (Some q)
    else q ≠ p ∧ ∃ q2, getNext (Some q) s = Ok (Some q2, s) ∧
                       nx = next_or_null q (Some q2).
Proof.
  intros (less0 & t & m & HR & Hb & Hs) Hp.
  destruct (rep_node s less0 t p n HR Hp) as (C & c & l & k & r & Ht & Hn & HW).
  assert (Hin : p ∈ nodes t).
  { rewrite Ht, nodes_plug. simpl. rewrite !elem_of_app, elem_of_cons. tauto. }
  destruct (remove_node_spec s less0 t m p HR Hb Hin)
    as (s' & less1 & nx & t' & m' & l1 & l2 & k1 & kp & k2 & Hex & _ & _ & Hsplit & _).
  pose proof (remove_node_next_value s less0 t m l1 l2 p n true nx s' HR Hb Hsplit Hp Hex) as Hnx.
  destruct (getNext_list s less0 t l1 p l2 HR Hsplit) as [Hnext _].
  pose proof HR as [_ _ Hnd _ _ _]. rewrite Hsplit in Hnd.
  exists (default p (head l2)), nx, s'. split_and!; [done..|].
  destruct (ptr_eqb (Node.getRightChild n) nullptr) eqn:Hr.
  - subst nx. destruct l2 as [|q l2]; simpl.
    + unfold next_or_null. by rewrite ptr_eqb_refl.
    + unfold next_or_null. destruct (ptr_eqb (Some q) (Some p)) eqn:Hq; [|done].
      unfold ptr_eqb in Hq; apply bool_decide_eq_true in Hq. injection Hq as ->.
      apply NoDup_app in Hnd as (_ & _ & Hnd). apply NoDup_cons in Hnd as [Hnd _].
      destruct Hnd. left.
  - destruct l2 as [|q l2].
    { exfalso. subst n. rewrite getRightChild_mk in Hr.
      rewrite Ht, nodes_plug in Hsplit. cbn [nodes] in Hsplit.
      assert (Hsh : ctx_before C ++ (nodes l ++ p :: nodes r) ++ ctx_after C
                    = (ctx_before C ++ nodes l) ++ p :: nodes r ++ ctx_after C).
      { simpl. by rewrite <- !app_assoc. }
      rewrite Hsh in Hsplit. symmetry in Hsplit.
      apply NoDup_split_unique in Hsplit as [_ Hnil]; [|done].
      destruct r as [|cr rl ri rk rr]; [done|]. simpl in Hnil.
      by destruct (nodes rl). }
    simpl. split.
    { intros ->. apply NoDup_app in Hnd as (_ & _ & Hnd).
      apply NoDup_cons in Hnd as [Hnd _]. destruct Hnd. left. }
    assert (Hsplit2 : nodes t = (l1 ++ [p]) ++ q :: l2) by by rewrite <- app_assoc.
    destruct (getNext_list s less0 t _ q l2 HR Hsplit2) as [Hnext2 _].
    exists (default q (head l2)). split; [done|]. subst nx. simpl.
    destruct l2 as [|q2 l2]; simpl.
    + unfold next_or_null. by rewrite ptr_eqb_refl.
    + unfold next_or_null. destruct (ptr_eqb (Some q2) (Some q)) eqn:Hq; [|done].
      unfold ptr_eqb in Hq; apply bool_decide_eq_true in Hq. injection Hq as ->.
      apply NoDup_app in Hnd as (_ & _ & Hnd). apply NoDup_cons in Hnd as [_ Hnd].
      apply NoDup_cons in Hnd as [Hnd _]. destruct Hnd. left.
Qed.

End Shape.

(** ** The type byte of a node *)

Section NodeBits.
Context {KeyT : Type}.
Implicit Types (n : Node.t KeyT) (b : bool).

Lemma land_bit (x i : Z) :
  (0 ≤ i)%Z → (0 <? Z.land x (Z.shiftl 1 i))%Z = Z.testbit x i.
Proof.
  intros Hi. rewrite Z.shiftl_1_l.
  assert (Z.land x (2 ^ i) = if Z.testbit x i then 2 ^ i else 0)%Z as ->.
  { apply Z.bits_inj'. intros j Hj. rewrite Z.land_spec, Z.pow2_bits_eqb by lia.
    destruct (Z.eqb_spec i j) as [->|Hne].
    - destruct (Z.testbit x j); [|by rewrite Z.bits_0].
      by rewrite Z.pow2_bits_eqb, Z.eqb_refl by lia.
    - rewrite andb_false_r. destruct (Z.testbit x i); [|by rewrite Z.bits_0].
      rewrite Z.pow2_bits_eqb by lia. symmetry. by apply Z.eqb_neq. }
  destruct (Z.testbit x i); [|done]. apply Z.ltb_lt. by apply Z.pow_pos_nonneg.
Qed.

Lemma set_bit_spec (x i j : Z) b :
  (0 ≤ i < 8)%Z → (0 ≤ j < 8)%Z →
  Z.testbit (ByteT (Z.lor (ByteT (Z.land x (Z.lnot (Z.shiftl 1 i))))
                          (Z.shiftl (ByteT (Z.b2z b)) i))) j
  = if (j =? i)%Z then b else Z.testbit x j.
Proof.
  intros Hi Hj. unfold ByteT. change 256%Z with (2 ^ 8)%Z.
  rewrite Z.mod_pow2_bits_low, Z.lor_spec, Z.mod_pow2_bits_low, Z.land_spec,
    Z.lnot_spec, Z.shiftl_1_l, Z.pow2_bits_eqb, Z.shiftl_spec by lia.
  destruct (Z.eqb_spec j i) as [->|Hne].
  - rewrite Z.eqb_refl, Z.sub_diag. cbn [negb]. rewrite andb_false_r.
    rewrite Z.mod_pow2_bits_low by lia. by destruct b.
  - rewrite (proj2 (Z.eqb_neq i j)) by lia. cbn [negb]. rewrite andb_true_r.
    assert (Z.testbit (Z.b2z b mod 2 ^ 8) (j - i) = false) as ->; [|by rewrite orb_false_r].
    destruct (Z.ltb_spec (j - i) 0); [by rewrite Z.testbit_neg_r|].
    rewrite Z.mod_pow2_bits_low by lia. destruct b; [|apply Z.bits_0].
    change (Z.b2z true) with (2 ^ 0)%Z. rewrite Z.pow2_bits_eqb by lia.
    apply Z.eqb_neq. lia.
Qed.

(** The two flags of the type byte are set and read independently, for
    every value of the byte. *)
Lemma Node_type_bits n b :
  Node.isRed (Node.setRed b n) = b ∧
  Node.isLessThanParent (Node.setRed b n) = Node.isLessThanParent n ∧
  Node.isLessThanParent (Node.setLessThanParent b n) = b ∧
  Node.isRed (Node.setLessThanParent b n) = Node.isRed n ∧
  Node.isBlack (Node.setBlack b n) = b ∧
  Node.isGreaterThanParent (Node.setGreaterThanParent b n) = b.
Proof.
  unfold Node.isBlack, Node.setBlack, Node.isGreaterThanParent, Node.setGreaterThanParent.
  unfold Node.isRed, Node.isLessThanParent, Node.setRed, Node.setLessThanParent,
    Node.set_type, Node.RED, Node.LESS, Node.RED_INDEX, Node.LESS_INDEX.
  cbn [Node.m_type]. rewrite !land_bit, !set_bit_spec by lia.
  change (0 =? 0)%Z with true. change (1 =? 1)%Z with true.
  change (1 =? 0)%Z with false. change (0 =? 1)%Z with false.
  cbv iota. by rewrite !negb_involutive.
Qed.

End NodeBits.


(** * Part IV: further properties of the code *)

(** X1: [add( key, node )] on a tree object that stores a balanced search
    tree, with room left in the free store, returns; the result is [false]
    exactly when some node held the key already; the node handed back holds
    the key, and it is a newly allocated node exactly when the result is
    [true]; every other node keeps its key; the size grows by one exactly
    when the result is [true]. *)
Theorem X1_add_effect {KeyT : Type} (less : KeyT → KeyT → bool)
    (s : RedBlackTree KeyT) (key : KeyT) :
  StrictTotal less → Inv less s → (Z.of_nat (size (heap s)) < SIZE_MAX)%Z →
  ∃ (isNew : bool) (node : positive) s',
    add_key_node less key s = Ok ((isNew, Some node), s') ∧
    (isNew = false ↔ holds_key s key) ∧
    key_at (heap s') node = Some key ∧
    key_at (heap s) node = (if isNew then None else Some key) ∧
    (∀ q, q ≠ node → key_at (heap s') q = key_at (heap s) q) ∧
    m_size s' = (m_size s + if isNew then 1 else 0)%Z.
Proof.
  intros Hless HI Hsz.
  destruct (Inv_add_total less Hless s key HI Hsz) as ([isNew nd] & s' & Hadd).
  destruct (Inv_add_effect less Hless s key _ s' HI Hadd)
    as (Hnew & (a & Ha & Hk' & Hk & Hq) & Hm).
  cbn [fst snd] in *. subst nd. by exists isNew, a, s'.
Qed.

Lemma X1_add_effect_witness :
  StrictTotal Z.ltb ∧ Inv Z.ltb Scenario.tree7 ∧
  (Z.of_nat (size (heap Scenario.tree7)) < SIZE_MAX)%Z ∧
  ∃ (isNew : bool) (node : positive) s',
    add_key_node Z.ltb 7%Z Scenario.tree7 = Ok ((isNew, Some node), s') ∧
    (isNew = false ↔ holds_key Scenario.tree7 7%Z) ∧
    key_at (heap s') node = Some 7%Z ∧
    key_at (heap Scenario.tree7) node = (if isNew then None else Some 7%Z) ∧
    (∀ q, q ≠ node → key_at (heap s') q = key_at (heap Scenario.tree7) q) ∧
    m_size s' = (m_size Scenario.tree7 + if isNew then 1 else 0)%Z.
Proof.
  assert (Hsz : (Z.of_nat (size (heap Scenario.tree7)) < SIZE_MAX)%Z)
    by (vm_compute; reflexivity).
  split; [exact Z_ltb_strict|]. split; [exact tree7_Inv|]. split; [exact Hsz|].
  exact (X1_add_effect Z.ltb Scenario.tree7 7%Z Z_ltb_strict tree7_Inv Hsz).
Defined.

(** X2: [remove( node, next )] on a live node of a tree object that
    stores a balanced search tree returns [true], frees that node and no
    other, leaves the key of every other node as it was, and lowers the
    size by one. *)
Theorem X2_remove_node_frees {KeyT : Type} (less : KeyT → KeyT → bool)
    (s : RedBlackTree KeyT) (p : positive) :
  Inv less s → is_Some (heap s !! p) →
  ∃ nx s', remove_node_next (Some p) s = Ok ((true, nx), s') ∧
    heap s' !! p = None ∧
    (∀ q, q ≠ p → key_at (heap s') q = key_at (heap s) q) ∧
    m_size s' = (m_size s - 1)%Z.
Proof. apply Inv_remove_node_frees. Qed.

Lemma X2_remove_node_frees_witness :
  Inv Z.ltb Scenario.tree7 ∧ is_Some (heap Scenario.tree7 !! 1%positive) ∧
  ∃ nx s', remove_node_next (Some 1%positive) Scenario.tree7 = Ok ((true, nx), s') ∧
    heap s' !! 1%positive = None ∧
    (∀ q, q ≠ 1%positive → key_at (heap s') q = key_at (heap Scenario.tree7) q) ∧
    m_size s' = (m_size Scenario.tree7 - 1)%Z.
Proof.
  assert (Hp : is_Some (heap Scenario.tree7 !! 1%positive)).
  { exists (Node.mk (Some 3%positive) (Some 2%positive) nullptr 0%Z 10%Z).
    vm_compute. reflexivity. }
  split; [exact tree7_Inv|]. split; [exact Hp|].
  exact (X2_remove_node_frees Z.ltb Scenario.tree7 1%positive tree7_Inv Hp).
Defined.

(** X3: [remove( key, next )] on a tree object that stores a balanced
    search tree returns; the result is [true] exactly when some node held
    the key; afterwards no node holds the key; a node holds another key
    afterwards exactly when it held that key before; the size drops by one
    exactly when the result is [true]. *)
Theorem X3_remove_key_effect {KeyT : Type} (less : KeyT → KeyT → bool)
    (s : RedBlackTree KeyT) (key : KeyT) (next : ptr) :
  StrictTotal less → Inv less s →
  ∃ (b : bool) nx s', remove_key_next less key next s = Ok ((b, nx), s') ∧
    (b = true ↔ holds_key s key) ∧ ¬ holds_key s' key ∧
    (∀ q k, k ≠ key → key_at (heap s') q = Some k ↔ key_at (heap s) q = Some k) ∧
    m_size s' = (m_size s - if b then 1 else 0)%Z.
Proof. intros Hless HI. by apply Inv_remove_key_effect. Qed.

Lemma X3_remove_key_effect_witness :
  StrictTotal Z.ltb ∧ Inv Z.ltb Scenario.tree7 ∧
  ∃ (b : bool) nx s',
    remove_key_next Z.ltb 10%Z nullptr Scenario.tree7 = Ok ((b, nx), s') ∧
    (b = true ↔ holds_key Scenario.tree7 10%Z) ∧ ¬ holds_key s' 10%Z ∧
    (∀ q k, k ≠ 10%Z →
       key_at (heap s') q = Some k ↔ key_at (heap Scenario.tree7) q = Some k) ∧
    m_size s' = (m_size Scenario.tree7 - if b then 1 else 0)%Z.
Proof.
  split; [exact Z_ltb_strict|]. split; [exact tree7_Inv|].
  exact (X3_remove_key_effect Z.ltb Scenario.tree7 10%Z nullptr Z_ltb_strict tree7_Inv).
Defined.

(** X4: [find( key )] on a tree object that stores a balanced search
    tree returns without changing the tree object; the result is a node
    that holds the key when there is one, and the null pointer exactly when
    no node holds the key. *)
Theorem X4_find {KeyT : Type} (less : KeyT → KeyT → bool)
    (s : RedBlackTree KeyT) (key : KeyT) :
  StrictTotal less → Inv less s →
  ∃ res, find less key s = Ok (res, s) ∧
    match res with
    | Some p => key_at (heap s) p = Some key
    | None => ¬ holds_key s key
    end.
Proof. intros Hless HI. by apply Inv_find. Qed.

Lemma X4_find_witness :
  StrictTotal Z.ltb ∧ Inv Z.ltb Scenario.tree7 ∧
  ∃ res, find Z.ltb 7%Z Scenario.tree7 = Ok (res, Scenario.tree7) ∧
    match res with
    | Some p => key_at (heap Scenario.tree7) p = Some 7%Z
    | None => ¬ holds_key Scenario.tree7 7%Z
    end.
Proof.
  split; [exact Z_ltb_strict|]. split; [exact tree7_Inv|].
  exact (X4_find Z.ltb Scenario.tree7 7%Z Z_ltb_strict tree7_Inv).
Defined.

(** X5: [validate] returns [true], and changes nothing, on every tree
    object that the public mutating members [add], [remove( key )] and
    [remove( node )] build from the empty tree. *)
Theorem X5_validate_accepts {KeyT : Type} (less : KeyT → KeyT → bool)
    (s : RedBlackTree KeyT) :
  StrictTotal less → reachable less s → validate less s = Ok (true, s).
Proof. intros Hless Hr. apply Inv_validate; [done|]. by apply reachable_Inv. Qed.

Lemma X5_validate_accepts_witness :
  StrictTotal Z.ltb ∧ reachable Z.ltb Scenario.tree6 ∧
  validate Z.ltb Scenario.tree6 = Ok (true, Scenario.tree6).
Proof.
  split; [exact Z_ltb_strict|]. split; [exact tree6_reachable|].
  exact (X5_validate_accepts Z.ltb Scenario.tree6 Z_ltb_strict tree6_reachable).
Defined.

(** X6: in a tree object that stores a balanced search tree of [n]
    nodes, the loop of [find( key )] runs its body at most
    [2 * log2 (n + 1)] times: run with that budget of iterations it
    returns, and it returns what [find] returns. *)
Theorem X6_find_depth {KeyT : Type} (less : KeyT → KeyT → bool)
    (s : RedBlackTree KeyT) (key : KeyT) :
  StrictTotal less → Inv less s →
  ∃ res,
    find_loop less (2 * Nat.log2 (S (size (heap s)))) key (m_root s) s = Ok (res, s) ∧
    find less key s = Ok (res, s).
Proof.
  intros Hless HI. destruct (Inv_find less Hless s key HI) as (res & Hf & _).
  exists res. split; [|done]. by rewrite Inv_find_depth.
Qed.

Lemma X6_find_depth_witness :
  StrictTotal Z.ltb ∧ Inv Z.ltb Scenario.tree7 ∧
  ∃ res,
    find_loop Z.ltb (2 * Nat.log2 (S (size (heap Scenario.tree7)))) 8%Z
      (m_root Scenario.tree7) Scenario.tree7 = Ok (res, Scenario.tree7) ∧
    find Z.ltb 8%Z Scenario.tree7 = Ok (res, Scenario.tree7).
Proof.
  split; [exact Z_ltb_strict|]. split; [exact tree7_Inv|].
  exact (X6_find_depth Z.ltb Scenario.tree7 8%Z Z_ltb_strict tree7_Inv).
Defined.

(** X7: in a tree object that stores a balanced search tree,
    [getPrevious] undoes [getNext] and [getNext] undoes [getPrevious]: when
    one of them leads from a node to another node, the other one leads
    back. *)
Theorem X7_next_previous {KeyT : Type} (less : KeyT → KeyT → bool)
    (s : RedBlackTree KeyT) (p q : positive) :
  Inv less s → q ≠ p →
  (getNext (Some p) s = Ok (Some q, s) → getPrevious (Some q) s = Ok (Some p, s)) ∧
  (getPrevious (Some p) s = Ok (Some q, s) → getNext (Some q) s = Ok (Some p, s)).
Proof. apply Inv_next_previous. Qed.

Lemma X7_next_previous_witness :
  Inv Z.ltb Scenario.tree7 ∧ 4%positive ≠ 1%positive ∧
  getNext (Some 1%positive) Scenario.tree7 = Ok (Some 4%positive, Scenario.tree7) ∧
  getPrevious (Some 4%positive) Scenario.tree7 = Ok (Some 1%positive, Scenario.tree7).
Proof.
  assert (Hne : 4%positive ≠ 1%positive) by discriminate.
  assert (Hn : getNext (Some 1%positive) Scenario.tree7
               = Ok (Some 4%positive, Scenario.tree7)) by (vm_compute; reflexivity).
  split; [exact tree7_Inv|]. split; [exact Hne|]. split; [exact Hn|].
  exact (proj1 (X7_next_previous Z.ltb Scenario.tree7 1%positive 4%positive
                  tree7_Inv Hne) Hn).
Defined.

(** X8: the constructor from a list of keys returns, unless the list is
    longer than the free store; the tree object it builds passes
    [validate], its in-order traversal is strictly ascending and holds
    exactly the keys of the list, and [getSize] is the number of distinct
    keys. *)
Theorem X8_from_list {KeyT : Type} (less : KeyT → KeyT → bool) (keys : list KeyT) :
  StrictTotal less → (Z.of_nat (length keys) ≤ SIZE_MAX)%Z →
  ∃ s ks, from_list less keys = Ok ((), s) ∧
          inorder_keys_walk s = Ok (ks, s) ∧
          StronglySorted (λ a b, less a b = true) ks ∧ (∀ k, k ∈ ks ↔ k ∈ keys) ∧
          getSize s = Ok (Z.of_nat (length ks), s) ∧
          validate less s = Ok (true, s).
Proof.
  intros Hless Hlen.
  destruct (Inv_from_list less Hless keys Hlen)
    as (s & ks & Hex & HI & Hwalk & Hsort & Hks & Hsz & _).
  exists s, ks. split_and!; [done..|]. by apply Inv_validate.
Qed.

Lemma X8_from_list_witness :
  StrictTotal Z.ltb ∧ (Z.of_nat (length [10; 20; 5; 20; 3; 10]%Z) ≤ SIZE_MAX)%Z ∧
  ∃ s ks, from_list Z.ltb [10; 20; 5; 20; 3; 10]%Z = Ok ((), s) ∧
          inorder_keys_walk s = Ok (ks, s) ∧
          StronglySorted (λ a b, Z.ltb a b = true) ks ∧
          (∀ k, k ∈ ks ↔ k ∈ [10; 20; 5; 20; 3; 10]%Z) ∧
          getSize s = Ok (Z.of_nat (length ks), s) ∧
          validate Z.ltb s = Ok (true, s).
Proof.
  assert (Hlen : (Z.of_nat (length [10; 20; 5; 20; 3; 10]%Z) ≤ SIZE_MAX)%Z)
    by (vm_compute; discriminate).
  split; [exact Z_ltb_strict|]. split; [exact Hlen|].
  exact (X8_from_list Z.ltb [10; 20; 5; 20; 3; 10]%Z Z_ltb_strict Hlen).
Defined.

(** X9: [remove( node, next )] on a live node of a tree object that
    stores a balanced search tree leaves in [next]: the in-order successor
    of the removed node when that node has no right child, and the
    successor of its successor when it has a right child; in both cases the
    null pointer when there is no such node. *)
Theorem X9_remove_next {KeyT : Type} (less : KeyT → KeyT → bool)
    (s : RedBlackTree KeyT) (p : positive) (n : Node.t KeyT) :
  Inv less s → heap s !! p = Some n →
  ∃ q nx s',
    getNext (Some p) s = Ok (Some q, s) ∧
    remove_node_next (Some p) s = Ok ((true, nx), s') ∧
    if ptr_eqb (Node.getRightChild n) nullptr then nx = next_or_null p (Some q)
    else q ≠ p ∧ ∃ q2, getNext (Some q) s = Ok (Some q2, s) ∧
                       nx = next_or_null q (Some q2).
Proof. apply Inv_remove_next. Qed.

Lemma X9_remove_next_witness :
  let n := Node.mk (Some 3%positive) (Some 2%positive) nullptr 0%Z 10%Z in
  Inv Z.ltb Scenario.tree7 ∧ heap Scenario.tree7 !! 1%positive = Some n ∧
  ∃ q nx s',
    getNext (Some 1%positive) Scenario.tree7 = Ok (Some q, Scenario.tree7) ∧
    remove_node_next (Some 1%positive) Scenario.tree7 = Ok ((true, nx), s') ∧
    if ptr_eqb (Node.getRightChild n) nullptr
    then nx = next_or_null 1%positive (Some q)
    else q ≠ 1%positive ∧
         ∃ q2, getNext (Some q) Scenario.tree7 = Ok (Some q2, Scenario.tree7) ∧
               nx = next_or_null q (Some q2).
Proof.
  intros n.
  assert (Hn : heap Scenario.tree7 !! 1%positive = Some n) by (vm_compute; reflexivity).
  split; [exact tree7_Inv|]. split; [exact Hn|].
  exact (X9_remove_next Z.ltb Scenario.tree7 1%positive n tree7_Inv Hn).
Defined.

(** X10: the two flags of the type byte of a node are written and read
    independently, whatever the byte held: [setRed] sets what [isRed]
    reads and leaves [isLessThanParent] alone, [setLessThanParent] sets
    what [isLessThanParent] reads and leaves [isRed] alone, and [setBlack]
    and [setGreaterThanParent] set what [isBlack] and
    [isGreaterThanParent] read. *)
Theorem X10_type_bits {KeyT : Type} (n : Node.t KeyT) (b : bool) :
  Node.isRed (Node.setRed b n) = b ∧
  Node.isLessThanParent (Node.setRed b n) = Node.isLessThanParent n ∧
  Node.isLessThanParent (Node.setLessThanParent b n) = b ∧
  Node.isRed (Node.setLessThanParent b n) = Node.isRed n ∧
  Node.isBlack (Node.setBlack b n) = b ∧
  Node.isGreaterThanParent (Node.setGreaterThanParent b n) = b.
Proof. apply Node_type_bits. Qed.

(** X11: in a tree object that stores a balanced search tree,
    [getNextLargestChild( node )] changes nothing and returns the null
    pointer when the node has no right child, and what [getNext] returns
    at the node when it has one. *)
Theorem X11_getNextLargestChild {KeyT : Type} (less : KeyT → KeyT → bool)
    (s : RedBlackTree KeyT) (p : positive) (n : Node.t KeyT) :
  Inv less s → heap s !! p = Some n →
  getNextLargestChild (Some p) s
  = if ptr_eqb (Node.getRightChild n) nullptr then Ok (nullptr, s)
    else getNext (Some p) s.
Proof. apply Inv_getNextLargestChild. Qed.

Lemma X11_getNextLargestChild_witness :
  let n := Node.mk (Some 3%positive) (Some 2%positive) nullptr 0%Z 10%Z in
  Inv Z.ltb Scenario.tree7 ∧ heap Scenario.tree7 !! 1%positive = Some n ∧
  getNextLargestChild (Some 1%positive) Scenario.tree7
  = if ptr_eqb (Node.getRightChild n) nullptr then Ok (nullptr, Scenario.tree7)
    else getNext (Some 1%positive) Scenario.tree7.
Proof.
  intros n.
  assert (Hn : heap Scenario.tree7 !! 1%positive = Some n) by (vm_compute; reflexivity).
  split; [exact tree7_Inv|]. split; [exact Hn|].
  exact (X11_getNextLargestChild Z.ltb Scenario.tree7 1%positive n tree7_Inv Hn).
Defined.

(** X12: in every tree object that the public mutating members [add],
    [remove( key )] and [remove( node )] build from the empty tree, no two
    nodes hold the same key. *)
Theorem X12_keys_distinct {KeyT : Type} (less : KeyT → KeyT → bool)
    (s : RedBlackTree KeyT) :
  StrictTotal less → reachable less s → keys_distinct s.
Proof. intros Hless Hr. eapply Inv_keys_distinct; [done|]. by apply reachable_Inv. Qed.

Lemma X12_keys_distinct_witness :
  StrictTotal Z.ltb ∧ reachable Z.ltb Scenario.tree7 ∧ keys_distinct Scenario.tree7.
Proof.
  split; [exact Z_ltb_strict|]. split; [exact tree7_reachable|].
  exact (X12_keys_distinct Z.ltb Scenario.tree7 Z_ltb_strict tree7_reachable).
Defined.

(** X13: in every tree object that the public mutating members build
    from the empty tree the pointers of neighbouring nodes agree: a left
    child points back to its parent and is marked less than it, a right
    child points back and is marked greater, the parent of a node holds the
    node in the slot the node's relation flag names, and a node without
    parent is the root. *)
Theorem X13_links_consistent {KeyT : Type} (less : KeyT → KeyT → bool)
    (s : RedBlackTree KeyT) :
  StrictTotal less → reachable less s → links_consistent s.
Proof. intros Hless Hr. eapply Inv_links_consistent. by apply reachable_Inv. Qed.

Lemma X13_links_consistent_witness :
  StrictTotal Z.ltb ∧ reachable Z.ltb Scenario.tree6 ∧ links_consistent Scenario.tree6.
Proof.
  split; [exact Z_ltb_strict|]. split; [exact tree6_reachable|].
  exact (X13_links_consistent Z.ltb Scenario.tree6 Z_ltb_strict tree6_reachable).
Defined.

(** X14: in every tree object that the public mutating members build
    from the empty tree a node with a right child has a left child. *)
Theorem X14_right_needs_left {KeyT : Type} (less : KeyT → KeyT → bool)
    (s : RedBlackTree KeyT) :
  StrictTotal less → reachable less s → right_needs_left s.
Proof. intros Hless Hr. eapply Inv_right_needs_left. by apply reachable_Inv. Qed.

Lemma X14_right_needs_left_witness :
  StrictTotal Z.ltb ∧ reachable Z.ltb Scenario.tree6 ∧ right_needs_left Scenario.tree6.
Proof.
  split; [exact Z_ltb_strict|]. split; [exact tree6_reachable|].
  exact (X14_right_needs_left Z.ltb Scenario.tree6 Z_ltb_strict tree6_reachable).
Defined.
